(** * HashMap.h: an insertion-ordered chained hash table

    Shallow embedding of [src/HashMap.h] (class [HashMap<KeyType, ValueType,
    Hash>] and its node type [HashMapNode]) and proofs of its specification.

    Modelling conventions.

    - A [std::shared_ptr<Node>] is an address [loc] into a node store
      ([heap]); the bucket chains and the order sequence hold addresses, so a
      node reached through a chain and through the sequence is the same
      object, and a write through one path is seen through the other.
    - A [std::list<pNode>] is a [list loc]; a [std::vector<BucketType>] is a
      [list (list loc)] indexed with stdpp's [!!].
    - A [std::list<pNode>::iterator] into [nodes_sequence] is [Pos p], the
      cell holding pointer [p], or [PastEnd].  Every cell of the sequence is
      created by [_insert] for a freshly allocated node, so a cell is
      identified by the pointer it holds.
    - Every operation is a computation in the monad [M] over the object state:
      it returns normally ([Ret]), throws a C++ exception ([Throw]) or has
      undefined behaviour ([Undefined]: indexing a vector out of range,
      [pop_front] on an empty list, dereferencing a dangling pointer or an
      invalid iterator, [%] by zero).
    - [std::make_shared] takes the next unused address.  The store keeps a
      node after its last pointer is destroyed; no pointer to it is left in
      the object, so the released storage is never looked at.
    - [size_t] values are in [N] without wrap-around: [sz] counts live nodes
      and [capacity] counts allocated buckets, each of which occupies at least
      16 bytes of a 64-bit address space, so neither [++sz] nor
      [capacity *= 2] can reach [2^64] ([reachable_no_wrap]).
    - [operator==] on keys is a decidable equality and the hash function
      object is a function of the key.
    - [double] arithmetic: [capacity] is a power of two and [sz < 2^53], so
      the quotient [sz / capacity] is computed exactly; the constant [0.7] is
      the binary64 number [3152519739159347 / 2^52] and [0.7 / 4] is exactly
      [3152519739159347 / 2^54].  The two comparisons of [check_load_factor]
      are therefore comparisons of exact rationals, cross-multiplied
      ([load_factor_ge_max_decimal] and [load_factor_le_quarter_decimal]
      relate them to the decimal thresholds 0.70 and 0.175). *)

From Stdlib Require Import NArith Lia.
From stdpp Require Import base decidable option numbers list gmap strings.

#[local] Set Warnings "-clear-no-such-hyp".
Local Open Scope N_scope.

(** ** Outcomes and exceptions *)

Inductive exn : Type :=
  | out_of_range (what : string).

Inductive outcome (A : Type) : Type :=
  | Ret (a : A)
  | Throw (e : exn)
  | Undefined.
Arguments Ret {A} a.
Arguments Throw {A} e.
Arguments Undefined {A}.

(** ** Pointers and positions *)

Definition loc := nat.

Inductive PosIterator : Type :=
  | Pos (p : loc)
  | PastEnd.

#[global] Instance PosIterator_eq_dec : EqDecision PosIterator.
Proof. solve_decision. Defined.

(** [++sequence_pos] on a position of the list [xs]. *)
Fixpoint next_pos (p : loc) (xs : list loc) : option PosIterator :=
  match xs with
  | [] => None
  | x :: rest =>
      if decide (x = p)
      then Some (match rest with [] => PastEnd | y :: _ => Pos y end)
      else next_pos p rest
  end.

(** [std::list::erase(pos)]: unlink the cell holding [p]. *)
Fixpoint list_erase (p : loc) (xs : list loc) : option (list loc) :=
  match xs with
  | [] => None
  | x :: rest =>
      if decide (x = p) then Some rest
      else cons x <$> list_erase p rest
  end.

(** The binary64 constant [MAX_LOAD_FACTOR = 0.7] is
    [MAX_LOAD_FACTOR_num / 2^52]. *)
Definition MAX_LOAD_FACTOR_num : N := 3152519739159347.
Definition INIT_CAPACITY : N := 16.

(** [static_cast<double>(sz) / capacity >= MAX_LOAD_FACTOR]; with
    [capacity = 0] the quotient is [+inf] or, for [0/0], NaN. *)
Definition load_factor_ge_max (sz capacity : N) : bool :=
  if capacity =? 0 then negb (sz =? 0)
  else MAX_LOAD_FACTOR_num * capacity <=? sz * 2 ^ 52.

(** [static_cast<double>(sz) / capacity <= MAX_LOAD_FACTOR / 4]. *)
Definition load_factor_le_quarter (sz capacity : N) : bool :=
  if capacity =? 0 then false
  else sz * 2 ^ 54 <=? MAX_LOAD_FACTOR_num * capacity.

(** The template parameter [Hash]: a function object from keys to [size_t]. *)
Class Hash (KeyType : Type) : Type := hasher : KeyType → N.

(** Value-initialisation [ValueType()]. *)
Class DefaultConstructible (ValueType : Type) : Type := ValueType_default : ValueType.

Module HashMap.
Section HashMap.

Context {KeyType : Type} `{EqDecision KeyType} `{Hash KeyType}.
Context {ValueType : Type} `{DefaultConstructible ValueType}.

Definition MapPair : Type := KeyType * ValueType.

(** [struct HashMapNode]. *)
Record Node : Type := mkNode {
  map_pair : MapPair;
  sequence_pos : PosIterator;
  bucket_index : N
}.

Definition key (n : Node) : KeyType := fst (map_pair n).
Definition value (n : Node) : ValueType := snd (map_pair n).

Definition set_sequence_pos (pos : PosIterator) (n : Node) : Node :=
  mkNode (map_pair n) pos (bucket_index n).
Definition set_bucket_index (i : N) (n : Node) : Node :=
  mkNode (map_pair n) (sequence_pos n) i.
Definition set_value (v : ValueType) (n : Node) : Node :=
  mkNode (key n, v) (sequence_pos n) (bucket_index n).

(** The private members of [class HashMap], with the node store. *)
Record t : Type := mkHashMap {
  buckets : list (list loc);
  nodes_sequence : list loc;
  capacity : N;
  sz : N;
  heap : gmap loc Node;
  next_loc : loc
}.

Definition with_buckets (f : list (list loc) → list (list loc)) (s : t) : t :=
  mkHashMap (f (buckets s)) (nodes_sequence s) (capacity s) (sz s) (heap s) (next_loc s).
Definition with_nodes_sequence (f : list loc → list loc) (s : t) : t :=
  mkHashMap (buckets s) (f (nodes_sequence s)) (capacity s) (sz s) (heap s) (next_loc s).
Definition with_capacity (f : N → N) (s : t) : t :=
  mkHashMap (buckets s) (nodes_sequence s) (f (capacity s)) (sz s) (heap s) (next_loc s).
Definition with_sz (f : N → N) (s : t) : t :=
  mkHashMap (buckets s) (nodes_sequence s) (capacity s) (f (sz s)) (heap s) (next_loc s).
Definition with_heap (f : gmap loc Node → gmap loc Node) (s : t) : t :=
  mkHashMap (buckets s) (nodes_sequence s) (capacity s) (sz s) (f (heap s)) (next_loc s).

(** ** The monad of member functions *)

Definition M (A : Type) : Type := t → outcome (A * t).

Definition ret {A} (a : A) : M A := λ s, Ret (a, s).
Definition bind {A B} (m : M A) (f : A → M B) : M B :=
  λ s, match m s with
       | Ret (a, s') => f a s'
       | Throw e => Throw e
       | Undefined => Undefined
       end.
Definition throw {A} (e : exn) : M A := λ _, Throw e.
Definition undefined {A} : M A := λ _, Undefined.
Definition gets {A} (f : t → A) : M A := λ s, Ret (f s, s).
Definition modify (f : t → t) : M unit := λ s, Ret (tt, f s).

Notation "x <- m ;; k" := (bind m (λ x, k))
  (at level 100, m at next level, k at level 200, right associativity).
Notation "m ;;; k" := (bind m (λ _, k))
  (at level 100, k at level 200, right associativity).

(** Range-based [for] over a list whose cells the body does not unlink. *)
Fixpoint for_each {A} (xs : list A) (body : A → M unit) : M unit :=
  match xs with
  | [] => ret tt
  | x :: rest => body x ;;; for_each rest body
  end.

(** ** Primitive accesses *)

(** Dereferencing a [pNode p]. *)
Definition deref (p : loc) : M Node :=
  λ s, match heap s !! p with
       | Some n => Ret (n, s)
       | None => Undefined
       end.

(** Assignment to the fields of [*p]. *)
Definition update_node (p : loc) (f : Node → Node) : M unit :=
  n <- deref p ;; modify (with_heap (<[p := f n]>)).

(** [std::make_shared<Node>(map_pair)]: [sequence_pos] and [bucket_index] are
    left indeterminate by the constructor and are assigned before any read. *)
Definition make_shared (mp : MapPair) : M loc :=
  λ s, Ret (next_loc s,
            mkHashMap (buckets s) (nodes_sequence s) (capacity s) (sz s)
                      (<[next_loc s := mkNode mp PastEnd 0]> (heap s))
                      (S (next_loc s))).

(** [buckets[i]]. *)
Definition bucket_at (i : N) : M (list loc) :=
  λ s, match buckets s !! N.to_nat i with
       | Some b => Ret (b, s)
       | None => Undefined
       end.

Definition set_bucket (i : N) (b : list loc) : M unit :=
  modify (with_buckets (<[N.to_nat i := b]>)).

Definition pop_front (i : N) : M unit :=
  b <- bucket_at i ;;
  match b with
  | [] => undefined
  | _ :: rest => set_bucket i rest
  end.

Definition push_back (i : N) (p : loc) : M unit :=
  b <- bucket_at i ;; set_bucket i (b ++ [p]).

Definition emplace_front (i : N) (p : loc) : M unit :=
  b <- bucket_at i ;; set_bucket i (p :: b).

(** ** Iterators *)

Definition iterator : Type := PosIterator.

Definition begin : M iterator :=
  seq <- gets nodes_sequence ;;
  ret (match seq with [] => PastEnd | p :: _ => Pos p end).

Definition end_ : M iterator := ret PastEnd.

(** [operator++]. *)
Definition iterator_incr (it : iterator) : M iterator :=
  seq <- gets nodes_sequence ;;
  match it with
  | PastEnd => undefined
  | Pos p => match next_pos p seq with
             | Some it' => ret it'
             | None => undefined
             end
  end.

(** [operator*] and [operator->]: the [map_pair] of the node whose pointer
    the cell [sequence_pos] holds. *)
Definition iterator_deref (it : iterator) : M MapPair :=
  seq <- gets nodes_sequence ;;
  match it with
  | PastEnd => undefined
  | Pos p => if decide (p ∈ seq) then n <- deref p ;; ret (map_pair n)
             else undefined
  end.

(** The client loop [for (it = begin(); it != end(); ++it)] collecting each
    dereferenced pair, cut off after [fuel] iterations ([None]). *)
Fixpoint iterate_from (fuel : nat) (it : iterator) : M (option (list MapPair)) :=
  match fuel with
  | O => ret None
  | S fuel' =>
      e <- end_ ;;
      if decide (it = e) then ret (Some [])
      else
        mp <- iterator_deref it ;;
        it' <- iterator_incr it ;;
        r <- iterate_from fuel' it' ;;
        ret (cons mp <$> r)
  end.

Definition iterate (fuel : nat) : M (option (list MapPair)) :=
  b <- begin ;; iterate_from fuel b.

(** ** Private member functions *)

Definition get_hash (k : KeyType) : M N :=
  cap <- gets capacity ;;
  if cap =? 0 then undefined else ret (hasher k mod cap).

Definition rehash_body (node_pnt : loc) : M unit :=
  n <- deref node_pnt ;;
  cap <- gets capacity ;;
  (if bucket_index n <? cap then pop_front (bucket_index n) else ret tt) ;;;
  h <- get_hash (key n) ;;
  update_node node_pnt (set_bucket_index h) ;;;
  push_back h node_pnt.

Definition rehash : M unit :=
  cap <- gets capacity ;;
  modify (with_buckets (list.resize (N.to_nat cap) [])) ;;;
  seq <- gets nodes_sequence ;;
  for_each seq rehash_body.

(** The quotient [load_factor] is compared, not stored: the two tests are
    [load_factor_ge_max] and [load_factor_le_quarter]. *)
Definition check_load_factor : M unit :=
  n <- gets sz ;;
  cap <- gets capacity ;;
  if load_factor_ge_max n cap then
    modify (with_capacity (λ c, c * 2)) ;;; rehash
  else if (INIT_CAPACITY <? cap) && load_factor_le_quarter n cap then
    modify (with_capacity (λ c, c / 2)) ;;; rehash
  else ret tt.

Definition _insert (mp : MapPair) : M iterator :=
  modify (with_sz (λ n, n + 1)) ;;;
  check_load_factor ;;;
  new_node <- make_shared mp ;;
  n <- deref new_node ;;
  h <- get_hash (key n) ;;
  update_node new_node (set_bucket_index h) ;;;
  emplace_front h new_node ;;;
  modify (with_nodes_sequence (cons new_node)) ;;;
  b <- begin ;;
  update_node new_node (set_sequence_pos b) ;;;
  begin.

Definition resize (new_cap : N) : M unit :=
  modify (with_capacity (λ _, new_cap)) ;;;
  cap <- gets capacity ;;
  modify (with_buckets (list.resize (N.to_nat cap) [])).

(** ** Public member functions *)

(** [HashMap(const Hash&)]. *)
Definition new : t :=
  mkHashMap (list.resize (N.to_nat INIT_CAPACITY) [] []) [] INIT_CAPACITY 0 ∅ O.

Fixpoint find_loop (k : KeyType) (bucket : list loc) : M iterator :=
  match bucket with
  | [] => end_
  | node_pnt :: rest =>
      n <- deref node_pnt ;;
      if decide (key n = k) then ret (sequence_pos n)
      else find_loop k rest
  end.

Definition find (k : KeyType) : M iterator :=
  h <- get_hash k ;;
  bucket <- bucket_at h ;;
  find_loop k bucket.

Definition insert (mp : MapPair) : M unit :=
  it <- find (fst mp) ;;
  e <- end_ ;;
  if decide (it = e) then _insert mp ;;; ret tt else ret tt.

(** [operator[]]; the returned [ValueType&] is the node holding the value. *)
Definition operator_index (k : KeyType) : M loc :=
  it <- find k ;;
  e <- end_ ;;
  it <- (if decide (it = e) then _insert (k, ValueType_default) else ret it) ;;
  match it with
  | Pos p => seq <- gets nodes_sequence ;;
             if decide (p ∈ seq) then ret p else undefined
  | PastEnd => undefined
  end.

(** Reading and writing through a [ValueType&]. *)
Definition read_ref (r : loc) : M ValueType :=
  n <- deref r ;; ret (value n).
Definition write_ref (r : loc) (v : ValueType) : M unit :=
  update_node r (set_value v).

(** [nodes_sequence.erase(pos)]. *)
Definition sequence_erase (pos : PosIterator) : M unit :=
  seq <- gets nodes_sequence ;;
  match pos with
  | PastEnd => undefined
  | Pos p => match list_erase p seq with
             | Some seq' => modify (with_nodes_sequence (λ _, seq'))
             | None => undefined
             end
  end.

(** The loop of [erase]; [i] is the offset of [it] from [bucket.begin()].
    [--sz] is [N.pred]: the loop has just found a node, and an object that
    holds a node has [sz >= 1]. *)
Fixpoint erase_loop (k : KeyType) (h : N) (i : nat) (rest : list loc) : M unit :=
  match rest with
  | [] => ret tt
  | node_pnt :: rest' =>
      n <- deref node_pnt ;;
      if decide (key n = k) then
        sequence_erase (sequence_pos n) ;;;
        bucket <- bucket_at h ;;
        set_bucket h (delete i bucket) ;;;
        modify (with_sz N.pred) ;;;
        check_load_factor
      else erase_loop k h (S i) rest'
  end.

Definition erase (k : KeyType) : M unit :=
  h <- get_hash k ;;
  bucket <- bucket_at h ;;
  erase_loop k h O bucket.

Definition at_ (k : KeyType) : M ValueType :=
  it <- find k ;;
  e <- end_ ;;
  if decide (it = e) then throw (out_of_range "no such key")
  else mp <- iterator_deref it ;; ret (snd mp).

(** The body of the loop of [clear]. *)
Definition clear_body (pnt : loc) : M unit :=
  n <- deref pnt ;; pop_front (bucket_index n).

Definition clear : M unit :=
  seq <- gets nodes_sequence ;;
  for_each seq clear_body ;;;
  modify (with_nodes_sequence (λ _, [])) ;;;
  resize INIT_CAPACITY ;;;
  modify (with_sz (λ _, 0)).

(** [HashMap(Iter begin, Iter end, const Hash&)] and the initializer-list
    constructor: the default constructor followed by an [insert] per pair. *)
Definition new_from_range (l : list MapPair) : outcome (unit * t) :=
  for_each l insert new.

Definition size : M N := gets sz.
Definition empty : M bool := n <- gets sz ;; ret (n =? 0).

(** ** Operations of a client and reachable states *)

(** One call on the public surface that may change the object.  [Index k] is
    a use of [m[k]] as an rvalue, [Assign k v] is [m[k] = v]. *)
Inductive op : Type :=
  | Insert (mp : MapPair)
  | Erase (k : KeyType)
  | Index (k : KeyType)
  | Assign (k : KeyType) (v : ValueType)
  | Clear.

Definition run_op (o : op) : M unit :=
  match o with
  | Insert mp => insert mp
  | Erase k => erase k
  | Index k => r <- operator_index k ;; v <- read_ref r ;; ret tt
  | Assign k v => r <- operator_index k ;; write_ref r v
  | Clear => clear
  end.

Fixpoint run_ops (os : list op) : M unit :=
  match os with
  | [] => ret tt
  | o :: rest => run_op o ;;; run_ops rest
  end.

(** The states a client can bring the object into: a freshly constructed map
    followed by any calls.  The range and initializer-list constructors are
    the default constructor followed by [insert]s. *)
Inductive reachable : t → Prop :=
  | reachable_new : reachable new
  | reachable_step (s s' : t) (o : op) :
      reachable s → run_op o s = Ret (tt, s') → reachable s'.

(** ** Abstraction and invariant *)

Definition index_of (hp : gmap loc Node) (p : loc) : option N :=
  bucket_index <$> hp !! p.

(** The nodes of the order sequence whose cached index is [i], in sequence
    order. *)
Definition chain (hp : gmap loc Node) (seq : list loc) (i : N) : list loc :=
  filter (λ p, index_of hp p = Some i) seq.

(** The pairs of the order sequence, head first. *)
Definition entries (s : t) : list MapPair :=
  omap (λ p, map_pair <$> heap s !! p) (nodes_sequence s).

(** The first node of [seq] holding key [k]. *)
Fixpoint lookup_loc (hp : gmap loc Node) (k : KeyType) (seq : list loc) : option loc :=
  match seq with
  | [] => None
  | p :: rest =>
      match hp !! p with
      | Some n => if decide (key n = k) then Some p else lookup_loc hp k rest
      | None => lookup_loc hp k rest
      end
  end.

Definition position_of (s : t) (k : KeyType) : iterator :=
  match lookup_loc (heap s) k (nodes_sequence s) with
  | Some p => Pos p
  | None => PastEnd
  end.

Fixpoint assoc (k : KeyType) (l : list MapPair) : option ValueType :=
  match l with
  | [] => None
  | (k', v) :: rest => if decide (k' = k) then Some v else assoc k rest
  end.

Definition node_ok (s : t) (p : loc) : Prop :=
  ∃ n, heap s !! p = Some n ∧ sequence_pos n = Pos p ∧
       bucket_index n = hasher (key n) mod capacity s.

(** Structure of the object between the statements of a member function. *)
Record WF (s : t) : Prop := mkWF {
  wf_capacity : ∃ e : N, capacity s = INIT_CAPACITY * 2 ^ e;
  wf_length : length (buckets s) = N.to_nat (capacity s);
  wf_chains : ∀ i b, buckets s !! i = Some b →
                     b = chain (heap s) (nodes_sequence s) (N.of_nat i);
  wf_nodup : NoDup (nodes_sequence s);
  wf_nodes : ∀ p, p ∈ nodes_sequence s → node_ok s p;
  wf_fresh : ∀ p, p ∈ nodes_sequence s → (p < next_loc s)%nat;
  wf_keys : NoDup (entries s).*1
}.

(** What holds when a public member function returns. *)
Record Inv (s : t) : Prop := mkInv {
  inv_wf : WF s;
  inv_sz : sz s = N.of_nat (length (nodes_sequence s));
  inv_load_hi : sz s * 2 ^ 52 < MAX_LOAD_FACTOR_num * capacity s;
  inv_load_lo : capacity s = INIT_CAPACITY ∨
                MAX_LOAD_FACTOR_num * capacity s < sz s * 2 ^ 54
}.

(** Total correctness: [m] returns normally from [s] and [Q] holds of the
    result and the final state. *)
Definition wp {A} (m : M A) (Q : A → t → Prop) (s : t) : Prop :=
  match m s with
  | Ret (a, s') => Q a s'
  | _ => False
  end.

(** The resize policy as a function of the size and the capacity. *)
Definition policy (n cap : N) : N :=
  if load_factor_ge_max n cap then cap * 2
  else if (INIT_CAPACITY <? cap) && load_factor_le_quarter n cap then cap / 2
  else cap.

(** The node store after the loop of [rehash] over [seq]: every visited node
    has its cached index recomputed against [cap]. *)
Definition rehash_node (cap : N) (n : Node) : Node :=
  set_bucket_index (hasher (key n) mod cap) n.

Definition rehash_heap (cap : N) (seq : list loc) (hp : gmap loc Node) : gmap loc Node :=
  foldl (λ hp p, alter (rehash_node cap) p hp) hp seq.

(** Loop invariant of [rehash]: [done] are the nodes already visited, [rest]
    those still to visit.  A chain holds its nodes not yet visited, in
    sequence order, followed by the visited nodes that moved to it, in
    sequence order. *)
Definition rehash_inv (done rest : list loc) (s : t) : Prop :=
  capacity s ≠ 0 ∧
  length (buckets s) = N.to_nat (capacity s) ∧
  (∀ i, i < capacity s →
        buckets s !! N.to_nat i =
        Some (chain (heap s) rest i ++ chain (heap s) done i)) ∧
  (∀ q, q ∈ rest → is_Some (heap s !! q)) ∧
  (∀ q, q ∈ done → ∃ n, heap s !! q = Some n ∧
                        bucket_index n = hasher (key n) mod capacity s).

(** ** The specification's view of the operations

    The state the specification speaks of is the list of entries in iteration
    order together with the capacity; the functions below follow the wording
    of its sections 3 and 4.1. *)

(** Replace the value stored with key [k]. *)
Definition assign (k : KeyType) (v : ValueType) (l : list MapPair) : list MapPair :=
  (λ kv, if decide (kv.1 = k) then (k, v) else kv) <$> l.

Definition spec_insert (mp : MapPair) (st : list MapPair * N) : list MapPair * N :=
  match assoc mp.1 st.1 with
  | Some _ => st
  | None => (mp :: st.1, policy (N.of_nat (length st.1) + 1) st.2)
  end.

Definition spec_erase (k : KeyType) (st : list MapPair * N) : list MapPair * N :=
  match assoc k st.1 with
  | Some _ => (filter (λ kv, kv.1 ≠ k) st.1, policy (N.pred (N.of_nat (length st.1))) st.2)
  | None => st
  end.

Definition spec_step (o : op) (st : list MapPair * N) : list MapPair * N :=
  match o with
  | Insert mp => spec_insert mp st
  | Erase k => spec_erase k st
  | Index k => spec_insert (k, ValueType_default) st
  | Assign k v =>
      let st' := spec_insert (k, ValueType_default) st in
      (assign k v st'.1, st'.2)
  | Clear => ([], INIT_CAPACITY)
  end.

Definition spec_run (os : list op) (st : list MapPair * N) : list MapPair * N :=
  foldl (λ st o, spec_step o st) st os.

(** The abstraction of an object state. *)
Definition abs (s : t) : list MapPair * N := (entries s, capacity s).


(** The claim that a rehash puts the node it visits at the head of its new
    chain: after the step for [p], the chain at the index cached in [p]
    starts with [p]. *)
Definition inserted_at_head (p : loc) (s : t) : Prop :=
  ∃ n b, heap s !! p = Some n ∧
         buckets s !! N.to_nat (bucket_index n) = Some (p :: b).

(** ** The rest of the public surface *)

(** [iterator operator++(int)]: the iterator object is advanced and a copy of
    its value before the step is returned; the result is the pair of the
    returned copy and the advanced iterator. *)
Definition iterator_post_incr (it : iterator) : M (iterator * iterator) :=
  let prev := it in
  it' <- iterator_incr it ;;
  ret (prev, it').

(** [operator==] and [operator!=] of two iterators. *)
Definition iterator_eq (a b : iterator) : bool := bool_decide (a = b).
Definition iterator_ne (a b : iterator) : bool := negb (iterator_eq a b).

(** [hash_function()]. *)
Definition hash_function : M (KeyType → N) := ret hasher.

(** [HashMap(const std::initializer_list<MapPair>&, const Hash&)] delegates to
    the range constructor. *)
Definition new_from_initializer_list (l : list MapPair) : outcome (unit * t) :=
  new_from_range l.


(** An operation after which an iterator to the entry of [k] still refers to
    a cell of the order sequence: every call but [erase(k)] and [clear()]. *)
Definition survives (k : KeyType) (o : op) : bool :=
  match o with
  | Erase k' => bool_decide (k' ≠ k)
  | Clear => false
  | Insert _ | Index _ | Assign _ _ => true
  end.

End HashMap.

Arguments op : clear implicits.
Arguments t : clear implicits.
Arguments Node : clear implicits.
Arguments M : clear implicits.

(** ** A concrete instance

    Keys are integers hashed by the identity, as [std::hash<int>] does in the
    common standard libraries; values are strings, value-initialised to the
    empty string. *)

#[global] Instance N_Hash : Hash N := λ k, k.
#[global] Instance string_DefaultConstructible : DefaultConstructible string := "".

Module Example.

(** The state after the calls [os] on a freshly constructed map. *)
Definition after (os : list (op N string)) : t N string :=
  match run_ops os new with
  | Ret (_, s) => s
  | _ => new
  end.

Definition abc : list (op N string) :=
  [Insert (1, "a"); Insert (2, "b"); Insert (3, "c")].

(** Eleven inserts; the keys 0 and 32 share a bucket at capacity 16 and at
    capacity 32. *)
Definition eleven : list (op N string) :=
  Insert <$> [(0, "zero"); (32, "thirty-two"); (1, "one"); (2, "two");
              (3, "three"); (4, "four"); (5, "five"); (6, "six");
              (7, "seven"); (8, "eight"); (9, "nine")].

Definition twelve_pairs : list (N * string) :=
  [(0, "zero"); (32, "thirty-two"); (1, "one"); (2, "two");
   (3, "three"); (4, "four"); (5, "five"); (6, "six");
   (7, "seven"); (8, "eight"); (9, "nine"); (10, "ten")].

Definition twelve : list (op N string) := Insert <$> twelve_pairs.

(** The object on which the twelfth insert calls [rehash]: eleven nodes,
    [sz] already incremented, [capacity] already doubled. *)
Definition before_rehash : t N string :=
  with_capacity (λ _, 32) (with_sz (λ n, n + 1) (after eleven)).

End Example.

(** * Proofs *)

Section Proofs.

Context {KeyType : Type} `{EqDecision KeyType} `{Hash KeyType}.
Context {ValueType : Type} `{DefaultConstructible ValueType}.

#[local] Abbreviation t := (t KeyType ValueType).
#[local] Abbreviation M := (M KeyType ValueType).
#[local] Abbreviation Node := (Node KeyType ValueType).
#[local] Abbreviation MapPair := (@MapPair KeyType ValueType).
#[local] Abbreviation op := (op KeyType ValueType).
Notation "x <- m ;; k" := (bind m (λ x, k))
  (at level 100, m at next level, k at level 200, right associativity).
Notation "m ;;; k" := (bind m (λ _, k))
  (at level 100, k at level 200, right associativity).

Implicit Types (s : t) (p : loc) (k : KeyType) (v : ValueType) (n : Node).
Implicit Types (hp : gmap loc Node) (l seq : list loc) (i : N).

(** ** Rules of the weakest precondition *)

Lemma wp_ret {A} (a : A) (Q : A → t → Prop) s : Q a s → wp (ret a) Q s.
Proof. done. Qed.

Lemma wp_bind {A B} (m : M A) (f : A → M B) (Q : B → t → Prop) s :
  wp m (λ a s', wp (f a) Q s') s → wp (x <- m ;; f x) Q s.
Proof. unfold wp, bind. destruct (m s) as [[a s']| |]; done. Qed.

Lemma wp_gets {A} (f : t → A) (Q : A → t → Prop) s : Q (f s) s → wp (gets f) Q s.
Proof. done. Qed.

Lemma wp_modify (f : t → t) (Q : unit → t → Prop) s : Q tt (f s) → wp (modify f) Q s.
Proof. done. Qed.

Lemma wp_mono {A} (m : M A) (Q Q' : A → t → Prop) s :
  wp m Q s → (∀ a s', Q a s' → Q' a s') → wp m Q' s.
Proof. unfold wp. destruct (m s) as [[a s']| |]; auto. Qed.

Lemma wp_elim {A} (m : M A) (Q : A → t → Prop) s :
  wp m Q s → ∃ a s', m s = Ret (a, s') ∧ Q a s'.
Proof. unfold wp. destruct (m s) as [[a s']| |]; naive_solver. Qed.

Lemma wp_intro {A} (m : M A) (Q : A → t → Prop) s a s' :
  m s = Ret (a, s') → Q a s' → wp m Q s.
Proof. unfold wp. by intros ->. Qed.

(** ** The binary64 thresholds and the decimal ones

    Below [2^51] buckets the two tests of [check_load_factor] decide as the
    thresholds 0.70 and 0.175 of exact arithmetic do. *)

Lemma load_factor_ge_max_decimal (n c : N) :
  0 < c < 2 ^ 51 → load_factor_ge_max n c = (7 * c <=? 10 * n).
Proof.
  intros [Hpos Hlt]. unfold load_factor_ge_max, MAX_LOAD_FACTOR_num.
  change (2 ^ 52) with 4503599627370496. change (2 ^ 51) with 2251799813685248 in Hlt.
  destruct (N.eqb_spec c 0) as [|_]; [lia|].
  destruct (N.leb_spec (3152519739159347 * c) (n * 4503599627370496));
    destruct (N.leb_spec (7 * c) (10 * n)); lia.
Qed.

Lemma load_factor_le_quarter_decimal (n c : N) :
  0 < c < 2 ^ 51 → 40 * n ≠ 7 * c →
  load_factor_le_quarter n c = (40 * n <=? 7 * c).
Proof.
  intros [Hpos Hlt] Hne. unfold load_factor_le_quarter, MAX_LOAD_FACTOR_num.
  change (2 ^ 54) with 18014398509481984. change (2 ^ 51) with 2251799813685248 in Hlt.
  destruct (N.eqb_spec c 0) as [|_]; [lia|].
  destruct (N.leb_spec (n * 18014398509481984) (3152519739159347 * c));
    destruct (N.leb_spec (40 * n) (7 * c)); lia.
Qed.

Lemma pow2_mod5 (e : N) : 2 ^ e mod 5 ≠ 0.
Proof.
  induction e as [|e IH] using N.peano_ind; [done|].
  rewrite N.pow_succ_r', N.Div0.mul_mod.
  pose proof (N.mod_upper_bound (2 ^ e) 5) as Hub.
  remember (2 ^ e mod 5) as r eqn:Hr. clear Hr.
  assert (r = 1 ∨ r = 2 ∨ r = 3 ∨ r = 4) as [-> | [-> | [-> | ->]]] by lia; done.
Qed.

(** [sz / capacity] is never exactly 0.175 when the capacity is a power of
    two. *)
Lemma quarter_never_exact (n e : N) : 40 * n ≠ 7 * (INIT_CAPACITY * 2 ^ e).
Proof.
  unfold INIT_CAPACITY. intros Heq.
  assert ((112 * 2 ^ e) mod 5 = 0) as Hmod.
  { replace (112 * 2 ^ e) with (8 * n * 5) by lia. apply N.Div0.mod_mul. }
  rewrite N.Div0.mul_mod in Hmod.
  pose proof (pow2_mod5 e) as Hne.
  pose proof (N.mod_upper_bound (2 ^ e) 5) as Hub.
  remember (2 ^ e mod 5) as r eqn:Hr. clear Hr.
  assert (r = 1 ∨ r = 2 ∨ r = 3 ∨ r = 4) as [-> | [-> | [-> | ->]]] by lia; done.
Qed.

(** ** The chains and the first-match search *)

Lemma WF_capacity_pos s : WF s → INIT_CAPACITY ≤ capacity s.
Proof.
  intros [[e He] _ _ _ _ _ _]. rewrite He.
  assert (0 < 2 ^ e) by (apply N.neq_0_lt_0, N.pow_nonzero; lia).
  unfold INIT_CAPACITY. lia.
Qed.

Lemma get_hash_eq s k :
  capacity s ≠ 0 → get_hash k s = Ret (hasher k mod capacity s, s).
Proof.
  intros Hc. unfold get_hash, bind, gets.
  destruct (N.eqb_spec (capacity s) 0); done.
Qed.

Lemma bucket_at_eq s i :
  WF s → i < capacity s →
  bucket_at i s = Ret (chain (heap s) (nodes_sequence s) i, s).
Proof.
  intros Hwf Hi. unfold bucket_at.
  destruct (buckets s !! N.to_nat i) as [b|] eqn:Hb.
  - apply (wf_chains _ Hwf) in Hb. rewrite N2Nat.id in Hb. by subst.
  - apply lookup_ge_None in Hb. rewrite (wf_length _ Hwf) in Hb. lia.
Qed.

Lemma chain_cons hp p l i :
  chain hp (p :: l) i =
  if decide (index_of hp p = Some i) then p :: chain hp l i else chain hp l i.
Proof. unfold chain. by rewrite filter_cons. Qed.

Lemma chain_app hp l1 l2 i : chain hp (l1 ++ l2) i = chain hp l1 i ++ chain hp l2 i.
Proof. unfold chain. by rewrite filter_app. Qed.

Lemma chain_ext hp hp' l i :
  (∀ p, p ∈ l → index_of hp p = index_of hp' p) → chain hp l i = chain hp' l i.
Proof.
  induction l as [|p l IH]; intros Hext; [done|].
  rewrite !chain_cons, (Hext p), IH; [done| |]; set_solver.
Qed.

Lemma elem_of_chain hp l i p : p ∈ chain hp l i ↔ index_of hp p = Some i ∧ p ∈ l.
Proof. unfold chain. by rewrite list_elem_of_filter. Qed.

Lemma find_loop_chain s k l :
  capacity s ≠ 0 →
  (∀ p, p ∈ l → node_ok s p) →
  find_loop k (chain (heap s) l (hasher k mod capacity s)) s =
  Ret (match lookup_loc (heap s) k l with Some p => Pos p | None => PastEnd end, s).
Proof.
  intros Hc. induction l as [|p l IH]; intros Hok; [done|].
  destruct (Hok p) as (n & Hn & Hpos & Hidx); [set_solver|].
  rewrite chain_cons. simpl lookup_loc. rewrite Hn.
  unfold index_of. rewrite Hn. simpl.
  case_decide as Hi.
  - simpl. unfold bind, deref. rewrite Hn.
    case_decide; [by rewrite Hpos|]. apply IH. set_solver.
  - case_decide as Hk; [|apply IH; set_solver].
    destruct Hi. by rewrite Hidx, Hk.
Qed.

Lemma find_eq s k : WF s → find k s = Ret (position_of s k, s).
Proof.
  intros Hwf. pose proof (WF_capacity_pos _ Hwf) as Hc. unfold INIT_CAPACITY in Hc.
  unfold find, bind. rewrite get_hash_eq by lia.
  rewrite bucket_at_eq by (try apply N.mod_lt; done || lia).
  apply find_loop_chain; [lia|]. apply Hwf.
Qed.

Lemma lookup_loc_Some hp k l p :
  lookup_loc hp k l = Some p → p ∈ l ∧ ∃ n, hp !! p = Some n ∧ key n = k.
Proof.
  induction l as [|q l IH]; [done|]. simpl.
  destruct (hp !! q) as [n|] eqn:Hq; [case_decide|]; intros Hl; simplify_eq;
    try (destruct (IH Hl); split; [set_solver|done]).
  split; [set_solver|eauto].
Qed.

Lemma lookup_loc_None hp k l p n :
  lookup_loc hp k l = None → p ∈ l → hp !! p = Some n → key n ≠ k.
Proof.
  induction l as [|q l IH]; [set_solver|]. simpl.
  intros Hl [->|Hin]%elem_of_cons Hp.
  - rewrite Hp in Hl. by case_decide.
  - destruct (hp !! q); [case_decide|]; by (done || apply IH).
Qed.

(** ** Primitive accesses *)

Lemma deref_eq s p n : heap s !! p = Some n → deref p s = Ret (n, s).
Proof. unfold deref. by intros ->. Qed.

Lemma update_node_eq s p n (f : Node → Node) :
  heap s !! p = Some n →
  update_node p f s = Ret (tt, with_heap (<[p := f n]>) s).
Proof. intros Hn. unfold update_node, bind. by rewrite (deref_eq _ _ _ Hn). Qed.

Lemma pop_front_eq s i x b :
  buckets s !! N.to_nat i = Some (x :: b) →
  pop_front i s = Ret (tt, with_buckets (<[N.to_nat i := b]>) s).
Proof. intros Hb. unfold pop_front, bind, bucket_at. by rewrite Hb. Qed.

Lemma push_back_eq s i b p :
  buckets s !! N.to_nat i = Some b →
  push_back i p s = Ret (tt, with_buckets (<[N.to_nat i := b ++ [p]]>) s).
Proof. intros Hb. unfold push_back, bind, bucket_at. by rewrite Hb. Qed.

Lemma emplace_front_eq s i b p :
  buckets s !! N.to_nat i = Some b →
  emplace_front i p s = Ret (tt, with_buckets (<[N.to_nat i := p :: b]>) s).
Proof. intros Hb. unfold emplace_front, bind, bucket_at. by rewrite Hb. Qed.

Lemma index_of_insert_eq hp p n : index_of (<[p := n]> hp) p = Some (bucket_index n).
Proof. unfold index_of. by rewrite lookup_insert_eq. Qed.

Lemma index_of_insert_ne hp p q n : p ≠ q → index_of (<[p := n]> hp) q = index_of hp q.
Proof. intros. unfold index_of. by rewrite lookup_insert_ne. Qed.

Lemma chain_insert_fresh hp p n l i : p ∉ l → chain (<[p := n]> hp) l i = chain hp l i.
Proof.
  intros Hp. apply chain_ext. intros q Hq. apply index_of_insert_ne. set_solver.
Qed.

Lemma chain_nil hp l i : (∀ p, p ∈ l → index_of hp p ≠ Some i) → chain hp l i = [].
Proof.
  induction l as [|p l IH]; intros Hl; [done|].
  rewrite chain_cons, decide_False, IH; [done| |]; set_solver.
Qed.

Lemma chain_empty hp i : chain hp [] i = [].
Proof. done. Qed.

Lemma to_nat_inj_ne (i j : N) : i ≠ j → N.to_nat i ≠ N.to_nat j.
Proof. lia. Qed.

(** ** Rehashing *)

Lemma rehash_heap_cons cap p l hp :
  rehash_heap cap (p :: l) hp = rehash_heap cap l (alter (rehash_node cap) p hp).
Proof. done. Qed.

Lemma rehash_heap_lookup_notin cap l hp q :
  q ∉ l → rehash_heap cap l hp !! q = hp !! q.
Proof.
  revert hp. induction l as [|p l IH]; intros hp Hq; [done|].
  rewrite rehash_heap_cons, IH, lookup_alter_ne; [done| |]; set_solver.
Qed.

Lemma rehash_node_idemp cap n : rehash_node cap (rehash_node cap n) = rehash_node cap n.
Proof. done. Qed.

Lemma rehash_heap_lookup_in cap l hp q :
  q ∈ l → rehash_heap cap l hp !! q = rehash_node cap <$> hp !! q.
Proof.
  revert hp. induction l as [|p l IH]; intros hp Hq; [set_solver|].
  rewrite rehash_heap_cons. destruct (decide (q ∈ l)) as [Hin|Hin].
  - rewrite IH by done. destruct (decide (p = q)) as [->|].
    + rewrite lookup_alter_eq. by destruct (hp !! q).
    + by rewrite lookup_alter_ne.
  - assert (q = p) as -> by set_solver.
    by rewrite rehash_heap_lookup_notin, lookup_alter_eq.
Qed.

(** One iteration: the front of the old chain of the visited node is that
    node, and the node is appended to its new chain. *)
Lemma rehash_body_inv done p rest s :
  NoDup (done ++ p :: rest) →
  rehash_inv done (p :: rest) s →
  wp (rehash_body p)
     (λ _ s', rehash_inv (done ++ [p]) rest s' ∧
              nodes_sequence s' = nodes_sequence s ∧ capacity s' = capacity s ∧
              sz s' = sz s ∧ next_loc s' = next_loc s ∧
              heap s' = alter (rehash_node (capacity s)) p (heap s)) s.
Proof.
  intros Hnd (Hc & Hlen & Hch & Hrest & Hdone).
  apply NoDup_app in Hnd as (Hnd1 & Hnd2 & [Hp Hnd3]%NoDup_cons).
  assert (p ∉ done) as Hpd by (intros ?; eapply Hnd2; [done|set_solver]).
  destruct (Hrest p) as [n Hn]; [set_solver|].
  set (h := hasher (key n) mod capacity s).
  assert (h < capacity s) as Hh by (by apply N.mod_lt).
  (* the state once the node has left its old chain *)
  assert (∃ s1, (if bucket_index n <? capacity s then pop_front (bucket_index n)
                 else ret tt) s = Ret (tt, s1) ∧
                heap s1 = heap s ∧ nodes_sequence s1 = nodes_sequence s ∧
                capacity s1 = capacity s ∧ sz s1 = sz s ∧ next_loc s1 = next_loc s ∧
                length (buckets s1) = N.to_nat (capacity s) ∧
                ∀ i, i < capacity s →
                     buckets s1 !! N.to_nat i =
                     Some (chain (heap s) rest i ++ chain (heap s) done i))
    as (s1 & Hs1 & Hhp1 & Hseq1 & Hcap1 & Hsz1 & Hnx1 & Hlen1 & Hch1).
  { destruct (N.ltb_spec (bucket_index n) (capacity s)) as [Hlt|Hge].
    - pose proof (Hch _ Hlt) as Hb. rewrite chain_cons, decide_True in Hb
        by (unfold index_of; by rewrite Hn).
      eexists. split; [by apply (pop_front_eq _ _ _ _ Hb)|].
      simpl. rewrite length_insert. repeat (split; [done|]).
      intros i Hi. destruct (decide (i = bucket_index n)) as [->|Hne].
      + rewrite list_lookup_insert_eq; [done|lia].
      + rewrite list_lookup_insert_ne by lia.
        rewrite Hch, chain_cons, decide_False; [done| |done].
        unfold index_of. rewrite Hn. simpl. congruence.
    - eexists. split; [done|]. repeat (split; [done|]).
      intros i Hi. rewrite Hch, chain_cons, decide_False; [done| |done].
      unfold index_of. rewrite Hn. simpl. intros [=]. lia. }
  unfold rehash_body.
  apply wp_bind. eapply wp_intro; [by apply deref_eq|].
  apply wp_bind, wp_gets.
  apply wp_bind. eapply wp_intro; [exact Hs1|].
  apply wp_bind. eapply wp_intro; [apply get_hash_eq; congruence|].
  rewrite Hcap1. fold h.
  apply wp_bind. eapply wp_intro; [apply update_node_eq; by rewrite Hhp1|].
  eapply wp_intro.
  { apply push_back_eq. simpl. by apply Hch1. }
  simpl. rewrite Hhp1, Hcap1, Hseq1, Hsz1, Hnx1.
  assert (alter (rehash_node (capacity s)) p (heap s) =
          <[p := set_bucket_index h n]> (heap s)) as Halt.
  { apply map_eq. intros q. destruct (decide (p = q)) as [->|].
    - by rewrite lookup_alter_eq, lookup_insert_eq, Hn.
    - by rewrite lookup_alter_ne, lookup_insert_ne. }
  split; [|by rewrite Halt].
  unfold rehash_inv. simpl. rewrite Hcap1, Hhp1.
  split; [done|]. split; [by rewrite length_insert|].
  split; [|split].
  - intros i Hi. rewrite chain_app, !chain_insert_fresh by done.
    rewrite !chain_cons, index_of_insert_eq. simpl.
    destruct (decide (i = h)) as [->|Hne].
    + rewrite list_lookup_insert_eq by lia. rewrite decide_True by done.
      by rewrite <-app_assoc.
    + rewrite list_lookup_insert_ne by lia. rewrite decide_False by congruence.
      rewrite Hch1 by done. by rewrite chain_empty, app_nil_r.
  - intros q Hq. rewrite lookup_insert_ne by set_solver. apply Hrest. set_solver.
  - intros q [Hq| ->%list_elem_of_singleton]%elem_of_app.
    + rewrite lookup_insert_ne by set_solver. by apply Hdone.
    + rewrite lookup_insert_eq. by eexists.
Qed.

Lemma rehash_loop_inv mid : ∀ done rest s,
  NoDup (done ++ mid ++ rest) →
  rehash_inv done (mid ++ rest) s →
  wp (for_each mid rehash_body)
     (λ _ s', rehash_inv (done ++ mid) rest s' ∧
              nodes_sequence s' = nodes_sequence s ∧ capacity s' = capacity s ∧
              sz s' = sz s ∧ next_loc s' = next_loc s ∧
              heap s' = rehash_heap (capacity s) mid (heap s)) s.
Proof.
  induction mid as [|p mid IH]; intros done rest s Hnd Hinv.
  - apply wp_ret. by rewrite app_nil_r.
  - simpl for_each. apply wp_bind.
    eapply wp_mono; [by apply rehash_body_inv|].
    intros [] s1 (Hinv1 & Hseq1 & Hcap1 & Hsz1 & Hnx1 & Hhp1). cbv beta.
    eapply wp_mono; [apply (IH (done ++ [p]) rest); [by rewrite <-app_assoc|done]|].
    intros [] s2 (Hinv2 & Hseq2 & Hcap2 & Hsz2 & Hnx2 & Hhp2). cbv beta.
    rewrite <-app_assoc in Hinv2.
    rewrite rehash_heap_cons, Hseq2, Hcap2, Hsz2, Hnx2, Hhp2, Hhp1, Hcap1. done.
Qed.

Lemma rehash_spec s :
  capacity s ≠ 0 →
  NoDup (nodes_sequence s) →
  (∀ j b, buckets s !! j = Some b →
          b = chain (heap s) (nodes_sequence s) (N.of_nat j)) →
  (∀ p, p ∈ nodes_sequence s →
        ∃ n, heap s !! p = Some n ∧ (N.to_nat (bucket_index n) < length (buckets s))%nat) →
  wp rehash
     (λ _ s', length (buckets s') = N.to_nat (capacity s) ∧
              (∀ j b, buckets s' !! j = Some b →
                      b = chain (heap s') (nodes_sequence s) (N.of_nat j)) ∧
              heap s' = rehash_heap (capacity s) (nodes_sequence s) (heap s) ∧
              nodes_sequence s' = nodes_sequence s ∧ capacity s' = capacity s ∧
              sz s' = sz s ∧ next_loc s' = next_loc s) s.
Proof.
  intros Hc Hnd Hch Hidx. unfold rehash.
  apply wp_bind, wp_gets, wp_bind, wp_modify, wp_bind, wp_gets. simpl.
  eapply wp_mono.
  { apply (rehash_loop_inv _ [] []); rewrite ?app_nil_r; [done|].
    unfold rehash_inv. simpl.
    split; [done|]. split; [by rewrite length_resize|].
    split; [|split; [|set_solver]].
    - intros i Hi. rewrite chain_empty, app_nil_r.
      destruct (decide (N.to_nat i < length (buckets s))%nat) as [Hlt|Hge].
      + rewrite lookup_resize by lia.
        destruct (lookup_lt_is_Some_2 _ _ Hlt) as [b Hb]. rewrite Hb.
        apply Hch in Hb. rewrite N2Nat.id in Hb. by subst.
      + rewrite lookup_resize_new by lia. rewrite chain_nil; [done|].
        intros p Hp. destruct (Hidx p Hp) as (n & Hn & Hlt).
        unfold index_of. rewrite Hn. simpl. intros [=]. lia.
    - intros q Hq. destruct (Hidx q Hq) as (n & Hn & _). by eexists. }
  intros [] s' ((_ & Hlen & Hch' & _ & _) & Hseq & Hcap & Hsz & Hnx & Hhp). simpl in *.
  rewrite Hcap in *. repeat (split; [done|]). split; [|done].
  intros j b Hb. assert (j < N.to_nat (capacity s))%nat as Hj.
  { rewrite <-Hlen. by eapply lookup_lt_Some. }
  specialize (Hch' (N.of_nat j)). rewrite Nat2N.id, Hb in Hch'.
  injection Hch'; [done|lia].
Qed.

Lemma entries_ext s s' :
  nodes_sequence s' = nodes_sequence s →
  (∀ p, p ∈ nodes_sequence s → map_pair <$> heap s' !! p = map_pair <$> heap s !! p) →
  entries s' = entries s.
Proof.
  unfold entries. intros ->. induction (nodes_sequence s) as [|p l IH]; intros He; [done|].
  csimpl. rewrite He by set_solver. rewrite IH; [done|]. set_solver.
Qed.

Lemma lookup_rehash_heap cap l hp q :
  map_pair <$> rehash_heap cap l hp !! q = map_pair <$> hp !! q.
Proof.
  destruct (decide (q ∈ l)).
  - rewrite rehash_heap_lookup_in by done. by destruct (hp !! q).
  - by rewrite rehash_heap_lookup_notin.
Qed.

(** [rehash] after the capacity was set to [c] restores the structure. *)
Lemma rehash_WF s c :
  WF s → (∃ e : N, c = INIT_CAPACITY * 2 ^ e) →
  wp rehash
     (λ _ s', WF s' ∧ capacity s' = c ∧
              nodes_sequence s' = nodes_sequence s ∧ sz s' = sz s ∧
              next_loc s' = next_loc s ∧ entries s' = entries s ∧
              heap s' = rehash_heap c (nodes_sequence s) (heap s))
     (with_capacity (λ _, c) s).
Proof.
  intros Hwf [e He].
  assert (c ≠ 0) as Hc.
  { assert (0 < 2 ^ e) by (apply N.neq_0_lt_0, N.pow_nonzero; lia).
    unfold INIT_CAPACITY in He. lia. }
  pose proof (WF_capacity_pos _ Hwf) as Hpos. unfold INIT_CAPACITY in Hpos.
  eapply wp_mono.
  { apply rehash_spec; simpl; [done|apply Hwf|apply Hwf|].
    intros p Hp. destruct (wf_nodes _ Hwf p Hp) as (n & Hn & _ & Hi).
    exists n. split; [done|]. rewrite (wf_length _ Hwf), Hi.
    assert (hasher (key n) mod capacity s < capacity s) by (apply N.mod_lt; lia). lia. }
  intros [] s' (Hlen & Hch & Hhp & Hseq & Hcap & Hsz & Hnx). simpl in *.
  assert (entries s' = entries s) as Hent.
  { apply entries_ext; [done|]. intros p _. rewrite Hhp. apply lookup_rehash_heap. }
  repeat (split; [|done]). split.
  - rewrite Hcap. eauto.
  - by rewrite Hcap.
  - by rewrite Hseq.
  - rewrite Hseq. apply Hwf.
  - rewrite Hseq. intros p Hp. destruct (wf_nodes _ Hwf p Hp) as (n & Hn & Hpos' & _).
    exists (rehash_node c n). rewrite Hhp, rehash_heap_lookup_in, Hn, Hcap by done.
    done.
  - rewrite Hseq, Hnx. apply Hwf.
  - rewrite Hent. apply Hwf.
Qed.

Lemma policy_capacity (n c : N) :
  (∃ e : N, c = INIT_CAPACITY * 2 ^ e) → ∃ e : N, policy n c = INIT_CAPACITY * 2 ^ e.
Proof.
  intros [e ->]. unfold policy.
  destruct (load_factor_ge_max _ _).
  { exists (N.succ e). rewrite N.pow_succ_r'. lia. }
  destruct (N.ltb_spec INIT_CAPACITY (INIT_CAPACITY * 2 ^ e)) as [Hlt|]; simpl;
    [|by eauto].
  destruct (load_factor_le_quarter _ _); [|by eauto].
  destruct (N.eq_dec e 0) as [->|Hne]; [simpl in Hlt; lia|].
  exists (N.pred e). rewrite <-(N.succ_pred e) at 1 by done.
  rewrite N.pow_succ_r'.
  replace (INIT_CAPACITY * (2 * 2 ^ N.pred e)) with (2 ^ N.pred e * INIT_CAPACITY * 2) by lia.
  rewrite N.div_mul by done. lia.
Qed.

Lemma check_load_factor_spec s :
  WF s →
  wp check_load_factor
     (λ _ s', WF s' ∧ capacity s' = policy (sz s) (capacity s) ∧
              nodes_sequence s' = nodes_sequence s ∧ sz s' = sz s ∧
              next_loc s' = next_loc s ∧ entries s' = entries s) s.
Proof.
  intros Hwf. pose proof (policy_capacity (sz s) _ (wf_capacity _ Hwf)) as Hpc.
  unfold check_load_factor, policy in *.
  apply wp_bind, wp_gets, wp_bind, wp_gets.
  destruct (load_factor_ge_max _ _).
  { apply wp_bind, wp_modify.
    eapply wp_mono; [by apply (rehash_WF s (capacity s * 2))|]. naive_solver. }
  destruct (_ && _).
  { apply wp_bind, wp_modify.
    eapply wp_mono; [by apply (rehash_WF s (capacity s / 2))|]. naive_solver. }
  by apply wp_ret.
Qed.

(** ** The load factor between two public calls *)

Lemma policy_insert_load (n c : N) :
  (∃ e : N, c = INIT_CAPACITY * 2 ^ e) →
  n * 2 ^ 52 < MAX_LOAD_FACTOR_num * c →
  c = INIT_CAPACITY ∨ MAX_LOAD_FACTOR_num * c < n * 2 ^ 54 →
  (n + 1) * 2 ^ 52 < MAX_LOAD_FACTOR_num * policy (n + 1) c ∧
  (policy (n + 1) c = INIT_CAPACITY ∨
   MAX_LOAD_FACTOR_num * policy (n + 1) c < (n + 1) * 2 ^ 54).
Proof.
  intros [e ->] Hhi Hlo.
  assert (0 < 2 ^ e) as He by (apply N.neq_0_lt_0, N.pow_nonzero; lia).
  unfold policy, load_factor_ge_max, load_factor_le_quarter.
  unfold INIT_CAPACITY, MAX_LOAD_FACTOR_num in *.
  change (2 ^ 52) with 4503599627370496 in *.
  change (2 ^ 54) with 18014398509481984 in *.
  destruct (N.eqb_spec (16 * 2 ^ e) 0) as [|_]; [lia|].
  set (c := 2 ^ e) in *.
  destruct (N.leb_spec (3152519739159347 * (16 * c)) ((n + 1) * 4503599627370496)).
  { lia. }
  destruct (N.ltb_spec 16 (16 * c)); simpl; [|lia].
  destruct (N.leb_spec ((n + 1) * 18014398509481984) (3152519739159347 * (16 * c)));
    lia.
Qed.

Lemma policy_erase_load (n c : N) :
  (∃ e : N, c = INIT_CAPACITY * 2 ^ e) →
  (n + 1) * 2 ^ 52 < MAX_LOAD_FACTOR_num * c →
  c = INIT_CAPACITY ∨ MAX_LOAD_FACTOR_num * c < (n + 1) * 2 ^ 54 →
  n * 2 ^ 52 < MAX_LOAD_FACTOR_num * policy n c ∧
  (policy n c = INIT_CAPACITY ∨ MAX_LOAD_FACTOR_num * policy n c < n * 2 ^ 54).
Proof.
  intros [e ->] Hhi Hlo.
  assert (0 < 2 ^ e) as He by (apply N.neq_0_lt_0, N.pow_nonzero; lia).
  unfold policy, load_factor_ge_max, load_factor_le_quarter.
  unfold INIT_CAPACITY, MAX_LOAD_FACTOR_num in *.
  change (2 ^ 52) with 4503599627370496 in *.
  change (2 ^ 54) with 18014398509481984 in *.
  destruct (N.eqb_spec (16 * 2 ^ e) 0) as [|_]; [lia|].
  destruct (N.leb_spec (3152519739159347 * (16 * 2 ^ e)) (n * 4503599627370496)).
  { lia. }
  destruct (N.ltb_spec 16 (16 * 2 ^ e)) as [Hlt|]; simpl; [|lia].
  destruct (N.leb_spec (n * 18014398509481984) (3152519739159347 * (16 * 2 ^ e)));
    [|lia].
  destruct (N.eq_dec e 0) as [->|Hne]; [simpl in Hlt; lia|].
  assert (2 ^ e = 2 * 2 ^ N.pred e) as Hpow
    by (by rewrite <-N.pow_succ_r', N.succ_pred).
  assert (0 < 2 ^ N.pred e) by (apply N.neq_0_lt_0, N.pow_nonzero; lia).
  rewrite Hpow in *. set (c := 2 ^ N.pred e) in *.
  replace (16 * (2 * c)) with (16 * c * 2) in * by lia.
  rewrite N.div_mul by done. lia.
Qed.

(** ** Entries and the first-match search *)

Lemma assoc_None k (l : list (KeyType * ValueType)) : assoc k l = None ↔ k ∉ l.*1.
Proof.
  induction l as [|[k' v] l IH]; simpl; [set_solver|].
  case_decide; [set_solver|]. rewrite IH. set_solver.
Qed.

Lemma assoc_Some_elem k v (l : list (KeyType * ValueType)) :
  assoc k l = Some v → (k, v) ∈ l.
Proof.
  induction l as [|[k' v'] l IH]; simpl; [done|].
  case_decide; [intros [=]; subst; set_solver|]. set_solver.
Qed.

Lemma assoc_entries s k :
  (∀ p, p ∈ nodes_sequence s → is_Some (heap s !! p)) →
  assoc k (entries s) =
  lookup_loc (heap s) k (nodes_sequence s) ≫= λ p, value <$> heap s !! p.
Proof.
  unfold entries. induction (nodes_sequence s) as [|p l IH]; intros Hs; [done|].
  destruct (Hs p) as [[[k' v'] pos idx] Hn]; [set_solver|].
  csimpl. rewrite Hn. csimpl. unfold key. simpl. case_decide.
  - simpl. by rewrite Hn.
  - apply IH. set_solver.
Qed.

Lemma WF_is_Some s p : WF s → p ∈ nodes_sequence s → is_Some (heap s !! p).
Proof. intros Hwf Hp. destruct (wf_nodes _ Hwf p Hp) as (n & Hn & _). by eexists. Qed.

Lemma position_of_PastEnd s k :
  WF s → position_of s k = PastEnd ↔ assoc k (entries s) = None.
Proof.
  intros Hwf. rewrite assoc_entries by (intros; by apply WF_is_Some).
  unfold position_of.
  destruct (lookup_loc _ _ _) as [p|] eqn:Hl; [|done].
  apply lookup_loc_Some in Hl as (Hp & n & Hn & _). simpl. rewrite Hn. done.
Qed.

Lemma position_of_Pos s k p :
  WF s → position_of s k = Pos p →
  p ∈ nodes_sequence s ∧
  ∃ n, heap s !! p = Some n ∧ key n = k ∧ assoc k (entries s) = Some (value n).
Proof.
  intros Hwf. rewrite assoc_entries by (intros; by apply WF_is_Some).
  unfold position_of.
  destruct (lookup_loc _ _ _) as [q|] eqn:Hl; [|done]. intros [= ->].
  apply lookup_loc_Some in Hl as (Hp & n & Hn & Hk).
  split; [done|]. exists n. simpl. by rewrite Hn.
Qed.

Lemma WF_with_sz (f : N → N) s : WF s → WF (with_sz f s).
Proof. by intros []. Qed.

Lemma entries_with_sz (f : N → N) s : entries (with_sz f s) = entries s.
Proof. done. Qed.

Lemma WF_bucket s i :
  WF s → i < capacity s →
  buckets s !! N.to_nat i = Some (chain (heap s) (nodes_sequence s) i).
Proof.
  intros Hwf Hi. pose proof (bucket_at_eq s i Hwf Hi) as Hb. unfold bucket_at in Hb.
  destruct (buckets s !! N.to_nat i); by simplify_eq.
Qed.

Ltac state_simpl :=
  unfold with_heap, with_buckets, with_nodes_sequence, with_sz, with_capacity;
  simpl.

Lemma pairs_ext hp hp' l :
  (∀ p, p ∈ l → map_pair <$> hp' !! p = map_pair <$> hp !! p) →
  omap (λ p, map_pair <$> hp' !! p) l = omap (λ p, map_pair <$> hp !! p) l.
Proof.
  induction l as [|p l IH]; intros He; [done|].
  csimpl. rewrite He by set_solver. rewrite IH; [done|]. set_solver.
Qed.

(** ** Insertion *)

Lemma _insert_spec s mp :
  Inv s → position_of s (fst mp) = PastEnd →
  wp (_insert mp)
     (λ it s', it = Pos (next_loc s) ∧ Inv s' ∧
               entries s' = mp :: entries s ∧
               capacity s' = policy (sz s + 1) (capacity s) ∧
               nodes_sequence s' = next_loc s :: nodes_sequence s) s.
Proof.
  intros [Hwf Hsz Hhi Hlo] Habs.
  unfold _insert.
  apply wp_bind, wp_modify, wp_bind.
  eapply wp_mono; [apply check_load_factor_spec, WF_with_sz, Hwf|].
  intros [] s1 (Hwf1 & Hcap1 & Hseq1 & Hsz1 & Hnx1 & Hent1).
  simpl in Hcap1, Hseq1, Hsz1, Hnx1. rewrite entries_with_sz in Hent1.
  pose proof (WF_capacity_pos _ Hwf1) as Hpos. unfold INIT_CAPACITY in Hpos.
  set (h := hasher mp.1 mod capacity s1).
  assert (h < capacity s1) as Hh by (apply N.mod_lt; lia).
  apply wp_bind. eapply wp_intro; [reflexivity|].
  apply wp_bind. eapply wp_intro; [apply deref_eq; simpl; apply lookup_insert_eq|].
  apply wp_bind. eapply wp_intro; [apply get_hash_eq; simpl; lia|].
  unfold key. simpl. fold h.
  apply wp_bind. eapply wp_intro; [apply update_node_eq; simpl; apply lookup_insert_eq|].
  apply wp_bind. eapply wp_intro; [apply emplace_front_eq; simpl; by apply WF_bucket|].
  apply wp_bind, wp_modify.
  apply wp_bind. eapply wp_intro; [reflexivity|].
  apply wp_bind. eapply wp_intro; [apply update_node_eq; simpl; apply lookup_insert_eq|].
  eapply wp_intro; [reflexivity|].
  state_simpl. rewrite !insert_insert_eq. unfold set_sequence_pos, set_bucket_index. simpl.
  rewrite Hnx1, Hseq1.
  assert (next_loc s ∉ nodes_sequence s) as Hfresh.
  { intros Hin. rewrite <-Hseq1 in Hin. apply (wf_fresh _ Hwf1) in Hin. lia. }
  assert (entries s1 = omap (λ p, map_pair <$> heap s1 !! p) (nodes_sequence s)) as Hent1'
    by (unfold entries; by rewrite Hseq1).
  match goal with |- _ ∧ Inv ?st ∧ _ => set (s' := st) end.
  assert (entries s' = mp :: entries s) as Hent.
  { rewrite <-Hent1, Hent1'. unfold entries, s'. cbn [nodes_sequence heap].
    csimpl. rewrite lookup_insert_eq. csimpl. f_equal.
    apply pairs_ext. intros p Hp.
    rewrite lookup_insert_ne; [done|]. set_solver. }
  destruct (policy_insert_load (sz s) (capacity s)) as [Hhi' Hlo'];
    [apply Hwf|done|done|].
  split; [done|]. split; [|done].
  split; [split| | |].
  - apply Hwf1.
  - simpl. rewrite length_insert. apply Hwf1.
  - simpl. intros j b Hb. rewrite chain_cons, index_of_insert_eq. simpl.
    rewrite chain_insert_fresh by done.
    destruct (decide (j = N.to_nat h)) as [->|Hne].
    + rewrite list_lookup_insert_eq in Hb
        by (rewrite (wf_length _ Hwf1); lia).
      rewrite N2Nat.id, decide_True by done. by simplify_eq.
    + rewrite list_lookup_insert_ne in Hb by done.
      rewrite decide_False by (intros [=]; lia).
      rewrite <-Hseq1. by apply Hwf1.
  - simpl. apply NoDup_cons. split; [done|apply Hwf].
  - simpl. intros p Hp. unfold node_ok. simpl. apply elem_of_cons in Hp as [->|Hp].
    + eexists. split; [apply lookup_insert_eq|done].
    + destruct (wf_nodes _ Hwf1 p) as (n & Hn & Hrest); [by rewrite Hseq1|].
      exists n. split; [|done]. rewrite lookup_insert_ne; [done|]. set_solver.
  - simpl. intros p [->|Hp]%elem_of_cons; [lia|].
    rewrite <-Hseq1 in Hp. apply (wf_fresh _ Hwf1) in Hp. lia.
  - rewrite Hent. csimpl. apply NoDup_cons. split; [|apply Hwf].
    apply assoc_None. by apply position_of_PastEnd.
  - simpl. rewrite Hsz1, Hsz. lia.
  - simpl. by rewrite Hsz1, Hcap1.
  - simpl. by rewrite Hsz1, Hcap1.
Qed.

Lemma insert_present s mp :
  WF s → position_of s mp.1 ≠ PastEnd → insert mp s = Ret (tt, s).
Proof.
  intros Hwf Hk. unfold insert, bind. rewrite find_eq by done. simpl.
  by rewrite decide_False.
Qed.

Lemma insert_absent s mp :
  Inv s → position_of s mp.1 = PastEnd →
  wp (insert mp)
     (λ _ s', Inv s' ∧ entries s' = mp :: entries s ∧
              capacity s' = policy (sz s + 1) (capacity s) ∧
              nodes_sequence s' = next_loc s :: nodes_sequence s) s.
Proof.
  intros Hinv Hk. unfold insert.
  apply wp_bind. eapply wp_intro; [apply find_eq, Hinv|].
  apply wp_bind, wp_ret. rewrite decide_True by done.
  apply wp_bind. eapply wp_mono; [by apply _insert_spec|].
  intros it s' (_ & H'). by apply wp_ret.
Qed.

Lemma length_entries s : WF s → length (entries s) = length (nodes_sequence s).
Proof.
  intros Hwf. unfold entries.
  assert (∀ p, p ∈ nodes_sequence s → is_Some (heap s !! p)) as Hs
    by (intros; by apply WF_is_Some).
  induction (nodes_sequence s) as [|p l IH]; [done|].
  destruct (Hs p) as [n Hn]; [set_solver|]. csimpl. rewrite Hn. csimpl.
  rewrite IH; [done|]. set_solver.
Qed.

Lemma Inv_sz_entries s : Inv s → sz s = N.of_nat (length (entries s)).
Proof. intros [Hwf Hsz _ _]. by rewrite length_entries. Qed.

Lemma insert_refines s mp :
  Inv s → wp (insert mp) (λ _ s', Inv s' ∧ abs s' = spec_insert mp (abs s)) s.
Proof.
  intros Hinv. unfold spec_insert, abs. simpl.
  destruct (assoc mp.1 (entries s)) as [v|] eqn:Ha.
  - eapply wp_intro; [apply insert_present; [apply Hinv|]|done].
    rewrite position_of_PastEnd by apply Hinv. congruence.
  - apply position_of_PastEnd in Ha; [|apply Hinv].
    eapply wp_mono; [by apply insert_absent|].
    intros [] s' (Hinv' & -> & -> & _). by rewrite (Inv_sz_entries s).
Qed.

(** ** The indexing operator *)

Lemma operator_index_present s k p :
  WF s → position_of s k = Pos p → operator_index k s = Ret (p, s).
Proof.
  intros Hwf Hk. unfold operator_index, bind. rewrite find_eq, Hk by done. simpl.
  apply position_of_Pos in Hk as [Hp _]; [|done]. by rewrite decide_True.
Qed.

Lemma operator_index_absent s k :
  Inv s → position_of s k = PastEnd →
  wp (operator_index k)
     (λ r s', r = next_loc s ∧ Inv s' ∧
              entries s' = (k, ValueType_default) :: entries s ∧
              capacity s' = policy (sz s + 1) (capacity s) ∧
              nodes_sequence s' = next_loc s :: nodes_sequence s) s.
Proof.
  intros Hinv Hk. unfold operator_index.
  apply wp_bind. eapply wp_intro; [apply find_eq, Hinv|].
  apply wp_bind, wp_ret. rewrite Hk, decide_True by done.
  apply wp_bind. eapply wp_mono; [by apply _insert_spec|].
  intros it s' (-> & Hinv' & Hent & Hcap & Hseq).
  apply wp_bind, wp_gets. rewrite Hseq, decide_True by set_solver.
  by apply wp_ret.
Qed.

Lemma assign_keys k v (l : list MapPair) : (assign k v l).*1 = l.*1.
Proof.
  unfold assign. rewrite <-list_fmap_compose. apply list_fmap_ext.
  intros _ [k' v'] _. simpl. by case_decide.
Qed.

Lemma assoc_assign_eq k v (l : list MapPair) :
  assoc k (assign k v l) = (λ _, v) <$> assoc k l.
Proof.
  induction l as [|[k' v'] l IH]; [done|]. unfold assign in *. csimpl.
  case_decide; simpl; [by rewrite decide_True|]. by rewrite decide_False.
Qed.

Lemma assoc_assign_ne k k' v (l : list MapPair) :
  k ≠ k' → assoc k' (assign k v l) = assoc k' l.
Proof.
  intros Hne. induction l as [|[k'' v'] l IH]; [done|]. unfold assign in *. csimpl.
  case_decide; simpl; [|by rewrite IH].
  subst. by rewrite !decide_False, IH.
Qed.

(** Keys are pairwise different, so a key determines its node. *)
Lemma keys_inj hp l p q n1 n2 :
  NoDup (omap (λ p, map_pair <$> hp !! p) l).*1 →
  p ∈ l → q ∈ l → hp !! p = Some n1 → hp !! q = Some n2 →
  key n1 = key n2 → p = q.
Proof.
  assert (∀ l r n, r ∈ l → hp !! r = Some n →
                   key n ∈ (omap (λ p, map_pair <$> hp !! p) l).*1) as Hin.
  { intros l' r n Hr Hn. apply list_elem_of_fmap. exists (map_pair n). split; [done|].
    apply list_elem_of_omap. exists r. by rewrite Hn. }
  induction l as [|a l IH]; [set_solver|].
  intros Hnd [->|Hp]%elem_of_cons [->|Hq]%elem_of_cons Hn1 Hn2 Hk; [done| | |].
  - csimpl in Hnd. rewrite Hn1 in Hnd. csimpl in Hnd.
    apply NoDup_cons in Hnd as [Hnot _]. destruct Hnot.
    fold (key n1). rewrite Hk. by eapply Hin.
  - csimpl in Hnd. rewrite Hn2 in Hnd. csimpl in Hnd.
    apply NoDup_cons in Hnd as [Hnot _]. destruct Hnot.
    fold (key n2). rewrite <-Hk. by eapply Hin.
  - apply IH; try done. csimpl in Hnd.
    destruct (hp !! a); [|done]. csimpl in Hnd. by apply NoDup_cons in Hnd as [_ ?].
Qed.

Lemma WF_keys_inj s p q n1 n2 :
  WF s → p ∈ nodes_sequence s → q ∈ nodes_sequence s →
  heap s !! p = Some n1 → heap s !! q = Some n2 → key n1 = key n2 → p = q.
Proof. intros Hwf. apply keys_inj, Hwf. Qed.

Lemma pairs_set_value hp l r n v :
  hp !! r = Some n →
  (∀ p n', p ∈ l → hp !! p = Some n' → key n' = key n → p = r) →
  omap (λ p, map_pair <$> <[r := set_value v n]> hp !! p) l =
  assign (key n) v (omap (λ p, map_pair <$> hp !! p) l).
Proof.
  intros Hr. induction l as [|p l IH]; intros Hinj; [done|].
  csimpl. destruct (decide (p = r)) as [->|Hne].
  - rewrite lookup_insert_eq, Hr. csimpl. unfold assign. csimpl.
    fold (key n). rewrite decide_True by done. f_equal. apply IH. set_solver.
  - rewrite lookup_insert_ne by done.
    destruct (hp !! p) as [n'|] eqn:Hp; csimpl; [|apply IH; set_solver].
    unfold assign. csimpl. fold (key n'). rewrite decide_False.
    + f_equal. apply IH. set_solver.
    + intros Hk. destruct Hne. eapply Hinj; [set_solver|done|done].
Qed.

Lemma write_ref_spec s r v n :
  Inv s → r ∈ nodes_sequence s → heap s !! r = Some n →
  wp (write_ref r v)
     (λ _ s', Inv s' ∧ entries s' = assign (key n) v (entries s) ∧
              capacity s' = capacity s ∧ nodes_sequence s' = nodes_sequence s ∧
              next_loc s' = next_loc s) s.
Proof.
  intros [Hwf Hsz Hhi Hlo] Hr Hn. unfold write_ref.
  eapply wp_intro; [by apply update_node_eq|].
  assert (entries (with_heap <[r:=set_value v n]> s) = assign (key n) v (entries s)) as Hent.
  { unfold entries. state_simpl. apply pairs_set_value; [done|].
    intros p n' Hp Hn' Hk. by eapply (WF_keys_inj s). }
  split; [|done].
  split; [split| | |]; try done; try apply Hwf.
  - intros j b Hb. apply (wf_chains _ Hwf) in Hb as ->. state_simpl. apply chain_ext.
    intros p _. unfold index_of. destruct (decide (r = p)) as [->|].
    + by rewrite lookup_insert_eq, Hn.
    + by rewrite lookup_insert_ne.
  - intros p Hp. unfold node_ok. state_simpl. destruct (decide (r = p)) as [->|].
    + destruct (wf_nodes _ Hwf p Hp) as (n' & Hn' & Hpos & Hidx).
      rewrite lookup_insert_eq. eexists. split; [done|]. by simplify_eq.
    + rewrite lookup_insert_ne by done. by apply Hwf.
  - rewrite Hent, assign_keys. apply Hwf.
Qed.

Lemma read_ref_eq s r n : heap s !! r = Some n → read_ref r s = Ret (value n, s).
Proof. intros Hn. unfold read_ref, bind. by rewrite (deref_eq _ _ _ Hn). Qed.

(** ** Erasure *)

Lemma list_erase_split p l1 l2 :
  p ∉ l1 → list_erase p (l1 ++ p :: l2) = Some (l1 ++ l2).
Proof.
  induction l1 as [|q l1 IH]; intros Hp; simpl.
  - by rewrite decide_True.
  - rewrite decide_False by set_solver. rewrite IH by set_solver. done.
Qed.

Lemma erase_loop_skip s k (h : N) (pre rest : list loc) : ∀ j : nat,
  (∀ q, q ∈ pre → ∃ n, heap s !! q = Some n ∧ key n ≠ k) →
  erase_loop k h j (pre ++ rest) s = erase_loop k h (j + length pre) rest s.
Proof.
  induction pre as [|q pre IH]; intros j Hpre; simpl.
  - by rewrite Nat.add_0_r.
  - destruct (Hpre q) as (n & Hn & Hk); [set_solver|].
    unfold bind at 1. rewrite (deref_eq _ _ _ Hn), decide_False by done.
    rewrite IH by set_solver. f_equal. lia.
Qed.

Lemma erase_absent s k :
  WF s → position_of s k = PastEnd → erase k s = Ret (tt, s).
Proof.
  intros Hwf Hk. pose proof (WF_capacity_pos _ Hwf) as Hc. unfold INIT_CAPACITY in Hc.
  unfold erase, bind. rewrite get_hash_eq by lia.
  rewrite bucket_at_eq by (done || apply N.mod_lt; lia).
  rewrite <-(app_nil_r (chain _ _ _)), erase_loop_skip; [done|].
  intros q [_ Hq]%elem_of_chain.
  destruct (WF_is_Some s q Hwf Hq) as [n Hn]. exists n. split; [done|].
  unfold position_of in Hk.
  destruct (lookup_loc _ _ _) eqn:Hl; [done|]. by eapply lookup_loc_None.
Qed.

Lemma pairs_filter_ne hp l k :
  (∀ q, q ∈ l → ∃ n, hp !! q = Some n ∧ key n ≠ k) →
  filter (λ kv : MapPair, kv.1 ≠ k) (omap (λ p, map_pair <$> hp !! p) l) =
  omap (λ p, map_pair <$> hp !! p) l.
Proof.
  induction l as [|q l IH]; intros Hl; [done|].
  destruct (Hl q) as (n & Hn & Hk); [set_solver|].
  csimpl. rewrite Hn. csimpl. rewrite filter_cons_True by done.
  f_equal. apply IH. set_solver.
Qed.

Lemma NoDup_remove_middle {A} (l1 l2 : list A) x : NoDup (l1 ++ x :: l2) → NoDup (l1 ++ l2).
Proof.
  rewrite !NoDup_app, NoDup_cons. intros (? & Hd & _ & ?).
  split; [done|]. split; [|done]. intros y Hy Hy2. apply (Hd y Hy). set_solver.
Qed.

Lemma wp_rewrite {A} (m m' : M A) (Q : A → t → Prop) s :
  m s = m' s → wp m' Q s → wp m Q s.
Proof. unfold wp. by intros ->. Qed.

Lemma erase_present s k p :
  Inv s → position_of s k = Pos p →
  wp (erase k)
     (λ _ s', Inv s' ∧
              entries s' = filter (λ kv, kv.1 ≠ k) (entries s) ∧
              capacity s' = policy (N.pred (sz s)) (capacity s) ∧
              next_loc s' = next_loc s ∧
              ∃ l1 l2, nodes_sequence s = l1 ++ p :: l2 ∧
                       nodes_sequence s' = l1 ++ l2) s.
Proof.
  intros [Hwf Hsz Hhi Hlo] Hk.
  destruct (position_of_Pos _ _ _ Hwf Hk) as (Hp & n & Hn & Hkey & Hassoc).
  destruct (wf_nodes _ Hwf p Hp) as (n' & Hn' & Hpos & Hidx).
  assert (n' = n) as -> by congruence.
  pose proof (WF_capacity_pos _ Hwf) as Hc. unfold INIT_CAPACITY in Hc.
  set (h := hasher k mod capacity s).
  assert (h < capacity s) as Hh by (apply N.mod_lt; lia).
  assert (index_of (heap s) p = Some h) as Hip
    by (unfold index_of; rewrite Hn; simpl; by rewrite Hidx, Hkey).
  destruct (list_elem_of_split _ _ Hp) as (l1 & l2 & Hseq).
  pose proof (wf_nodup _ Hwf) as Hnd. rewrite Hseq in Hnd.
  pose proof (NoDup_remove_middle _ _ _ Hnd) as Hnd'.
  apply NoDup_app in Hnd as (_ & Hnd12 & [Hp2 _]%NoDup_cons).
  assert (p ∉ l1) as Hp1 by (intros ?; eapply Hnd12; [done|set_solver]).
  assert (∀ q, q ∈ l1 ++ l2 → ∃ nq, heap s !! q = Some nq ∧ key nq ≠ k) as Hother.
  { intros q Hq. assert (q ∈ nodes_sequence s) as Hqs by (rewrite Hseq; set_solver).
    destruct (WF_is_Some s q Hwf Hqs) as [nq Hnq]. exists nq. split; [done|].
    intros Hkq. assert (q = p) as -> by (apply (WF_keys_inj s q p nq n); try done; congruence).
    set_solver. }
  assert (chain (heap s) (nodes_sequence s) h =
          chain (heap s) l1 h ++ p :: chain (heap s) l2 h) as Hchain
    by (by rewrite Hseq, chain_app, chain_cons, decide_True).
  unfold erase.
  apply wp_bind. eapply wp_intro; [apply get_hash_eq; lia|]. fold h.
  apply wp_bind. eapply wp_intro; [by apply bucket_at_eq|].
  eapply wp_rewrite.
  { rewrite Hchain. apply erase_loop_skip.
    intros q [_ Hq]%elem_of_chain. apply Hother. set_solver. }
  simpl erase_loop.
  apply wp_bind. eapply wp_intro; [by apply deref_eq|].
  rewrite decide_True by done.
  apply wp_bind. eapply wp_intro.
  { unfold sequence_erase, bind, gets. by rewrite Hpos, Hseq, list_erase_split. }
  apply wp_bind. eapply wp_intro.
  { unfold bucket_at. state_simpl. by rewrite WF_bucket, Hchain. }
  apply wp_bind, wp_modify, wp_bind, wp_modify.
  rewrite delete_middle. state_simpl.
  match goal with |- wp _ _ ?st => set (s1 := st) end.
  assert (entries s1 = filter (λ kv, kv.1 ≠ k) (entries s)) as Hent.
  { unfold entries, s1. cbn [nodes_sequence heap]. rewrite Hseq.
    rewrite !omap_app. csimpl. rewrite Hn. csimpl.
    rewrite filter_app, filter_cons_False by (simpl; intros Hne; by destruct Hne).
    rewrite !pairs_filter_ne; [done| |]; intros q Hq; apply Hother; set_solver. }
  assert (WF s1) as Hwf1.
  { split.
    - apply Hwf.
    - simpl. rewrite length_insert. apply Hwf.
    - simpl. intros j b Hb. rewrite chain_app.
      destruct (decide (j = N.to_nat h)) as [->|Hne].
      + rewrite list_lookup_insert_eq in Hb by (rewrite (wf_length _ Hwf); lia).
        rewrite N2Nat.id. by simplify_eq.
      + rewrite list_lookup_insert_ne in Hb by done.
        apply (wf_chains _ Hwf) in Hb as ->.
        rewrite Hseq, chain_app, chain_cons, decide_False; [done|].
        rewrite Hip. intros [=]. lia.
    - done.
    - simpl. intros q Hq. destruct (wf_nodes _ Hwf q) as (nq & Hq'); [|by exists nq].
      rewrite Hseq. set_solver.
    - simpl. intros q Hq. apply (wf_fresh _ Hwf). rewrite Hseq. set_solver.
    - rewrite Hent. pose proof (wf_keys _ Hwf) as Hkeys.
      revert Hkeys. generalize (entries s). intros l Hl.
      induction l as [|[k' v'] l IH]; [done|].
      apply NoDup_cons in Hl as [Hnot Hl].
      rewrite filter_cons. case_decide; [|by apply IH].
      csimpl. apply NoDup_cons. split; [|by apply IH].
      intros Hin. apply Hnot. apply list_elem_of_fmap in Hin as (kv & -> & Hin).
      apply list_elem_of_filter in Hin as [_ Hin].
      apply list_elem_of_fmap. by exists kv. }
  eapply wp_mono; [by apply check_load_factor_spec|].
  intros [] s' (Hwf' & Hcap' & Hseq' & Hsz' & Hnx' & Hent').
  assert (N.of_nat (length (nodes_sequence s)) =
          N.of_nat (length (l1 ++ l2)) + 1) as Hlen.
  { rewrite Hseq, !length_app. simpl. lia. }
  destruct (policy_erase_load (N.pred (sz s)) (capacity s)) as [Hhi' Hlo'];
    [apply Hwf|rewrite N.add_1_r, N.succ_pred by lia; done..|].
  simpl in Hcap', Hseq', Hsz', Hnx'.
  split; [|rewrite Hent'; repeat (split; [done|]); by exists l1, l2].
  split; [done|rewrite Hsz', Hseq'; lia|by rewrite Hsz', Hcap'..].
Qed.

Lemma assoc_filter_ne k (l : list MapPair) :
  assoc k (filter (λ kv, kv.1 ≠ k) l) = None.
Proof.
  apply assoc_None. intros (kv & -> & Hin)%list_elem_of_fmap.
  by apply list_elem_of_filter in Hin as [Hne _].
Qed.

Lemma assoc_filter_other k k' (l : list MapPair) :
  k ≠ k' → assoc k' (filter (λ kv, kv.1 ≠ k) l) = assoc k' l.
Proof.
  intros Hne. induction l as [|[k'' v] l IH]; [done|].
  rewrite filter_cons. case_decide as Hd; cbn [assoc fst] in *.
  - case_decide; [done|apply IH].
  - rewrite decide_False; [apply IH|]. congruence.
Qed.

Lemma erase_refines s k :
  Inv s → wp (erase k) (λ _ s', Inv s' ∧ abs s' = spec_erase k (abs s)) s.
Proof.
  intros Hinv. unfold spec_erase, abs. simpl.
  destruct (position_of s k) as [p|] eqn:Hk.
  - destruct (position_of_Pos _ _ _ (inv_wf _ Hinv) Hk) as (_ & n & _ & _ & ->).
    eapply wp_mono; [by eapply erase_present|].
    intros [] s' (Hinv' & -> & -> & _). by rewrite (Inv_sz_entries s).
  - pose proof Hk as Hk'. apply position_of_PastEnd in Hk' as ->; [|apply Hinv].
    eapply wp_intro; [apply erase_absent; [apply Hinv|done]|done].
Qed.

(** ** Clearing *)

Lemma buckets_all_nil (bs : list (list loc)) (c : nat) :
  length bs = c → (∀ j, (j < c)%nat → bs !! j = Some []) → bs = replicate c [].
Proof.
  intros Hlen Hbs. apply list_eq. intros j.
  destruct (decide (j < c)%nat) as [Hj|Hj].
  - by rewrite Hbs, lookup_replicate_2.
  - transitivity (@None (list loc)).
    + apply lookup_ge_None. lia.
    + symmetry. apply lookup_replicate_None. lia.
Qed.

Lemma clear_loop_spec rest : ∀ s,
  length (buckets s) = N.to_nat (capacity s) →
  (∀ p, p ∈ rest → ∃ n, heap s !! p = Some n ∧ bucket_index n < capacity s) →
  (∀ i, i < capacity s → buckets s !! N.to_nat i = Some (chain (heap s) rest i)) →
  wp (for_each rest clear_body)
     (λ _ s', s' = with_buckets (λ _, replicate (N.to_nat (capacity s)) []) s) s.
Proof.
  induction rest as [|p rest IH]; intros s Hlen Hrest Hch.
  - apply wp_ret. destruct s as [bs seq c n hp nx]. unfold with_buckets. simpl in *.
    f_equal. apply buckets_all_nil; [done|].
    intros j Hj. specialize (Hch (N.of_nat j)). rewrite Nat2N.id in Hch.
    apply Hch. lia.
  - destruct (Hrest p) as (n & Hn & Hidx); [set_solver|].
    simpl for_each. unfold clear_body at 1. apply wp_bind, wp_bind.
    eapply wp_intro; [by apply deref_eq|].
    pose proof (Hch _ Hidx) as Hb.
    rewrite chain_cons, decide_True in Hb by (unfold index_of; by rewrite Hn).
    eapply wp_intro; [by eapply pop_front_eq|].
    eapply wp_mono.
    { apply IH; state_simpl.
      - by rewrite length_insert.
      - intros q Hq. apply Hrest. set_solver.
      - intros i Hi. destruct (decide (i = bucket_index n)) as [->|Hne].
        + rewrite list_lookup_insert_eq; [done|lia].
        + rewrite list_lookup_insert_ne by lia.
          rewrite Hch, chain_cons, decide_False; [done| |done].
          unfold index_of. rewrite Hn. simpl. congruence. }
    by intros [] s' ->.
Qed.

Lemma Inv_empty hp (nx : loc) :
  Inv (mkHashMap (replicate (N.to_nat INIT_CAPACITY) []) [] INIT_CAPACITY 0 hp nx).
Proof.
  split; [split|..]; cbn [buckets nodes_sequence capacity sz heap next_loc].
  - exists 0. done.
  - by rewrite length_replicate.
  - intros j b [-> _]%lookup_replicate. done.
  - constructor.
  - set_solver.
  - set_solver.
  - constructor.
  - done.
  - done.
  - by left.
Qed.

Lemma clear_spec s :
  Inv s →
  wp clear
     (λ _ s', s' = mkHashMap (replicate (N.to_nat INIT_CAPACITY) []) []
                             INIT_CAPACITY 0 (heap s) (next_loc s)) s.
Proof.
  intros [Hwf _ _ _].
  pose proof (WF_capacity_pos _ Hwf) as Hc. unfold INIT_CAPACITY in Hc.
  unfold clear. apply wp_bind, wp_gets, wp_bind.
  eapply wp_mono.
  { apply clear_loop_spec; [apply Hwf| |intros; by apply WF_bucket].
    intros p Hp. destruct (wf_nodes _ Hwf p Hp) as (n & Hn & _ & Hi).
    exists n. split; [done|]. rewrite Hi. apply N.mod_lt. lia. }
  intros [] s1 ->. apply wp_bind, wp_modify, wp_bind. unfold resize.
  apply wp_bind, wp_modify, wp_bind, wp_gets, wp_modify, wp_modify.
  state_simpl. by rewrite resize_replicate.
Qed.

Lemma new_eq :
  (new : t) = mkHashMap (replicate (N.to_nat INIT_CAPACITY) []) [] INIT_CAPACITY 0 ∅ O.
Proof. done. Qed.

Lemma Inv_new : Inv (new : t).
Proof. rewrite new_eq. apply Inv_empty. Qed.

(** ** Every public call refines its specification *)

Lemma spec_insert_absent mp (st : list MapPair * N) :
  assoc mp.1 st.1 = None →
  spec_insert mp st = (mp :: st.1, policy (N.of_nat (length st.1) + 1) st.2).
Proof. intros Ha. unfold spec_insert. by rewrite Ha. Qed.

Lemma spec_insert_present mp (st : list MapPair * N) :
  assoc mp.1 st.1 ≠ None → spec_insert mp st = st.
Proof. intros Ha. unfold spec_insert. by destruct (assoc _ _). Qed.

Lemma operator_index_refines s k :
  Inv s →
  wp (operator_index k)
     (λ r s', Inv s' ∧ abs s' = spec_insert (k, ValueType_default) (abs s) ∧
              r ∈ nodes_sequence s' ∧
              ∃ n, heap s' !! r = Some n ∧ key n = k) s.
Proof.
  intros Hinv. pose proof (inv_wf _ Hinv) as Hwf.
  destruct (position_of s k) as [p|] eqn:Hk.
  - destruct (position_of_Pos _ _ _ Hwf Hk) as (Hp & n & Hn & Hkey & Ha).
    eapply wp_intro; [by apply operator_index_present|].
    rewrite spec_insert_present by (unfold abs; simpl; congruence).
    split; [done|]. split; [done|]. split; [done|]. by exists n.
  - eapply wp_mono; [by apply operator_index_absent|].
    intros r s' (-> & Hinv' & Hent & Hcap & Hseq).
    split; [done|]. split; [|split; [rewrite Hseq; set_solver|]].
    + rewrite spec_insert_absent
        by (unfold abs; simpl; by apply position_of_PastEnd).
      unfold abs. simpl. by rewrite Hent, Hcap, (Inv_sz_entries s).
    + destruct (WF_is_Some s' (next_loc s) (inv_wf _ Hinv')) as [n Hn];
        [rewrite Hseq; set_solver|].
      exists n. split; [done|]. unfold entries in Hent. rewrite Hseq in Hent.
      csimpl in Hent. rewrite Hn in Hent. csimpl in Hent.
      injection Hent as Hmp _. unfold key. by rewrite Hmp.
Qed.

Lemma run_op_refines s (o : op) :
  Inv s → wp (run_op o) (λ _ s', Inv s' ∧ abs s' = spec_step o (abs s)) s.
Proof.
  intros Hinv. destruct o as [mp|k|k|k v|]; simpl.
  - by apply insert_refines.
  - by apply erase_refines.
  - apply wp_bind. eapply wp_mono; [by apply operator_index_refines|].
    intros r s' (Hinv' & Habs & Hr & n & Hn & _).
    apply wp_bind. eapply wp_intro; [by apply read_ref_eq|]. by apply wp_ret.
  - apply wp_bind. eapply wp_mono; [by apply operator_index_refines|].
    intros r s' (Hinv' & Habs & Hr & n & Hn & Hkey).
    eapply wp_mono; [by eapply write_ref_spec|].
    intros [] s'' (Hinv'' & Hent & Hcap & _). split; [done|].
    rewrite <-Habs. unfold abs. simpl. by rewrite Hent, Hcap, Hkey.
  - eapply wp_mono; [by apply clear_spec|].
    intros [] s' ->. split; [apply Inv_empty|done].
Qed.

Lemma reachable_Inv s : reachable s → Inv s.
Proof.
  induction 1 as [|s s' o _ IH Hrun]; [apply Inv_new|].
  pose proof (run_op_refines s o IH) as Hwp. unfold wp in Hwp.
  rewrite Hrun in Hwp. apply Hwp.
Qed.

Lemma run_ops_refines (os : list op) : ∀ s,
  reachable s →
  wp (run_ops os) (λ _ s', reachable s' ∧ abs s' = spec_run os (abs s)) s.
Proof.
  induction os as [|o os IH]; intros s Hs; [by apply wp_ret|].
  simpl. apply wp_bind.
  pose proof (run_op_refines s o (reachable_Inv _ Hs)) as Hwp.
  destruct (wp_elim _ _ _ Hwp) as ([] & s1 & Hrun & _ & Habs).
  eapply wp_intro; [done|].
  eapply wp_mono; [apply IH; by eapply reachable_step|].
  intros [] s2 [Hs2 Habs2]. split; [done|]. by rewrite Habs2, Habs.
Qed.

(** ** Queries *)

Lemma iterator_deref_eq s p n :
  p ∈ nodes_sequence s → heap s !! p = Some n →
  iterator_deref (Pos p) s = Ret (map_pair n, s).
Proof.
  intros Hp Hn. unfold iterator_deref, bind, gets. rewrite decide_True by done.
  by rewrite (deref_eq _ _ _ Hn).
Qed.

Lemma at_eq s k :
  WF s →
  at_ k s = match assoc k (entries s) with
            | Some v => Ret (v, s)
            | None => Throw (out_of_range "no such key")
            end.
Proof.
  intros Hwf. unfold at_. unfold bind at 1. rewrite find_eq by done.
  unfold bind at 1. simpl.
  destruct (position_of s k) as [p|] eqn:Hk.
  - destruct (position_of_Pos _ _ _ Hwf Hk) as (Hp & n & Hn & Hkey & ->).
    rewrite decide_False by done. unfold bind.
    by rewrite (iterator_deref_eq _ _ _ Hp Hn).
  - apply position_of_PastEnd in Hk as ->; done.
Qed.


Lemma find_end_iff s k :
  WF s → find k s = Ret (PastEnd, s) ↔ assoc k (entries s) = None.
Proof.
  intros Hwf. rewrite find_eq, <-position_of_PastEnd by done.
  split; [by intros [=]|by intros ->].
Qed.

Lemma next_pos_middle p l1 l2 :
  p ∉ l1 →
  next_pos p (l1 ++ p :: l2) = Some (match l2 with [] => PastEnd | q :: _ => Pos q end).
Proof.
  induction l1 as [|q l1 IH]; intros Hp; simpl.
  - by rewrite decide_True.
  - rewrite decide_False by set_solver. apply IH. set_solver.
Qed.

Lemma iterate_from_spec s (rest : list loc) : ∀ (done : list loc) (fuel : nat),
  nodes_sequence s = done ++ rest → NoDup (nodes_sequence s) →
  (∀ p, p ∈ rest → is_Some (heap s !! p)) →
  (length rest < fuel)%nat →
  wp (iterate_from fuel (match rest with [] => PastEnd | p :: _ => Pos p end))
     (λ r s', r = Some (omap (λ p, map_pair <$> heap s !! p) rest) ∧ s' = s) s.
Proof.
  induction rest as [|p rest IH]; intros done fuel Hseq Hnd Hrest Hfuel.
  - destruct fuel; [simpl in Hfuel; lia|done].
  - destruct fuel as [|fuel]; [simpl in Hfuel; lia|].
    destruct (Hrest p) as [n Hn]; [set_solver|].
    cbn [iterate_from]. apply wp_bind, wp_ret. rewrite decide_False by done.
    apply wp_bind. eapply wp_intro.
    { apply iterator_deref_eq; [rewrite Hseq; set_solver|done]. }
    apply wp_bind. eapply wp_intro.
    { unfold iterator_incr, bind, gets. rewrite Hseq, next_pos_middle; [done|].
      rewrite Hseq in Hnd. apply NoDup_app in Hnd as (_ & Hd & _).
      intros Hin. apply (Hd p Hin). set_solver. }
    apply wp_bind. eapply wp_mono.
    { apply (IH (done ++ [p]) fuel);
        [by rewrite <-app_assoc|done|set_solver|simpl in Hfuel; lia]. }
    intros r s' [-> ->]. apply wp_ret. csimpl. by rewrite Hn.
Qed.

Lemma iterate_eq s (fuel : nat) :
  WF s → (length (nodes_sequence s) < fuel)%nat →
  iterate fuel s = Ret (Some (entries s), s).
Proof.
  intros Hwf Hfuel.
  assert (wp (iterate fuel) (λ r s', r = Some (entries s) ∧ s' = s) s) as Hwp.
  { unfold iterate. apply wp_bind. eapply wp_intro; [reflexivity|].
    apply (iterate_from_spec s (nodes_sequence s) []); [done|apply Hwf| |done].
    intros p Hp. by apply WF_is_Some. }
  apply wp_elim in Hwp as (r & s' & -> & -> & ->). done.
Qed.

(** ** Sequences of calls *)

Lemma run_ops_app (os1 os2 : list op) s :
  run_ops (os1 ++ os2) s = (run_ops os1 ;;; run_ops os2) s.
Proof.
  revert s. induction os1 as [|o os1 IH]; intros s; [done|].
  simpl. unfold bind. destruct (run_op o s) as [[[] s1]| |]; [|done..].
  apply IH.
Qed.

Lemma spec_run_app (os1 os2 : list op) (st : list MapPair * N) :
  spec_run (os1 ++ os2) st = spec_run os2 (spec_run os1 st).
Proof. unfold spec_run. by rewrite foldl_app. Qed.




Lemma reachable_wp_op s (o : op) :
  reachable s →
  wp (run_op o) (λ _ s', reachable s' ∧ abs s' = spec_step o (abs s)) s.
Proof.
  intros Hs. pose proof (run_op_refines s o (reachable_Inv _ Hs)) as Hwp.
  destruct (wp_elim _ _ _ Hwp) as ([] & s1 & Hrun & _ & Habs).
  eapply wp_intro; [done|]. split; [by eapply reachable_step|done].
Qed.

(** * The claims of the specification *)


(** C6.  [insert (k, v1)] followed by [insert (k, v2)]: the second call
    returns the object exactly as it found it (same value, same position in
    the order sequence, same size, same capacity), and the value at [k] is
    [v1] when the first call was the one that added [k]; when [k] was already
    present, the first call changes nothing either. *)
Theorem insert_twice_noop s k v1 v2 :
  reachable s →
  ∃ s1,
    insert (k, v1) s = Ret (tt, s1) ∧
    insert (k, v2) s1 = Ret (tt, s1) ∧
    (find k s = Ret (PastEnd, s) → at_ k s1 = Ret (v1, s1)) ∧
    (find k s ≠ Ret (PastEnd, s) → s1 = s).
Proof.
  intros Hs. pose proof (reachable_Inv _ Hs) as Hinv.
  pose proof (inv_wf _ Hinv) as Hwf.
  destruct (position_of s k) as [p|] eqn:Hk.
  - exists s. rewrite !insert_present by (simpl; congruence).
    rewrite find_eq, Hk by done. done.
  - destruct (wp_elim _ _ _ (insert_absent s (k, v1) Hinv Hk))
      as ([] & s1 & Hins & Hinv1 & Hent1 & _).
    pose proof (inv_wf _ Hinv1) as Hwf1.
    assert (assoc k (entries s1) = Some v1) as Ha
      by (rewrite Hent1; simpl; by rewrite decide_True).
    exists s1. split; [done|]. split; [|split].
    + apply insert_present; [done|]. simpl.
      rewrite position_of_PastEnd by done. congruence.
    + intros _. by rewrite at_eq, Ha.
    + rewrite find_eq, Hk by done. done.
Qed.

(** C7.  On a reachable object no mutating call throws or misbehaves; [find]
    returns an iterator, the end iterator exactly for an absent key; [at]
    throws [std::out_of_range] exactly when the key is absent and returns a
    value otherwise; [erase] of an absent key returns the object unchanged;
    and after [erase k], [find k] is the end iterator and [at k] throws. *)
Theorem only_at_signals s k :
  reachable s →
  (∀ o : op, ∃ s', run_op o s = Ret (tt, s')) ∧
  (∃ it, find k s = Ret (it, s)) ∧
  (at_ k s = Throw (out_of_range "no such key") ↔ find k s = Ret (PastEnd, s)) ∧
  (find k s ≠ Ret (PastEnd, s) → ∃ v, at_ k s = Ret (v, s)) ∧
  (find k s = Ret (PastEnd, s) → erase k s = Ret (tt, s)) ∧
  (∃ s', erase k s = Ret (tt, s') ∧
         find k s' = Ret (PastEnd, s') ∧
         at_ k s' = Throw (out_of_range "no such key")).
Proof.
  intros Hs. pose proof (reachable_Inv _ Hs) as Hinv.
  pose proof (inv_wf _ Hinv) as Hwf.
  split; [|split; [|split; [|split; [|split]]]].
  - intros o. destruct (wp_elim _ _ _ (run_op_refines s o Hinv)) as ([] & s' & Hrun & _).
    by exists s'.
  - rewrite find_eq by done. by eexists.
  - rewrite find_end_iff, at_eq by done. by destruct (assoc k (entries s)).
  - rewrite find_end_iff, at_eq by done. destruct (assoc k (entries s)); [eauto|done].
  - rewrite find_eq by done. intros [= Hk]. by apply erase_absent.
  - destruct (wp_elim _ _ _ (erase_refines s k Hinv)) as ([] & s' & Her & Hinv' & Habs).
    pose proof (inv_wf _ Hinv') as Hwf'.
    assert (assoc k (entries s') = None) as Ha.
    { change (entries s') with (abs s').1. rewrite Habs. unfold spec_erase, abs. simpl.
      destruct (assoc k (entries s)) eqn:Hk; [|done]. apply assoc_filter_ne. }
    exists s'. split; [done|]. split; [by apply find_end_iff|]. by rewrite at_eq, Ha.
Qed.

(** C9.  [clear] on a reachable object removes every entry: the size is 0,
    [empty] is true, [find] yields the end iterator for every key, and the
    capacity is back at the initial 16 whatever it was before; from there any
    sequence of calls leaves the same entries and the same capacity as it
    does on a freshly constructed map. *)
Theorem clear_resets s :
  reachable s →
  ∃ s',
    clear s = Ret (tt, s') ∧
    nodes_sequence s' = [] ∧
    size s' = Ret (0, s') ∧
    empty s' = Ret (true, s') ∧
    capacity s' = 16 ∧
    (∀ k, find k s' = Ret (PastEnd, s')) ∧
    (∀ os : list op, ∃ s1 s2,
        run_ops os s' = Ret (tt, s1) ∧ run_ops os new = Ret (tt, s2) ∧
        entries s1 = entries s2 ∧ capacity s1 = capacity s2).
Proof.
  intros Hs. pose proof (reachable_Inv _ Hs) as Hinv.
  destruct (wp_elim _ _ _ (clear_spec s Hinv)) as ([] & s' & Hclear & ->).
  eexists. split; [done|]. split; [done|]. split; [done|]. split; [done|].
  split; [done|]. split.
  - intros k. rewrite find_eq by apply Inv_empty. done.
  - intros os.
    match goal with |- context [run_ops os ?st] => set (s' := st) end.
    assert (reachable s') as Hs' by (by apply (reachable_step s s' Clear)).
    destruct (wp_elim _ _ _ (run_ops_refines os s' Hs')) as ([] & s1 & Hrun1 & _ & Habs1).
    destruct (wp_elim _ _ _ (run_ops_refines os new (reachable_new)))
      as ([] & s2 & Hrun2 & _ & Habs2).
    exists s1, s2. split; [done|]. split; [done|].
    assert (abs s1 = abs s2) as Habs by (by rewrite Habs1, Habs2).
    by injection Habs.
Qed.

(** ** Counting the nodes of the chains *)

Lemma buckets_eq_chains s :
  WF s →
  buckets s = (λ j, chain (heap s) (nodes_sequence s) (N.of_nat j)) <$>
              seq 0 (N.to_nat (capacity s)).
Proof.
  intros Hwf. apply list_eq. intros j. rewrite list_lookup_fmap.
  destruct (decide (j < N.to_nat (capacity s))%nat) as [Hj|Hj].
  - rewrite lookup_seq_lt by done. simpl.
    destruct (lookup_lt_is_Some_2 (buckets s) j) as [b Hb];
      [by rewrite (wf_length _ Hwf)|].
    rewrite Hb. f_equal. by apply Hwf.
  - rewrite lookup_seq_ge by lia. apply lookup_ge_None.
    rewrite (wf_length _ Hwf). lia.
Qed.

Lemma sum_list_with_fmap {A B} (f : B → nat) (g : A → B) (l : list A) :
  sum_list_with f (g <$> l) = sum_list_with (f ∘ g) l.
Proof. induction l as [|x l IH]; [done|]. csimpl. by rewrite IH. Qed.

Lemma sum_indicator (o : option N) (c : nat) :
  sum_list_with (λ j, if decide (o = Some (N.of_nat j)) then 1 else 0)%nat (seq 0 c) =
  match o with
  | Some i => if decide (N.to_nat i < c)%nat then 1%nat else 0%nat
  | None => 0%nat
  end.
Proof.
  induction c as [|c IH]; [by destruct o as [i|]; [case_decide; [lia|]|]|].
  rewrite seq_S, sum_list_with_app, IH. simpl.
  destruct o as [i|]; repeat case_decide; simplify_eq;
    try (assert (i ≠ N.of_nat c) by congruence); lia.
Qed.

Lemma sum_chain_lengths hp l (c : nat) :
  (∀ p, p ∈ l → ∃ i, index_of hp p = Some i ∧ (N.to_nat i < c)%nat) →
  sum_list_with (λ j, length (chain hp l (N.of_nat j))) (seq 0 c) = length l.
Proof.
  induction l as [|p l IH]; intros Hl.
  - simpl. induction (seq 0 c) as [|j js IHjs]; [done|]. simpl. by rewrite IHjs.
  - destruct (Hl p) as (i & Hi & Hlt); [set_solver|].
    assert (∀ js : list nat,
              sum_list_with (λ j, length (chain hp (p :: l) (N.of_nat j))) js =
              (sum_list_with (λ j, if decide (index_of hp p = Some (N.of_nat j))
                                   then 1 else 0)%nat js +
               sum_list_with (λ j, length (chain hp l (N.of_nat j))) js)%nat) as Hsplit.
    { induction js as [|j js IHjs]; [done|]. csimpl. rewrite IHjs, chain_cons.
      case_decide; simpl; lia. }
    rewrite Hsplit, sum_indicator, Hi, decide_True, IH by done || set_solver. done.
Qed.

(** C2.  On every reachable object: [size()] is the number of nodes of the
    order sequence, which is the total number of nodes of the bucket chains;
    no two nodes of the sequence hold equal keys; the chains hold nodes of the
    sequence only; and every node of the sequence occurs in the chain at index
    [hash(key) mod capacity], once, and in no other chain. *)
Theorem reachable_structure s :
  reachable s →
  size s = Ret (N.of_nat (length (nodes_sequence s)), s) ∧
  length (nodes_sequence s) = sum_list_with length (buckets s) ∧
  (∀ p q n1 n2, p ∈ nodes_sequence s → q ∈ nodes_sequence s →
                heap s !! p = Some n1 → heap s !! q = Some n2 →
                key n1 = key n2 → p = q) ∧
  (∀ (j : nat) b p, buckets s !! j = Some b → p ∈ b → p ∈ nodes_sequence s) ∧
  (∀ p, p ∈ nodes_sequence s →
        ∃ n b, heap s !! p = Some n ∧
               buckets s !! N.to_nat (hasher (key n) mod capacity s) = Some b ∧
               p ∈ b ∧ NoDup b ∧
               ∀ (j : nat) b', buckets s !! j = Some b' → p ∈ b' →
                               j = N.to_nat (hasher (key n) mod capacity s)).
Proof.
  intros Hs. destruct (reachable_Inv _ Hs) as [Hwf Hsz _ _].
  pose proof (WF_capacity_pos _ Hwf) as Hc. unfold INIT_CAPACITY in Hc.
  split; [|split; [|split; [|split]]].
  - unfold size, gets. by rewrite Hsz.
  - rewrite (buckets_eq_chains s Hwf), sum_list_with_fmap.
    symmetry. apply sum_chain_lengths. intros p Hp.
    destruct (wf_nodes _ Hwf p Hp) as (n & Hn & _ & Hi).
    exists (bucket_index n). unfold index_of. rewrite Hn. split; [done|].
    rewrite Hi. assert (hasher (key n) mod capacity s < capacity s) by (apply N.mod_lt; lia).
    lia.
  - intros p q n1 n2. by apply WF_keys_inj.
  - intros j b p Hb Hp. apply (wf_chains _ Hwf) in Hb as ->.
    by apply elem_of_chain in Hp as [_ ?].
  - intros p Hp. destruct (wf_nodes _ Hwf p Hp) as (n & Hn & _ & Hi).
    set (h := hasher (key n) mod capacity s) in *.
    assert (h < capacity s) as Hh by (apply N.mod_lt; lia).
    assert (index_of (heap s) p = Some h) as Hip by (unfold index_of; by rewrite Hn, <-Hi).
    exists n, (chain (heap s) (nodes_sequence s) h).
    split; [done|]. split; [by apply WF_bucket|]. split; [by apply elem_of_chain|].
    split; [apply NoDup_filter, Hwf|].
    intros j b' Hb' Hp'. apply (wf_chains _ Hwf) in Hb' as ->.
    apply elem_of_chain in Hp' as [Hj _]. rewrite Hip in Hj. injection Hj as Hj.
    fold h. rewrite Hj. by rewrite Nat2N.id.
Qed.

(** ** Growth and shrinkage schedules *)

Lemma policy_16_below (n : N) : n ≤ 11 → policy n 16 = 16.
Proof.
  intros Hn. unfold policy, load_factor_ge_max, load_factor_le_quarter,
    MAX_LOAD_FACTOR_num, INIT_CAPACITY. simpl (16 =? 0). cbv iota.
  change (2 ^ 52) with 4503599627370496.
  destruct (N.leb_spec (3152519739159347 * 16) (n * 4503599627370496)); [lia|done].
Qed.

Lemma policy_16_twelve : policy 12 16 = 32.
Proof. reflexivity. Qed.

Lemma policy_32_between (n : N) : 6 ≤ n ≤ 11 → policy n 32 = 32.
Proof.
  intros Hn. unfold policy, load_factor_ge_max, load_factor_le_quarter,
    MAX_LOAD_FACTOR_num, INIT_CAPACITY. simpl (32 =? 0). cbv iota.
  change (2 ^ 52) with 4503599627370496. change (2 ^ 54) with 18014398509481984.
  destruct (N.leb_spec (3152519739159347 * 32) (n * 4503599627370496)); [lia|].
  simpl (16 <? 32). cbv iota. simpl andb.
  destruct (N.leb_spec (n * 18014398509481984) (3152519739159347 * 32)); [lia|done].
Qed.

Lemma policy_32_five : policy 5 32 = 16.
Proof. reflexivity. Qed.

Lemma assoc_NoDup_elem k v (l : list MapPair) :
  NoDup l.*1 → (k, v) ∈ l → assoc k l = Some v.
Proof.
  induction l as [|[k' v'] l IH]; [set_solver|].
  csimpl. intros [Hnot Hnd]%NoDup_cons [[= -> ->]|Hin]%elem_of_cons.
  - by rewrite decide_True.
  - rewrite decide_False; [by apply IH|]. intros ->. apply Hnot.
    apply list_elem_of_fmap. by exists (k, v).
Qed.

Lemma assoc_elem_of k v (l : list MapPair) : assoc k l = Some v → k ∈ l.*1.
Proof.
  intros Ha. apply assoc_Some_elem in Ha. apply list_elem_of_fmap. by exists (k, v).
Qed.

Lemma run_inserts (l : list MapPair) :
  NoDup l.*1 → (length l ≤ 12)%nat →
  wp (run_ops (Insert <$> l))
     (λ _ s, reachable s ∧ entries s = reverse l ∧
             capacity s = if decide (length l = 12%nat) then 32 else 16) new.
Proof.
  induction l as [|mp l IH] using rev_ind; intros Hnd Hlen.
  - apply wp_ret. split; [apply reachable_new|done].
  - rewrite fmap_app, NoDup_app in Hnd. destruct Hnd as (Hnd & Hdisj & _).
    rewrite length_app in Hlen. simpl in Hlen.
    rewrite fmap_app. simpl. eapply wp_rewrite; [apply run_ops_app|].
    apply wp_bind. eapply wp_mono; [apply IH; [done|lia]|].
    intros [] s (Hs & Hent & Hcap). rewrite decide_False in Hcap by lia.
    simpl. apply wp_bind. eapply wp_mono; [by apply (reachable_wp_op s (Insert mp))|].
    intros [] s' (Hs' & Habs). apply wp_ret. split; [done|]. clear IH.
    assert (abs s' = (mp :: reverse l,
                      if decide (length (l ++ [mp]) = 12%nat) then 32 else 16)) as Habs'.
    { rewrite Habs. simpl. rewrite spec_insert_absent.
      - unfold abs. simpl. rewrite Hent, Hcap, length_reverse, length_app. simpl.
        f_equal. case_decide.
        + replace (N.of_nat (length l) + 1) with 12 by lia. apply policy_16_twelve.
        + apply policy_16_below. lia.
      - unfold abs. simpl. rewrite Hent. apply assoc_None.
        rewrite fmap_reverse, elem_of_reverse. intros Hin. apply (Hdisj _ Hin).
        set_solver. }
    injection Habs' as -> ->. by rewrite reverse_snoc.
Qed.

(** C4.  Twelve inserts of distinct keys into a freshly constructed map: the
    capacity is 16 after each of the first eleven and 32 after the twelfth,
    and every key inserted so far is retrievable with its value. *)
Theorem grows_at_twelfth_insert (l : list MapPair) (i : nat) :
  NoDup l.*1 → length l = 12%nat → (i ≤ 12)%nat →
  ∃ s,
    run_ops (Insert <$> take i l) new = Ret (tt, s) ∧
    size s = Ret (N.of_nat i, s) ∧
    capacity s = (if decide (i = 12%nat) then 32 else 16) ∧
    ∀ k v, (k, v) ∈ take i l → at_ k s = Ret (v, s).
Proof.
  intros Hnd Hlen Hi.
  assert (length (take i l) = i) as Hlen' by (rewrite length_take; lia).
  assert (NoDup (take i l).*1) as Hnd'.
  { rewrite <-(take_drop i l), fmap_app in Hnd. by apply NoDup_app in Hnd as [? _]. }
  destruct (wp_elim _ _ _ (run_inserts (take i l) Hnd' ltac:(lia)))
    as ([] & s & Hrun & Hs & Hent & Hcap).
  destruct (reachable_Inv _ Hs) as [Hwf Hsz _ _].
  exists s. split; [done|]. split; [|split].
  - unfold size, gets. by rewrite Hsz, <-length_entries, Hent, length_reverse, Hlen'.
  - by rewrite Hcap, Hlen'.
  - intros k v Hin. rewrite at_eq, Hent by done.
    rewrite (assoc_NoDup_elem k v); [done| |by apply elem_of_reverse].
    by rewrite fmap_reverse, reverse_Permutation.
Qed.

Lemma assoc_filter_notin k (ks : list KeyType) (l : list MapPair) :
  k ∉ ks → assoc k (filter (λ kv, kv.1 ∉ ks) l) = assoc k l.
Proof.
  intros HP. induction l as [|[k' v] l IH]; [done|].
  rewrite filter_cons. simpl. case_decide as Hd; cbn [assoc].
  - case_decide; [done|apply IH].
  - rewrite decide_False; [apply IH|]. congruence.
Qed.

Lemma length_filter_key k (l : list MapPair) :
  NoDup l.*1 → k ∈ l.*1 →
  S (length (filter (λ kv, kv.1 ≠ k) l)) = length l.
Proof.
  induction l as [|[k' v] l IH]; [set_solver|].
  csimpl. intros [Hnot Hnd]%NoDup_cons Hin.
  rewrite filter_cons. cbn [fst]. case_decide as Hd.
  - cbn [length]. f_equal. apply IH; [done|]. set_solver.
  - assert (k' = k) as -> by (by destruct (decide (k' = k)); [|destruct Hd]).
    cbn [length]. f_equal. clear IH Hin Hd.
    induction l as [|[k'' v''] l IH]; [done|].
    csimpl in *. apply NoDup_cons in Hnd as [? ?].
    rewrite filter_cons_True by (simpl; set_solver).
    simpl. f_equal. apply IH; [set_solver|done].
Qed.

Lemma run_erases (ks : list KeyType) s :
  reachable s → capacity s = 32 → length (entries s) = 12%nat →
  NoDup ks → (length ks ≤ 7)%nat →
  (∀ k, k ∈ ks → assoc k (entries s) ≠ None) →
  wp (run_ops (Erase <$> ks))
     (λ _ s', reachable s' ∧
              entries s' = filter (λ kv, kv.1 ∉ ks) (entries s) ∧
              length (entries s') = (12 - length ks)%nat ∧
              capacity s' = if decide (length ks = 7%nat) then 16 else 32) s.
Proof.
  intros Hs Hcap Hlen. induction ks as [|k ks IH] using rev_ind; intros Hnd Hks Hpres.
  - apply wp_ret. split; [done|]. split; [|by split].
    symmetry. generalize (entries s). intros l.
    induction l as [|kv l IHl]; [done|].
    rewrite filter_cons_True by set_solver. by f_equal.
  - apply NoDup_app in Hnd as (Hnd & Hdisj & _).
    rewrite length_app in Hks. simpl in Hks.
    rewrite fmap_app. simpl. eapply wp_rewrite; [apply run_ops_app|].
    apply wp_bind. eapply wp_mono; [apply IH; [done|lia|set_solver]|].
    intros [] s1 (Hs1 & Hent1 & Hlen1 & Hcap1). rewrite decide_False in Hcap1 by lia.
    clear IH. simpl. apply wp_bind.
    eapply wp_mono; [by apply (reachable_wp_op s1 (Erase k))|].
    intros [] s' (Hs' & Habs). apply wp_ret. split; [done|].
    pose proof (inv_wf _ (reachable_Inv _ Hs1)) as Hwf1.
    assert (k ∉ ks) as Hk by (intros Hin; apply (Hdisj _ Hin); set_solver).
    assert (assoc k (entries s1) = assoc k (entries s)) as Ha1.
    { rewrite Hent1. by apply assoc_filter_notin. }
    destruct (assoc k (entries s)) as [v|] eqn:Ha; [|by destruct (Hpres k); [set_solver|]].
    simpl in Habs. unfold spec_erase, abs in Habs. simpl in Habs. rewrite Ha1 in Habs.
    injection Habs as Hent' Hcap'.
    assert (S (length (entries s')) = length (entries s1)) as Hlen'.
    { rewrite Hent'. apply length_filter_key; [apply Hwf1|].
      apply (assoc_elem_of k v). by rewrite Ha1. }
    split; [|split].
    + rewrite Hent', Hent1, list_filter_filter. apply list_filter_iff.
      intros [k' v']. simpl. set_solver.
    + rewrite length_app. simpl. lia.
    + rewrite Hcap', Hcap1, Hlen1, length_app. simpl. case_decide.
      * replace (N.pred (N.of_nat (12 - length ks))) with 5 by lia.
        apply policy_32_five.
      * apply policy_32_between. lia.
Qed.

(** C5.  From a reachable map with 12 entries and capacity 32, erasing seven
    present keys one after the other: the capacity stays 32 while more than
    five entries remain and is 16 after the erase that leaves five, and every
    key not erased keeps its value. *)
Theorem shrinks_at_five_entries s (ks : list KeyType) (i : nat) :
  reachable s →
  size s = Ret (12, s) → capacity s = 32 →
  NoDup ks → length ks = 7%nat →
  Forall (λ k, find k s ≠ Ret (PastEnd, s)) ks →
  (i ≤ 7)%nat →
  ∃ s',
    run_ops (Erase <$> take i ks) s = Ret (tt, s') ∧
    size s' = Ret (12 - N.of_nat i, s') ∧
    capacity s' = (if decide (i = 7%nat) then 16 else 32) ∧
    ∀ k v, k ∉ take i ks → at_ k s = Ret (v, s) → at_ k s' = Ret (v, s').
Proof.
  intros Hs Hsize Hcap Hnd Hlen Hpres Hi.
  destruct (reachable_Inv _ Hs) as [Hwf Hsz _ _].
  assert (length (entries s) = 12%nat) as Hlen12.
  { unfold size, gets in Hsize. injection Hsize as Hsize.
    rewrite length_entries by done. lia. }
  assert (length (take i ks) = i) as Hlen' by (rewrite length_take; lia).
  assert (NoDup (take i ks)) as Hnd'.
  { rewrite <-(take_drop i ks) in Hnd. by apply NoDup_app in Hnd as [? _]. }
  assert (∀ k, k ∈ take i ks → assoc k (entries s) ≠ None) as Hpres'.
  { intros k Hk. rewrite Forall_forall in Hpres.
    rewrite <-find_end_iff by done. apply Hpres.
    rewrite <-(take_drop i ks). set_solver. }
  destruct (wp_elim _ _ _ (run_erases (take i ks) s Hs Hcap Hlen12 Hnd' ltac:(lia) Hpres'))
    as ([] & s' & Hrun & Hs' & Hent & Hlens & Hcap').
  destruct (reachable_Inv _ Hs') as [Hwf' Hsz' _ _].
  exists s'. split; [done|]. split; [|split].
  - unfold size, gets. rewrite Hsz', <-length_entries, Hlens, Hlen' by done.
    do 2 f_equal. lia.
  - by rewrite Hcap', Hlen'.
  - intros k v Hk. rewrite !at_eq, Hent by done.
    rewrite assoc_filter_notin by done.
    destruct (assoc k (entries s)); [|done]. by intros [= ->].
Qed.

(** ** The loops of [rehash] and [clear], node by node *)

Lemma rehash_inv_init s (c : N) :
  WF s → c ≠ 0 →
  rehash_inv [] (nodes_sequence s)
    (with_buckets (list.resize (N.to_nat c) []) (with_capacity (λ _, c) s)).
Proof.
  intros Hwf Hc.
  pose proof (WF_capacity_pos _ Hwf) as Hpos. unfold INIT_CAPACITY in Hpos.
  unfold rehash_inv. state_simpl.
  split; [done|]. split; [by rewrite length_resize|].
  split; [|split; [|set_solver]].
  - intros i Hi. rewrite chain_empty, app_nil_r.
    destruct (decide (N.to_nat i < length (buckets s))%nat) as [Hlt|Hge].
    + rewrite lookup_resize by lia.
      destruct (lookup_lt_is_Some_2 _ _ Hlt) as [b Hb]. rewrite Hb.
      apply (wf_chains _ Hwf) in Hb. rewrite N2Nat.id in Hb. by subst.
    + rewrite lookup_resize_new by lia. rewrite chain_nil; [done|].
      intros p Hp. destruct (wf_nodes _ Hwf p Hp) as (n & Hn & _ & Hidx).
      unfold index_of. rewrite Hn. simpl. intros [= Hi'].
      rewrite (wf_length _ Hwf) in Hge.
      assert (hasher (key n) mod capacity s < capacity s) by (apply N.mod_lt; lia).
      lia.
  - intros q Hq. by apply WF_is_Some.
Qed.

(** The state in which the loop of [rehash] reaches the node [p]. *)
Lemma rehash_reaches s (c : N) (done rest : list loc) p :
  WF s → c ≠ 0 →
  nodes_sequence s = done ++ p :: rest →
  wp (modify (with_buckets (list.resize (N.to_nat c) [])) ;;; for_each done rehash_body)
     (λ _ s1, rehash_inv done (p :: rest) s1 ∧
              nodes_sequence s1 = nodes_sequence s ∧ capacity s1 = c ∧
              heap s1 !! p = heap s !! p)
     (with_capacity (λ _, c) s).
Proof.
  intros Hwf Hc Hseq.
  pose proof (wf_nodup _ Hwf) as Hnd. rewrite Hseq in Hnd.
  apply wp_bind, wp_modify.
  eapply wp_mono.
  { apply (rehash_loop_inv done [] (p :: rest)); [done|].
    rewrite <-Hseq. simpl. by apply rehash_inv_init. }
  intros [] s1 (Hinv & Hseq1 & Hcap1 & _ & _ & Hhp1). simpl in *.
  split; [done|]. split; [done|]. split; [done|].
  rewrite Hhp1. apply rehash_heap_lookup_notin.
  apply NoDup_app in Hnd as (_ & Hd & _). intros Hin. apply (Hd p Hin). set_solver.
Qed.

(** C8, as the code has it.  In a rehash to capacity [c], when the loop
    reaches a node [p] of the order sequence: if the cached index of [p] is
    below [c], the front of the chain at that index is [p] itself, so the
    [pop_front] unlinks exactly [p]; the index is recomputed as
    [hash(key) mod c]; [p] is appended at the tail of the chain at the new
    index and is in no other chain; and the order sequence is the same
    before, during and after the rehash, which returns a well-formed table of
    capacity [c] with the same entries. *)
Theorem rehash_moves_node_to_tail s (c : N) (done rest : list loc) p :
  WF s → (∃ e : N, c = INIT_CAPACITY * 2 ^ e) →
  nodes_sequence s = done ++ p :: rest →
  ∃ n s1 s2 s',
    heap s !! p = Some n ∧
    (modify (with_buckets (list.resize (N.to_nat c) [])) ;;; for_each done rehash_body)
      (with_capacity (λ _, c) s) = Ret (tt, s1) ∧
    heap s1 !! p = Some n ∧
    (bucket_index n < c →
     ∃ b, buckets s1 !! N.to_nat (bucket_index n) = Some (p :: b)) ∧
    rehash_body p s1 = Ret (tt, s2) ∧
    heap s2 !! p = Some (set_bucket_index (hasher (key n) mod c) n) ∧
    (∃ b, buckets s2 !! N.to_nat (hasher (key n) mod c) = Some (b ++ [p])) ∧
    (∀ (j : nat) b, buckets s2 !! j = Some b → p ∈ b →
                    j = N.to_nat (hasher (key n) mod c)) ∧
    nodes_sequence s1 = nodes_sequence s ∧
    nodes_sequence s2 = nodes_sequence s ∧
    rehash (with_capacity (λ _, c) s) = Ret (tt, s') ∧
    WF s' ∧ capacity s' = c ∧
    nodes_sequence s' = nodes_sequence s ∧ entries s' = entries s.
Proof.
  intros Hwf Hpow Hseq.
  assert (c ≠ 0) as Hc.
  { destruct Hpow as [e ->].
    assert (0 < 2 ^ e) by (apply N.neq_0_lt_0, N.pow_nonzero; lia).
    unfold INIT_CAPACITY. lia. }
  pose proof (wf_nodup _ Hwf) as Hnd. rewrite Hseq in Hnd.
  destruct (WF_is_Some s p Hwf) as [n Hn]; [rewrite Hseq; set_solver|].
  destruct (wp_elim _ _ _ (rehash_reaches s c done rest p Hwf Hc Hseq))
    as ([] & s1 & Hrun1 & Hinv1 & Hseq1 & Hcap1 & Hhp1).
  rewrite Hn in Hhp1.
  destruct (wp_elim _ _ _ (rehash_body_inv done p rest s1 Hnd Hinv1))
    as ([] & s2 & Hrun2 & Hinv2 & Hseq2 & Hcap2 & _ & _ & Hhp2).
  destruct (wp_elim _ _ _ (rehash_WF s c Hwf Hpow))
    as ([] & s' & Hrun & Hwf' & Hcap' & Hseq' & _ & _ & Hent' & _).
  assert (heap s2 !! p = Some (set_bucket_index (hasher (key n) mod c) n)) as Hp2.
  { by rewrite Hhp2, lookup_alter_eq, Hhp1, Hcap1. }
  assert ((p ∉ done) ∧ (p ∉ rest)) as [Hpd Hpr].
  { apply NoDup_app in Hnd as (_ & Hd & [? _]%NoDup_cons).
    split; [|done]. intros Hin. apply (Hd p Hin). set_solver. }
  assert (hasher (key n) mod c < c) as Hh by (by apply N.mod_lt).
  destruct Hinv1 as (_ & _ & Hch1 & _ & _).
  destruct Hinv2 as (_ & Hlen2 & Hch2 & _ & _).
  rewrite Hcap2, Hcap1 in Hch2, Hlen2. rewrite Hcap1 in Hch1.
  exists n, s1, s2, s'.
  split; [done|]. split; [done|]. split; [done|]. split; [|split; [done|]].
  { intros Hlt. rewrite (Hch1 _ Hlt), chain_cons, decide_True
      by (unfold index_of; by rewrite Hhp1).
    by eexists. }
  split; [done|]. split; [|split].
  { rewrite (Hch2 _ Hh), chain_app, !app_assoc.
    rewrite (chain_cons _ p []), decide_True by (unfold index_of; by rewrite Hp2).
    rewrite chain_empty. by eexists. }
  { intros j b Hb Hin.
    assert (j < N.to_nat c)%nat as Hj by (rewrite <-Hlen2; by eapply lookup_lt_Some).
    specialize (Hch2 (N.of_nat j)). rewrite Nat2N.id, Hb in Hch2.
    injection Hch2; [|lia]. intros ->.
    apply elem_of_app in Hin as [[Hi _]%elem_of_chain|[Hi _]%elem_of_chain].
    - unfold index_of in Hi. rewrite Hp2 in Hi. simpl in Hi. injection Hi as Hi.
      rewrite Hi. by rewrite Nat2N.id.
    - unfold index_of in Hi. rewrite Hp2 in Hi. simpl in Hi. injection Hi as Hi.
      rewrite Hi. by rewrite Nat2N.id. }
  split; [done|]. split; [by rewrite Hseq2|]. done.
Qed.

Lemma clear_loop_prefix (done : list loc) : ∀ (rest : list loc) s,
  length (buckets s) = N.to_nat (capacity s) →
  (∀ p, p ∈ done → ∃ n, heap s !! p = Some n ∧ bucket_index n < capacity s) →
  (∀ i, i < capacity s →
        buckets s !! N.to_nat i = Some (chain (heap s) (done ++ rest) i)) →
  wp (for_each done clear_body)
     (λ _ s', heap s' = heap s ∧ capacity s' = capacity s ∧
              nodes_sequence s' = nodes_sequence s ∧
              ∀ i, i < capacity s →
                   buckets s' !! N.to_nat i = Some (chain (heap s) rest i)) s.
Proof.
  induction done as [|p done IH]; intros rest s Hlen Hdone Hch.
  - by apply wp_ret.
  - destruct (Hdone p) as (n & Hn & Hidx); [set_solver|].
    simpl for_each. unfold clear_body at 1. apply wp_bind, wp_bind.
    eapply wp_intro; [by apply deref_eq|].
    pose proof (Hch _ Hidx) as Hb. simpl in Hb.
    rewrite chain_cons, decide_True in Hb by (unfold index_of; by rewrite Hn).
    eapply wp_intro; [by eapply pop_front_eq|].
    eapply wp_mono.
    { apply (IH rest); state_simpl.
      - by rewrite length_insert.
      - intros q Hq. apply Hdone. set_solver.
      - intros i Hi. destruct (decide (i = bucket_index n)) as [->|Hne].
        + rewrite list_lookup_insert_eq; [done|lia].
        + rewrite list_lookup_insert_ne by lia.
          rewrite Hch by done. simpl. rewrite chain_cons, decide_False; [done|].
          unfold index_of. rewrite Hn. simpl. congruence. }
    intros [] s'. state_simpl. done.
Qed.

(** C10.  On every reachable object each bucket chain is the order sequence
    restricted to the nodes whose cached index is the index of the chain: its
    nodes are in the order in which the sequence has them.  Hence, when the
    loop of [clear] or the loop of a rehash to capacity [c] reaches a node
    [p], the front of the chain that [pop_front] is applied to is [p]. *)
Theorem chains_follow_sequence s :
  reachable s →
  (∀ (j : nat) b, buckets s !! j = Some b →
     b = filter (λ p, index_of (heap s) p = Some (N.of_nat j)) (nodes_sequence s) ∧
     (b `sublist_of` nodes_sequence s)) ∧
  (∀ (done rest : list loc) p, nodes_sequence s = done ++ p :: rest →
     ∃ n s1 b, heap s !! p = Some n ∧
               for_each done clear_body s = Ret (tt, s1) ∧
               heap s1 !! p = Some n ∧
               buckets s1 !! N.to_nat (bucket_index n) = Some (p :: b)) ∧
  (∀ (c : N) (done rest : list loc) p,
     (∃ e : N, c = INIT_CAPACITY * 2 ^ e) →
     nodes_sequence s = done ++ p :: rest →
     ∃ n s1, heap s !! p = Some n ∧
             (modify (with_buckets (list.resize (N.to_nat c) [])) ;;;
              for_each done rehash_body) (with_capacity (λ _, c) s) = Ret (tt, s1) ∧
             heap s1 !! p = Some n ∧
             (bucket_index n < c →
              ∃ b, buckets s1 !! N.to_nat (bucket_index n) = Some (p :: b))).
Proof.
  intros Hs. pose proof (inv_wf _ (reachable_Inv _ Hs)) as Hwf.
  pose proof (WF_capacity_pos _ Hwf) as Hpos. unfold INIT_CAPACITY in Hpos.
  assert (∀ p, p ∈ nodes_sequence s →
               ∃ n, heap s !! p = Some n ∧ bucket_index n < capacity s) as Hidx.
  { intros p Hp. destruct (wf_nodes _ Hwf p Hp) as (n & Hn & _ & Hi).
    exists n. split; [done|]. rewrite Hi. apply N.mod_lt. lia. }
  split; [|split].
  - intros j b Hb. apply (wf_chains _ Hwf) in Hb as ->.
    split; [done|]. apply sublist_filter.
  - intros done rest p Hseq.
    destruct (Hidx p) as (n & Hn & Hi); [rewrite Hseq; set_solver|].
    assert (wp (for_each done clear_body)
               (λ _ s', heap s' = heap s ∧ capacity s' = capacity s ∧
                        nodes_sequence s' = nodes_sequence s ∧
                        ∀ i, i < capacity s →
                             buckets s' !! N.to_nat i =
                             Some (chain (heap s) (p :: rest) i)) s) as Hwp.
    { apply clear_loop_prefix; [apply Hwf| |].
      - intros q Hq. apply Hidx. rewrite Hseq. set_solver.
      - intros i Hi'. rewrite <-Hseq. by apply WF_bucket. }
    apply wp_elim in Hwp as ([] & s1 & Hrun & Hhp & _ & _ & Hch).
    exists n, s1, (chain (heap s) rest (bucket_index n)).
    split; [done|]. split; [done|]. split; [by rewrite Hhp|].
    rewrite (Hch _ Hi), chain_cons, decide_True; [done|].
    unfold index_of. by rewrite Hn.
  - intros c done rest p [e ->] Hseq.
    assert (INIT_CAPACITY * 2 ^ e ≠ 0) as Hc.
    { assert (0 < 2 ^ e) by (apply N.neq_0_lt_0, N.pow_nonzero; lia).
      unfold INIT_CAPACITY. lia. }
    destruct (Hidx p) as (n & Hn & _); [rewrite Hseq; set_solver|].
    destruct (wp_elim _ _ _ (rehash_reaches s _ done rest p Hwf Hc Hseq))
      as ([] & s1 & Hrun1 & Hinv1 & Hseq1 & Hcap1 & Hhp1).
    rewrite Hn in Hhp1. destruct Hinv1 as (_ & _ & Hch1 & _ & _).
    rewrite Hcap1 in Hch1.
    exists n, s1. split; [done|]. split; [done|]. split; [done|].
    intros Hlt. rewrite (Hch1 _ Hlt), chain_cons, decide_True
      by (unfold index_of; by rewrite Hhp1).
    by eexists.
Qed.

(** ** Iteration *)

Lemma entries_assoc_iff s k v :
  WF s → (k, v) ∈ entries s ↔ assoc k (entries s) = Some v.
Proof.
  intros Hwf. split; [|apply assoc_Some_elem].
  apply assoc_NoDup_elem, Hwf.
Qed.

Lemma iteration_refines_spec (os : list op) :
  ∃ s, run_ops os new = Ret (tt, s) ∧
       (∀ fuel : nat, (length (nodes_sequence s) < fuel)%nat →
          iterate fuel s = Ret (Some (spec_run os ([], INIT_CAPACITY)).1, s)) ∧
       (∀ k v, (k, v) ∈ (spec_run os ([], INIT_CAPACITY)).1 ↔ at_ k s = Ret (v, s)).
Proof.
  destruct (wp_elim _ _ _ (run_ops_refines os new reachable_new))
    as ([] & s & Hrun & Hs & Habs).
  pose proof (inv_wf _ (reachable_Inv _ Hs)) as Hwf.
  change (abs new) with (([], INIT_CAPACITY) : list MapPair * N) in Habs.
  rewrite <-Habs. exists s. split; [done|]. split.
  - intros fuel Hfuel. by apply iterate_eq.
  - intros k v. simpl. rewrite entries_assoc_iff, at_eq by done.
    destruct (assoc k (entries s)); split; intros [=]; by subst.
Qed.

Lemma reachable_run_ops s s' (os : list op) :
  reachable s → run_ops os s = Ret (tt, s') → reachable s'.
Proof.
  intros Hs Hrun. pose proof (run_ops_refines os s Hs) as Hwp.
  unfold wp in Hwp. rewrite Hrun in Hwp. apply Hwp.
Qed.

Lemma filter_key_absent k (l : list MapPair) :
  assoc k l = None → filter (λ kv, kv.1 ≠ k) l = l.
Proof.
  induction l as [|[k' v] l IH]; [done|]. simpl. case_decide; [done|].
  intros Ha. rewrite filter_cons_True by done. f_equal. by apply IH.
Qed.

Lemma iterate_entries s (extra : nat) :
  reachable s →
  iterate (S (length (nodes_sequence s)) + extra) s = Ret (Some (entries s), s).
Proof.
  intros Hs. apply iterate_eq; [apply inv_wf, reachable_Inv, Hs|lia].
Qed.

Lemma entries_after_insert s k v :
  reachable s → find k s = Ret (PastEnd, s) →
  ∃ s', insert (k, v) s = Ret (tt, s') ∧ reachable s' ∧
        entries s' = (k, v) :: entries s.
Proof.
  intros Hs Hfind. pose proof (reachable_Inv _ Hs) as Hinv.
  assert (position_of s k = PastEnd) as Hk.
  { rewrite find_eq in Hfind by apply Hinv. by injection Hfind. }
  destruct (wp_elim _ _ _ (insert_absent s (k, v) Hinv Hk))
    as ([] & s' & Hins & _ & Hent & _).
  exists s'. split; [done|]. split; [|done].
  by apply (reachable_step s s' (Insert (k, v))).
Qed.

Lemma entries_after_erase s k :
  reachable s →
  ∃ s', erase k s = Ret (tt, s') ∧ reachable s' ∧
        entries s' = filter (λ kv, kv.1 ≠ k) (entries s).
Proof.
  intros Hs.
  destruct (wp_elim _ _ _ (reachable_wp_op s (Erase k) Hs))
    as ([] & s' & Her & Hs' & Habs).
  exists s'. split; [done|]. split; [done|].
  change (entries s') with (abs s').1. rewrite Habs. simpl. unfold spec_erase, abs. simpl.
  destruct (assoc k (entries s)) eqn:Ha; [done|]. simpl.
  symmetry. by apply filter_key_absent.
Qed.

Lemma new_from_range_eq (l : list MapPair) :
  new_from_range l = run_ops (Insert <$> l) new.
Proof.
  unfold new_from_range. generalize (new : t).
  induction l as [|mp l IH]; intros s; [done|].
  simpl. unfold bind. destruct (insert mp s) as [[[] s']| |]; [apply IH|done..].
Qed.

(** ** No unsigned overflow

    The counters are modelled without wrap-around.  On a reachable object the
    capacity is 16 or below six times the number of live nodes, so as long as
    fewer than [2^60] nodes are alive (each occupies more than 16 bytes of a
    64-bit address space) neither [++sz] nor [capacity *= 2] wraps. *)

Lemma reachable_capacity_bound s :
  reachable s → capacity s = INIT_CAPACITY ∨ capacity s < 6 * sz s.
Proof.
  intros Hs. destruct (reachable_Inv _ Hs) as [_ _ _ [Hc|Hlo]]; [by left|right].
  unfold MAX_LOAD_FACTOR_num in Hlo.
  change (2 ^ 54) with 18014398509481984 in Hlo. lia.
Qed.

Lemma reachable_no_wrap s :
  reachable s → sz s < 2 ^ 60 →
  sz s = N.of_nat (length (nodes_sequence s)) ∧
  sz s + 1 < 2 ^ 64 ∧ capacity s * 2 < 2 ^ 64.
Proof.
  intros Hs Hlt. pose proof (reachable_capacity_bound s Hs) as Hcap.
  destruct (reachable_Inv _ Hs) as [_ Hsz _ _].
  change (2 ^ 60) with 1152921504606846976 in Hlt.
  change (2 ^ 64) with 18446744073709551616.
  unfold INIT_CAPACITY in Hcap. split; [done|]. lia.
Qed.

(** * Further properties of the code *)

(** ** Nodes, keys and positions *)

Lemma omap_pointwise {B} (f : Node → B) hp hp' l :
  (∀ p, p ∈ l → is_Some (hp !! p)) →
  (∀ p, p ∈ l → is_Some (hp' !! p)) →
  omap (λ p, f <$> hp' !! p) l = omap (λ p, f <$> hp !! p) l →
  ∀ p, p ∈ l → f <$> hp' !! p = f <$> hp !! p.
Proof.
  induction l as [|q l IH]; intros Hs Hs' Heq p Hp; [set_solver|].
  destruct (Hs q) as [n Hn]; [set_solver|].
  destruct (Hs' q) as [n' Hn']; [set_solver|].
  csimpl in Heq. rewrite Hn, Hn' in Heq. csimpl in Heq.
  injection Heq as Hf Heq.
  apply elem_of_cons in Hp as [->|Hp].
  - rewrite Hn, Hn'. simpl. by f_equal.
  - apply IH; [set_solver|set_solver|done|done].
Qed.

Lemma entries_keys s :
  (entries s).*1 = omap (λ p, key <$> heap s !! p) (nodes_sequence s).
Proof.
  unfold entries. induction (nodes_sequence s) as [|p l IH]; [done|].
  csimpl. destruct (heap s !! p) as [n|]; csimpl; [by rewrite IH|done].
Qed.


(** A node of the sequence is the node that [find] returns for its key. *)
Lemma position_of_node s p n :
  WF s → p ∈ nodes_sequence s → heap s !! p = Some n →
  position_of s (key n) = Pos p ∧ assoc (key n) (entries s) = Some (value n).
Proof.
  intros Hwf Hp Hn.
  assert (position_of s (key n) = Pos p) as Hpos.
  { unfold position_of. destruct (lookup_loc _ _ _) as [q|] eqn:Hl.
    - apply lookup_loc_Some in Hl as (Hq & nq & Hnq & Hk).
      f_equal. by apply (WF_keys_inj s q p nq n).
    - by destruct (lookup_loc_None _ _ _ _ _ Hl Hp Hn). }
  split; [done|].
  destruct (position_of_Pos _ _ _ Hwf Hpos) as (_ & n' & Hn' & _ & Ha).
  congruence.
Qed.

(** Reading [at] as a partial function of the key. *)
Lemma at_Ret_iff s k v :
  WF s → at_ k s = Ret (v, s) ↔ assoc k (entries s) = Some v.
Proof.
  intros Hwf. rewrite at_eq by done.
  destruct (assoc k (entries s)); split; intros [=]; by subst.
Qed.

Lemma size_eq s : Inv s → size s = Ret (N.of_nat (length (entries s)), s).
Proof. intros Hinv. unfold size, gets. by rewrite (Inv_sz_entries s). Qed.

(** ** What a call changes and what it leaves alone *)

(** X1.  [insert] of an absent key adds exactly its binding: the size grows by
    one, the map is not empty, [at] returns the inserted value for the key and
    what it returned before for every other key. *)
Theorem insert_adds_one_binding s k v :
  reachable s → find k s = Ret (PastEnd, s) →
  ∃ (m : N) s',
    size s = Ret (m, s) ∧
    insert (k, v) s = Ret (tt, s') ∧
    size s' = Ret (m + 1, s') ∧
    empty s' = Ret (false, s') ∧
    at_ k s' = Ret (v, s') ∧
    ∀ k' v', k' ≠ k → (at_ k' s' = Ret (v', s') ↔ at_ k' s = Ret (v', s)).
Proof.
  intros Hs Hfind. pose proof (reachable_Inv _ Hs) as Hinv.
  destruct (entries_after_insert s k v Hs Hfind) as (s' & Hins & Hs' & Hent).
  pose proof (reachable_Inv _ Hs') as Hinv'.
  exists (sz s), s'. split; [done|]. split; [done|].
  assert (sz s' = sz s + 1) as Hsz.
  { rewrite (Inv_sz_entries s'), (Inv_sz_entries s), Hent by done. simpl. lia. }
  split; [unfold size, gets; by rewrite Hsz|].
  split.
  { unfold empty, bind, gets, ret. rewrite Hsz.
    by destruct (N.eqb_spec (sz s + 1) 0); [lia|]. }
  split.
  { apply at_Ret_iff; [apply Hinv'|]. rewrite Hent. simpl. by rewrite decide_True. }
  intros k' v' Hne. rewrite !at_Ret_iff, Hent by (apply Hinv || apply Hinv').
  simpl. by rewrite decide_False.
Qed.

(** X2.  [erase] of a present key removes exactly its binding: the size, which
    was positive, shrinks by one, and [at] returns what it returned before for
    every other key. *)
Theorem erase_removes_one_binding s k :
  reachable s → find k s ≠ Ret (PastEnd, s) →
  ∃ (m : N) s',
    size s = Ret (m, s) ∧ 0 < m ∧
    erase k s = Ret (tt, s') ∧
    size s' = Ret (m - 1, s') ∧
    ∀ k' v', k' ≠ k → (at_ k' s' = Ret (v', s') ↔ at_ k' s = Ret (v', s)).
Proof.
  intros Hs Hfind. pose proof (reachable_Inv _ Hs) as Hinv.
  pose proof (inv_wf _ Hinv) as Hwf.
  destruct (entries_after_erase s k Hs) as (s' & Her & Hs' & Hent).
  pose proof (reachable_Inv _ Hs') as Hinv'.
  assert (k ∈ (entries s).*1) as Hin.
  { rewrite find_end_iff in Hfind by done.
    destruct (assoc k (entries s)) as [v|] eqn:Ha; [|done]. by eapply assoc_elem_of. }
  pose proof (length_filter_key k (entries s) (wf_keys _ Hwf) Hin) as Hlen.
  rewrite <-Hent in Hlen.
  pose proof (Inv_sz_entries s Hinv) as Hsz.
  pose proof (Inv_sz_entries s' Hinv') as Hsz'.
  exists (sz s), s'. split; [done|].
  split; [lia|]. split; [done|]. split.
  { unfold size, gets. do 2 f_equal. lia. }
  intros k' v' Hne. rewrite !at_Ret_iff, Hent by (apply Hinv || apply Hinv').
  by rewrite assoc_filter_other.
Qed.

Lemma assoc_spec_insert_other k k' v (st : list MapPair * N) :
  k ≠ k' → assoc k' (spec_insert (k, v) st).1 = assoc k' st.1.
Proof.
  intros Hne. unfold spec_insert. simpl.
  destruct (assoc k st.1); [done|]. simpl. by rewrite decide_False.
Qed.

(** X3.  [operator[]] is [find] followed by a conditional [insert]: it leaves
    the object exactly as [insert({key, ValueType()})] does, and the reference
    it returns reads the value that [at] returns afterwards: the stored value
    when the key was present (the object is then unchanged), the
    value-initialised [ValueType()] when it was absent. *)
Theorem operator_index_is_find_or_insert s k :
  reachable s →
  ∃ r s' v,
    operator_index k s = Ret (r, s') ∧
    insert (k, ValueType_default) s = Ret (tt, s') ∧
    read_ref r s' = Ret (v, s') ∧
    at_ k s' = Ret (v, s') ∧
    (find k s = Ret (PastEnd, s) → v = ValueType_default) ∧
    (∀ v0, at_ k s = Ret (v0, s) → v = v0 ∧ s' = s).
Proof.
  intros Hs. pose proof (reachable_Inv _ Hs) as Hinv.
  pose proof (inv_wf _ Hinv) as Hwf.
  destruct (position_of s k) as [p|] eqn:Hk.
  - destruct (position_of_Pos _ _ _ Hwf Hk) as (Hp & n & Hn & Hkey & Ha).
    exists p, s, (value n).
    split; [by apply operator_index_present|].
    split; [apply insert_present; [done|simpl; congruence]|].
    split; [by apply read_ref_eq|]. split; [by apply at_Ret_iff|].
    split.
    + rewrite find_eq, Hk by done. by intros [=].
    + intros v0 Hat. apply at_Ret_iff in Hat; [|done]. split; [congruence|done].
  - destruct (wp_elim _ _ _ (_insert_spec s (k, ValueType_default) Hinv Hk))
      as (it & s' & Hins & -> & Hinv' & Hent & _ & Hseq).
    pose proof (inv_wf _ Hinv') as Hwf'.
    destruct (WF_is_Some s' (next_loc s) Hwf') as [n Hn]; [rewrite Hseq; set_solver|].
    assert (map_pair n = (k, ValueType_default)) as Hmp.
    { unfold entries in Hent. rewrite Hseq in Hent. csimpl in Hent.
      rewrite Hn in Hent. csimpl in Hent. by injection Hent. }
    exists (next_loc s), s', ValueType_default.
    split; [|split; [|split; [|split; [|split]]]].
    + assert (wp (operator_index k) (λ r s2, r = next_loc s ∧ s2 = s') s) as Hwp.
      { unfold operator_index. apply wp_bind. eapply wp_intro; [by apply find_eq|].
        apply wp_bind, wp_ret. rewrite Hk, decide_True by done.
        apply wp_bind. eapply wp_intro; [exact Hins|].
        apply wp_bind, wp_gets. rewrite Hseq, decide_True by set_solver.
        by apply wp_ret. }
      apply wp_elim in Hwp as (? & ? & -> & -> & ->). done.
    + assert (wp (insert (k, ValueType_default)) (λ _ s2, s2 = s') s) as Hwp.
      { unfold insert. apply wp_bind. eapply wp_intro; [by apply find_eq|].
        apply wp_bind, wp_ret. simpl. rewrite Hk, decide_True by done.
        apply wp_bind. eapply wp_intro; [exact Hins|]. by apply wp_ret. }
      apply wp_elim in Hwp as ([] & ? & -> & ->). done.
    + rewrite (read_ref_eq _ _ _ Hn). unfold value. by rewrite Hmp.
    + apply at_Ret_iff; [done|]. rewrite Hent. simpl. by rewrite decide_True.
    + done.
    + intros v0 Hat. apply at_Ret_iff in Hat; [|done].
      apply position_of_PastEnd in Hk; [|done]. congruence.
Qed.

(** X4.  The assignment [m[k] = v]: afterwards the reference and [at(k)] read
    [v]; every other key keeps what [at] returned for it before the
    statement; and the write itself changes neither the size nor the capacity
    nor the order of iteration, only the value paired with [k]. *)
Theorem assignment_through_index s k v :
  reachable s →
  ∃ r s1 s' (es : list MapPair) (m : N),
    operator_index k s = Ret (r, s1) ∧
    write_ref r v s1 = Ret (tt, s') ∧
    read_ref r s' = Ret (v, s') ∧
    at_ k s' = Ret (v, s') ∧
    (∀ k' v', k' ≠ k → (at_ k' s' = Ret (v', s') ↔ at_ k' s = Ret (v', s))) ∧
    iterate (S (length (nodes_sequence s1))) s1 = Ret (Some es, s1) ∧
    iterate (S (length (nodes_sequence s'))) s' = Ret (Some (assign k v es), s') ∧
    size s1 = Ret (m, s1) ∧ size s' = Ret (m, s') ∧
    capacity s' = capacity s1.
Proof.
  intros Hs. pose proof (reachable_Inv _ Hs) as Hinv.
  pose proof (inv_wf _ Hinv) as Hwf.
  destruct (wp_elim _ _ _ (operator_index_refines s k Hinv))
    as (r & s1 & Hop & Hinv1 & Habs & Hr & n & Hn & Hkey).
  pose proof (inv_wf _ Hinv1) as Hwf1.
  destruct (wp_elim _ _ _ (write_ref_spec s1 r v n Hinv1 Hr Hn))
    as ([] & s' & Hwr & Hinv' & Hent & Hcap & Hseq & _).
  pose proof (inv_wf _ Hinv') as Hwf'.
  rewrite Hkey in Hent.
  destruct (position_of_node s1 r n Hwf1 Hr Hn) as [_ Ha1]. rewrite Hkey in Ha1.
  exists r, s1, s', (entries s1), (sz s1).
  split; [done|]. split; [done|].
  split.
  { unfold write_ref in Hwr. rewrite (update_node_eq _ _ _ _ Hn) in Hwr.
    injection Hwr as <-.
    apply (read_ref_eq _ r (set_value v n)).
    unfold with_heap. simpl. apply lookup_insert_eq. }
  split.
  { apply at_Ret_iff; [done|]. by rewrite Hent, assoc_assign_eq, Ha1. }
  split.
  { intros k' v' Hne. rewrite !at_Ret_iff, Hent, assoc_assign_ne by done.
    change (entries s1) with (abs s1).1. rewrite Habs.
    by rewrite assoc_spec_insert_other. }
  split; [apply iterate_eq; [done|lia]|].
  split; [rewrite <-Hent; apply iterate_eq; [done|lia]|].
  split; [done|]. split; [|done].
  unfold size, gets. rewrite (Inv_sz_entries s'), (Inv_sz_entries s1), Hent by done.
  unfold assign. by rewrite length_fmap.
Qed.


(** ** Iterators across calls *)

Lemma position_of_iff s k p :
  WF s →
  position_of s k = Pos p ↔ p ∈ nodes_sequence s ∧ key <$> heap s !! p = Some k.
Proof.
  intros Hwf. split.
  - intros Hpos. destruct (position_of_Pos _ _ _ Hwf Hpos) as (Hp & n & Hn & Hkey & _).
    split; [done|]. by rewrite Hn, <-Hkey.
  - intros [Hp Hk]. destruct (heap s !! p) as [n|] eqn:Hn; [|done].
    injection Hk as <-. by apply position_of_node.
Qed.

Lemma keys_frame s s' l :
  WF s → WF s' →
  (∀ p, p ∈ l → p ∈ nodes_sequence s) → (∀ p, p ∈ l → p ∈ nodes_sequence s') →
  omap (λ p, map_pair <$> heap s' !! p) l = omap (λ p, map_pair <$> heap s !! p) l →
  ∀ p, p ∈ l → key <$> heap s' !! p = key <$> heap s !! p.
Proof.
  intros Hwf Hwf' Hl Hl' Heq p Hp.
  pose proof (omap_pointwise map_pair (heap s) (heap s') l) as Hpt.
  specialize (Hpt (λ q Hq, WF_is_Some s q Hwf (Hl q Hq))
                  (λ q Hq, WF_is_Some s' q Hwf' (Hl' q Hq)) Heq p Hp).
  destruct (heap s' !! p) as [n'|], (heap s !! p) as [n|]; simpl in *; try done.
  unfold key. congruence.
Qed.

(** A call that prepends a node to the order sequence and a pair to the
    entries leaves the keys of the older nodes as they are. *)
Lemma position_after_push_front s s' mp k p :
  WF s → WF s' →
  nodes_sequence s' = next_loc s :: nodes_sequence s →
  entries s' = mp :: entries s →
  position_of s k = Pos p → position_of s' k = Pos p.
Proof.
  intros Hwf Hwf' Hseq Hent Hpos.
  apply position_of_iff in Hpos as [Hp Hk]; [|done].
  apply position_of_iff; [done|]. rewrite Hseq. split; [set_solver|].
  rewrite <-Hk. apply (keys_frame s s' (nodes_sequence s)); try done.
  - intros q Hq. rewrite Hseq. set_solver.
  - unfold entries in Hent. rewrite Hseq in Hent. csimpl in Hent.
    destruct (WF_is_Some s' (next_loc s) Hwf') as [n0 Hn0]; [rewrite Hseq; set_solver|].
    rewrite Hn0 in Hent. simpl in Hent. by injection Hent.
Qed.

Lemma position_after_unlink s s' l1 l2 q k' k p :
  WF s → WF s' → k' ≠ k →
  position_of s k' = Pos q →
  nodes_sequence s = l1 ++ q :: l2 →
  nodes_sequence s' = l1 ++ l2 →
  entries s' = filter (λ kv, kv.1 ≠ k') (entries s) →
  position_of s k = Pos p → position_of s' k = Pos p.
Proof.
  intros Hwf Hwf' Hne Hq Hseq Hseq' Hent Hpos.
  apply position_of_iff in Hpos as [Hp Hk]; [|done].
  apply position_of_iff in Hq as [Hqin Hqk]; [|done].
  pose proof (wf_nodup _ Hwf) as Hnd. rewrite Hseq in Hnd.
  apply NoDup_app in Hnd as (Hnd1 & Hdisj & Hnd2).
  apply NoDup_cons in Hnd2 as [Hq2 Hnd2].
  assert (q ∉ l1) as Hq1 by (intros Hin; apply (Hdisj q Hin); set_solver).
  assert (p ≠ q) as Hpq by (intros ->; rewrite Hqk in Hk; congruence).
  assert (∀ r, r ∈ l1 ++ l2 → ∃ n, heap s !! r = Some n ∧ key n ≠ k') as Hother.
  { intros r Hr.
    destruct (WF_is_Some s r Hwf) as [n Hn]; [rewrite Hseq; set_solver|].
    exists n. split; [done|]. intros Hkey.
    destruct (heap s !! q) as [nq|] eqn:Hnq; [|done]. injection Hqk as Hqk.
    assert (r = q) as ->.
    { eapply (WF_keys_inj s r q n nq Hwf); try done; [rewrite Hseq; set_solver|congruence]. }
    set_solver. }
  assert (omap (λ r, map_pair <$> heap s' !! r) (l1 ++ l2) =
          omap (λ r, map_pair <$> heap s !! r) (l1 ++ l2)) as Heq.
  { unfold entries in Hent. rewrite Hseq, Hseq' in Hent. rewrite Hent.
    rewrite <-(pairs_filter_ne (heap s) (l1 ++ l2) k' Hother).
    rewrite !omap_app, !filter_app. f_equal. csimpl.
    destruct (heap s !! q) as [nq|] eqn:Hnq; [|done]. injection Hqk as Hqk.
    simpl. rewrite filter_cons_False; [done|]. simpl. unfold key in Hqk. by intros []. }
  apply position_of_iff; [done|]. rewrite Hseq'. split.
  { rewrite Hseq in Hp. set_solver. }
  rewrite <-Hk. apply (keys_frame s s' (l1 ++ l2)); try done.
  - intros r Hr. rewrite Hseq. set_solver.
  - intros r Hr. by rewrite Hseq'.
  - rewrite Hseq in Hp. set_solver.
Qed.

Lemma position_after_write s s' v n k p :
  WF s → WF s' →
  nodes_sequence s' = nodes_sequence s →
  entries s' = assign (key n) v (entries s) →
  position_of s k = Pos p → position_of s' k = Pos p.
Proof.
  intros Hwf Hwf' Hseq Hent Hpos.
  apply position_of_iff in Hpos as [Hp Hk]; [|done].
  apply position_of_iff; [done|]. rewrite Hseq. split; [done|].
  rewrite <-Hk.
  pose proof (omap_pointwise key (heap s) (heap s') (nodes_sequence s)) as Hpt.
  apply Hpt; try done.
  - intros q Hq. by apply WF_is_Some.
  - intros q Hq. apply WF_is_Some; [done|]. by rewrite Hseq.
  - rewrite <-(entries_keys s). rewrite <-Hseq, <-(entries_keys s'), Hent.
    apply assign_keys.
Qed.

Lemma operator_index_keeps_position s k' k p :
  Inv s → position_of s k = Pos p →
  wp (operator_index k')
     (λ r s', Inv s' ∧ position_of s' k = Pos p ∧ r ∈ nodes_sequence s' ∧
              is_Some (heap s' !! r)) s.
Proof.
  intros Hinv Hpos. pose proof (inv_wf _ Hinv) as Hwf.
  destruct (position_of s k') as [q|] eqn:Hk'.
  - eapply wp_intro; [by apply operator_index_present|].
    destruct (position_of_Pos _ _ _ Hwf Hk') as (Hq & n & Hn & _).
    split; [done|]. split; [done|]. split; [done|]. by eexists.
  - eapply wp_mono; [by apply operator_index_absent|].
    intros r s' (-> & Hinv' & Hent & _ & Hseq).
    pose proof (inv_wf _ Hinv') as Hwf'.
    split; [done|]. split; [by apply (position_after_push_front s s' (k', ValueType_default))|].
    assert (next_loc s ∈ nodes_sequence s') as Hin by (rewrite Hseq; set_solver).
    split; [done|]. by apply WF_is_Some.
Qed.

Lemma survives_step s (o : op) k p :
  Inv s → position_of s k = Pos p → survives k o = true →
  wp (run_op o) (λ _ s', Inv s' ∧ position_of s' k = Pos p) s.
Proof.
  intros Hinv Hpos Hsurv. pose proof (inv_wf _ Hinv) as Hwf.
  destruct o as [mp|k'|k'|k' v|]; simpl in *; [| | | |done].
  - destruct (position_of s mp.1) as [q|] eqn:Hmp.
    + eapply wp_intro; [apply insert_present; [done|by rewrite Hmp]|done].
    + eapply wp_mono; [by apply insert_absent|].
      intros [] s' (Hinv' & Hent & _ & Hseq). split; [done|].
      apply (position_after_push_front s s' mp); [done|apply Hinv'|done..].
  - apply bool_decide_eq_true in Hsurv.
    destruct (position_of s k') as [q|] eqn:Hk'.
    + eapply wp_mono; [by apply erase_present|].
      intros [] s' (Hinv' & Hent & _ & _ & l1 & l2 & Hseq & Hseq'). split; [done|].
      apply (position_after_unlink s s' l1 l2 q k'); [done|apply Hinv'|done..].
    + eapply wp_intro; [by apply erase_absent|done].
  - apply wp_bind. eapply wp_mono; [by apply operator_index_keeps_position|].
    intros r s' (Hinv' & Hpos' & Hr & n & Hn).
    apply wp_bind. eapply wp_intro; [by apply read_ref_eq|]. by apply wp_ret.
  - apply wp_bind. eapply wp_mono; [by apply operator_index_keeps_position|].
    intros r s' (Hinv' & Hpos' & Hr & n & Hn).
    eapply wp_mono; [by eapply write_ref_spec|].
    intros [] s'' (Hinv'' & Hent & _ & Hseq & _). split; [done|].
    eapply (position_after_write s' s'' v n); [apply Hinv'|apply Hinv''|done..].
Qed.

Lemma survives_run (os : list op) : ∀ s k p,
  reachable s → position_of s k = Pos p → forallb (survives k) os = true →
  wp (run_ops os) (λ _ s', reachable s' ∧ position_of s' k = Pos p) s.
Proof.
  induction os as [|o os IH]; intros s k p Hs Hpos Hall; [by apply wp_ret|].
  simpl in Hall. apply andb_true_iff in Hall as [Ho Hall].
  simpl. apply wp_bind.
  pose proof (survives_step s o k p (reachable_Inv _ Hs) Hpos Ho) as Hwp.
  destruct (wp_elim _ _ _ Hwp) as ([] & s1 & Hrun & _ & Hpos1).
  eapply wp_intro; [done|].
  apply IH; [by eapply reachable_step|done..].
Qed.

(** X5.  An iterator obtained from [find(k)] stays valid across calls: after
    any sequence of [insert], [operator[]], assignments and [erase] of other
    keys, whatever rehashes they trigger, [find(k)] still returns the same
    iterator, and dereferencing the iterator obtained before the calls yields
    the key [k] with the value that [at(k)] returns now.  Only [erase(k)] and
    [clear()] are excluded. *)
Theorem iterator_stays_valid s k p (os : list op) :
  reachable s → find k s = Ret (Pos p, s) → forallb (survives k) os = true →
  ∃ s' v,
    run_ops os s = Ret (tt, s') ∧
    find k s' = Ret (Pos p, s') ∧
    iterator_deref (Pos p) s' = Ret ((k, v), s') ∧
    at_ k s' = Ret (v, s').
Proof.
  intros Hs Hfind Hall. pose proof (inv_wf _ (reachable_Inv _ Hs)) as Hwf.
  rewrite find_eq in Hfind by done. injection Hfind as Hpos.
  destruct (wp_elim _ _ _ (survives_run os s k p Hs Hpos Hall))
    as ([] & s' & Hrun & Hs' & Hpos').
  pose proof (inv_wf _ (reachable_Inv _ Hs')) as Hwf'.
  destruct (position_of_Pos _ _ _ Hwf' Hpos') as (Hp & n & Hn & Hkey & Ha).
  exists s', (value n). split; [done|].
  split; [by rewrite find_eq, Hpos'|].
  split.
  - rewrite (iterator_deref_eq _ _ _ Hp Hn). do 2 f_equal.
    unfold key, value in *. destruct (map_pair n). simpl in *. by subst.
  - by apply at_Ret_iff.
Qed.


(** ** Stepping an iterator *)

Lemma omap_split hp l (E1 E2 : list MapPair) (mp : MapPair) :
  (∀ p, p ∈ l → is_Some (hp !! p)) →
  omap (λ p, map_pair <$> hp !! p) l = E1 ++ mp :: E2 →
  ∃ l1 p l2 n, l = l1 ++ p :: l2 ∧ hp !! p = Some n ∧ map_pair n = mp ∧
               omap (λ p, map_pair <$> hp !! p) l1 = E1 ∧
               omap (λ p, map_pair <$> hp !! p) l2 = E2.
Proof.
  revert E1. induction l as [|q l IH]; intros E1 Hsome Heq.
  { by destruct E1. }
  destruct (Hsome q) as [nq Hnq]; [set_solver|].
  csimpl in Heq. rewrite Hnq in Heq. simpl in Heq.
  destruct E1 as [|e E1]; simpl in Heq.
  - injection Heq as Hmp HE2. exists [], q, l, nq. by rewrite Hnq.
  - injection Heq as He Heq.
    destruct (IH E1) as (l1 & p & l2 & n & -> & Hn & Hmp & H1 & H2);
      [intros; apply Hsome; set_solver|done|].
    exists (q :: l1), p, l2, n. split; [done|]. split; [done|]. split; [done|].
    split; [|done]. csimpl. rewrite Hnq. simpl. by rewrite H1, He.
Qed.

Lemma iterate_from_fuel (fuel extra : nat) : ∀ (it : iterator) s r s',
  iterate_from fuel it s = Ret (Some r, s') →
  iterate_from (fuel + extra) it s = Ret (Some r, s').
Proof.
  induction fuel as [|fuel IH]; intros it s r s' Hit; [done|].
  simpl in *. unfold bind at 1 in Hit. unfold bind at 1. simpl in *.
  destruct (decide (it = PastEnd)) as [->|Hne]; [done|].
  unfold bind at 1 in Hit. unfold bind at 1.
  destruct (iterator_deref it s) as [[mp s1]| |]; [|done..].
  unfold bind at 1 in Hit. unfold bind at 1.
  destruct (iterator_incr it s1) as [[it' s2]| |]; [|done..].
  unfold bind at 1 in Hit. unfold bind at 1.
  destruct (iterate_from fuel it' s2) as [[[r'|] s3]| |] eqn:Hrec; [|done..].
  by rewrite (IH _ _ _ _ Hrec).
Qed.

Lemma iterate_Some s (fuel : nat) (es : list MapPair) s' :
  WF s → iterate fuel s = Ret (Some es, s') → es = entries s ∧ s' = s.
Proof.
  intros Hwf Hit.
  assert (iterate (fuel + S (length (nodes_sequence s))) s = Ret (Some es, s')) as Hbig.
  { unfold iterate, bind in *. destruct (begin s) as [[b s1]| |]; [|done..].
    by apply iterate_from_fuel. }
  rewrite iterate_eq in Hbig by (done || lia). by injection Hbig as <- <-.
Qed.

(** X6.  Stepping through the map: when the loop from [begin()] to [end()]
    yields the pair [(k, v)] followed by the pairs [E2], then [find(k)]
    returns an iterator that dereferences to [(k, v)]; incrementing it,
    before or after taking its value, returns normally; the incremented
    iterator is [end()] exactly when [(k, v)] was the last pair, and is
    otherwise what [find] returns for the key of the next pair. *)
Theorem iterator_steps_through_entries s (fuel : nat) (E1 E2 : list MapPair) k v s0 :
  reachable s →
  iterate fuel s = Ret (Some (E1 ++ (k, v) :: E2), s0) →
  ∃ it it',
    find k s = Ret (it, s) ∧
    iterator_deref it s = Ret ((k, v), s) ∧
    iterator_incr it s = Ret (it', s) ∧
    iterator_post_incr it s = Ret ((it, it'), s) ∧
    iterator_ne it PastEnd = true ∧
    match E2 with
    | [] => iterator_eq it' PastEnd = true
    | (k2, _) :: _ => find k2 s = Ret (it', s) ∧ iterator_ne it' PastEnd = true
    end.
Proof.
  intros Hs Hit. pose proof (inv_wf _ (reachable_Inv _ Hs)) as Hwf.
  destruct (iterate_Some _ _ _ _ Hwf Hit) as [Hent _]. clear Hit.
  symmetry in Hent. unfold entries in Hent.
  destruct (omap_split _ _ _ _ _ (λ p, WF_is_Some s p Hwf) Hent)
    as (l1 & p & l2 & n & Hseq & Hn & Hmp & H1 & H2).
  pose proof (wf_nodup _ Hwf) as Hnd. rewrite Hseq in Hnd.
  apply NoDup_app in Hnd as (_ & Hdisj & Hnd2).
  assert (p ∉ l1) as Hp1 by (intros Hin; apply (Hdisj p Hin); set_solver).
  assert (p ∈ nodes_sequence s) as Hp by (rewrite Hseq; set_solver).
  assert (key n = k) as Hkey by (unfold key; by rewrite Hmp).
  destruct (position_of_node s p n Hwf Hp Hn) as [Hpos _]. rewrite Hkey in Hpos.
  assert (iterator_incr (Pos p) s =
          Ret (match l2 with [] => PastEnd | q :: _ => Pos q end, s)) as Hincr.
  { unfold iterator_incr, bind, gets. by rewrite Hseq, next_pos_middle. }
  exists (Pos p), (match l2 with [] => PastEnd | q :: _ => Pos q end).
  split; [by rewrite find_eq, Hpos|].
  split; [by rewrite (iterator_deref_eq _ _ _ Hp Hn), Hmp|].
  split; [done|].
  split; [unfold iterator_post_incr, bind; by rewrite Hincr|].
  split; [done|].
  destruct l2 as [|q l2]; csimpl in H2.
  { by rewrite <-H2. }
  destruct (WF_is_Some s q Hwf) as [nq Hnq]; [rewrite Hseq; set_solver|].
  rewrite Hnq in H2. simpl in H2. rewrite <-H2.
  destruct (map_pair nq) as [k2 v2] eqn:Hmq.
  assert (q ∈ nodes_sequence s) as Hq by (rewrite Hseq; set_solver).
  destruct (position_of_node s q nq Hwf Hq Hnq) as [Hposq _].
  assert (key nq = k2) as Hk2 by (unfold key; by rewrite Hmq).
  rewrite Hk2 in Hposq. split; [|done]. by rewrite find_eq, Hposq.
Qed.

(** X7.  [begin() == end()] holds exactly when [empty()] returns true, exactly
    when [size()] returns 0, and exactly when [find] returns [end()] for
    every key; otherwise [begin()] dereferences to a pair whose key [find]
    maps back to [begin()]. *)
Theorem begin_is_end_iff_empty s :
  reachable s →
  ∃ b e,
    begin s = Ret (b, s) ∧ end_ s = Ret (e, s) ∧
    (iterator_eq b e = true ↔ empty s = Ret (true, s)) ∧
    (iterator_eq b e = true ↔ size s = Ret (0, s)) ∧
    (iterator_eq b e = true ↔ ∀ k, find k s = Ret (e, s)) ∧
    (iterator_ne b e = true →
     ∃ k v, iterator_deref b s = Ret ((k, v), s) ∧ find k s = Ret (b, s)).
Proof.
  intros Hs. pose proof (reachable_Inv _ Hs) as Hinv.
  pose proof (inv_wf _ Hinv) as Hwf. pose proof (inv_sz _ Hinv) as Hsz.
  exists (match nodes_sequence s with [] => PastEnd | p :: _ => Pos p end), PastEnd.
  split; [done|]. split; [done|].
  unfold iterator_ne, iterator_eq, empty, size, bind, gets, ret.
  destruct (nodes_sequence s) as [|p l] eqn:Hseq; simpl in Hsz.
  - rewrite Hsz. simpl. repeat split; try done.
    intros _ k. apply find_end_iff; [done|]. unfold entries. by rewrite Hseq.
  - assert (sz s ≠ 0) as Hne by lia.
    rewrite bool_decide_eq_false_2 by done.
    split; [|split; [|split]].
    + split; [done|]. intros Heq. injection Heq as Heq. by apply N.eqb_eq in Heq.
    + split; [done|]. intros Heq. by injection Heq.
    + split; [done|]. intros Hall. exfalso.
      assert (p ∈ nodes_sequence s) as Hp by (rewrite Hseq; set_solver).
      destruct (WF_is_Some s p Hwf Hp) as [n Hn].
      destruct (position_of_node s p n Hwf Hp Hn) as [Hpos _].
      specialize (Hall (key n)). rewrite find_eq, Hpos in Hall by done. done.
    + intros _.
      assert (p ∈ nodes_sequence s) as Hp by (rewrite Hseq; set_solver).
      destruct (WF_is_Some s p Hwf Hp) as [n Hn].
      destruct (position_of_node s p n Hwf Hp Hn) as [Hpos _].
      exists (key n), (value n). split.
      * rewrite (iterator_deref_eq _ _ _ Hp Hn). unfold key, value.
        by destruct (map_pair n).
      * by rewrite find_eq, Hpos.
Qed.


(** ** The resize policy at rest *)

Lemma policy_fixed (n c : N) :
  (∃ e : N, c = INIT_CAPACITY * 2 ^ e) →
  n * 2 ^ 52 < MAX_LOAD_FACTOR_num * c →
  c = INIT_CAPACITY ∨ MAX_LOAD_FACTOR_num * c < n * 2 ^ 54 →
  load_factor_ge_max n c = false ∧
  (INIT_CAPACITY <? c) && load_factor_le_quarter n c = false ∧
  policy n c = c.
Proof.
  intros [e ->] Hhi Hlo.
  assert (0 < 2 ^ e) as He by (apply N.neq_0_lt_0, N.pow_nonzero; lia).
  unfold policy, load_factor_ge_max, load_factor_le_quarter.
  unfold INIT_CAPACITY, MAX_LOAD_FACTOR_num in *.
  change (2 ^ 52) with 4503599627370496 in *.
  change (2 ^ 54) with 18014398509481984 in *.
  destruct (N.eqb_spec (16 * 2 ^ e) 0) as [|_]; [lia|].
  set (c := 2 ^ e) in *.
  destruct (N.leb_spec (3152519739159347 * (16 * c)) (n * 4503599627370496)); [lia|].
  destruct (N.ltb_spec 16 (16 * c)); simpl; [|done].
  destruct (N.leb_spec (n * 18014398509481984) (3152519739159347 * (16 * c)));
    [lia|done].
Qed.

(** After the check of an insertion the capacity also suits one node less. *)
Lemma policy_insert_lo (n c : N) :
  (∃ e : N, c = INIT_CAPACITY * 2 ^ e) →
  n * 2 ^ 52 < MAX_LOAD_FACTOR_num * c →
  c = INIT_CAPACITY ∨ MAX_LOAD_FACTOR_num * c < n * 2 ^ 54 →
  (policy (n + 1) c = c ∨ policy (n + 1) c = c * 2) ∧
  (policy (n + 1) c = INIT_CAPACITY ∨
   MAX_LOAD_FACTOR_num * policy (n + 1) c < n * 2 ^ 54).
Proof.
  intros [e ->] Hhi Hlo.
  assert (0 < 2 ^ e) as He by (apply N.neq_0_lt_0, N.pow_nonzero; lia).
  unfold policy, load_factor_ge_max, load_factor_le_quarter.
  unfold INIT_CAPACITY, MAX_LOAD_FACTOR_num in *.
  change (2 ^ 52) with 4503599627370496 in *.
  change (2 ^ 54) with 18014398509481984 in *.
  destruct (N.eqb_spec (16 * 2 ^ e) 0) as [|_]; [lia|].
  set (c := 2 ^ e) in *.
  destruct (N.leb_spec (3152519739159347 * (16 * c)) ((n + 1) * 4503599627370496)).
  { lia. }
  destruct (N.ltb_spec 16 (16 * c)); simpl; [|lia].
  destruct (N.leb_spec ((n + 1) * 18014398509481984) (3152519739159347 * (16 * c)));
    lia.
Qed.

(** After the check of an erasure the capacity also suits one node more. *)
Lemma policy_erase_hi (n c : N) :
  (∃ e : N, c = INIT_CAPACITY * 2 ^ e) →
  (n + 1) * 2 ^ 52 < MAX_LOAD_FACTOR_num * c →
  c = INIT_CAPACITY ∨ MAX_LOAD_FACTOR_num * c < (n + 1) * 2 ^ 54 →
  (policy n c = c ∨ policy n c = c / 2) ∧
  (n + 1) * 2 ^ 52 < MAX_LOAD_FACTOR_num * policy n c.
Proof.
  intros [e ->] Hhi Hlo.
  assert (0 < 2 ^ e) as He by (apply N.neq_0_lt_0, N.pow_nonzero; lia).
  unfold policy, load_factor_ge_max, load_factor_le_quarter.
  unfold INIT_CAPACITY, MAX_LOAD_FACTOR_num in *.
  change (2 ^ 52) with 4503599627370496 in *.
  change (2 ^ 54) with 18014398509481984 in *.
  destruct (N.eqb_spec (16 * 2 ^ e) 0) as [|_]; [lia|].
  destruct (N.leb_spec (3152519739159347 * (16 * 2 ^ e)) (n * 4503599627370496)).
  { lia. }
  destruct (N.ltb_spec 16 (16 * 2 ^ e)) as [Hlt|]; simpl; [|lia].
  destruct (N.leb_spec (n * 18014398509481984) (3152519739159347 * (16 * 2 ^ e)));
    [|lia].
  destruct (N.eq_dec e 0) as [->|Hne]; [simpl in Hlt; lia|].
  assert (2 ^ e = 2 * 2 ^ N.pred e) as Hpow
    by (by rewrite <-N.pow_succ_r', N.succ_pred).
  assert (0 < 2 ^ N.pred e) by (apply N.neq_0_lt_0, N.pow_nonzero; lia).
  rewrite Hpow in *. set (c := 2 ^ N.pred e) in *.
  replace (16 * (2 * c)) with (16 * c * 2) in * by lia.
  rewrite N.div_mul by done. lia.
Qed.

(** X8.  Between calls the load factor is at rest: [sz / capacity] is below
    [MAX_LOAD_FACTOR], hence below 0.7; unless the capacity is the initial
    one it is above [MAX_LOAD_FACTOR / 4], and the capacity is then less than
    six times the size; so a further [check_load_factor] neither rehashes nor
    changes anything else. *)
Theorem load_factor_at_rest s :
  reachable s →
  load_factor_ge_max (sz s) (capacity s) = false ∧
  10 * sz s < 7 * capacity s ∧
  (capacity s = INIT_CAPACITY ∨
   load_factor_le_quarter (sz s) (capacity s) = false ∧ capacity s < 6 * sz s) ∧
  check_load_factor s = Ret (tt, s).
Proof.
  intros Hs. destruct (reachable_Inv _ Hs) as [Hwf Hsz Hhi Hlo].
  destruct (policy_fixed (sz s) (capacity s) (wf_capacity _ Hwf) Hhi Hlo)
    as (Hge & Hle & _).
  split; [done|]. split.
  { unfold MAX_LOAD_FACTOR_num in Hhi. change (2 ^ 52) with 4503599627370496 in Hhi. lia. }
  split.
  - destruct Hlo as [Hc|Hlo]; [by left|right]. split.
    + unfold load_factor_le_quarter.
      pose proof (WF_capacity_pos _ Hwf) as Hpos. unfold INIT_CAPACITY in Hpos.
      destruct (N.eqb_spec (capacity s) 0); [done|].
      apply N.leb_gt. done.
    + unfold MAX_LOAD_FACTOR_num in Hlo. change (2 ^ 54) with 18014398509481984 in Hlo. lia.
  - unfold check_load_factor, bind, gets. by rewrite Hge, Hle.
Qed.

(** X9.  The bucket vector is never indexed out of range: the capacity is 16
    times a power of two, the vector has [capacity] chains, [get_hash]
    returns an index below the capacity with the function object that
    [hash_function()] returns, and the chain at that index holds exactly the
    nodes of the order sequence whose key hashes to it, the node of the key
    itself among them when [find] does not return [end()]. *)
Theorem bucket_index_in_range s k :
  reachable s →
  ∃ (e h : N) (f : KeyType → N) (b : list loc) (it : iterator),
    capacity s = 16 * 2 ^ e ∧
    length (buckets s) = N.to_nat (capacity s) ∧
    hash_function s = Ret (f, s) ∧
    get_hash k s = Ret (h, s) ∧ h = f k mod capacity s ∧ h < capacity s ∧
    bucket_at h s = Ret (b, s) ∧
    (∀ p, p ∈ b ↔ p ∈ nodes_sequence s ∧
                  ∃ n, heap s !! p = Some n ∧ f (key n) mod capacity s = h) ∧
    find k s = Ret (it, s) ∧
    (∀ p, it = Pos p → p ∈ b).
Proof.
  intros Hs. pose proof (inv_wf _ (reachable_Inv _ Hs)) as Hwf.
  destruct (wf_capacity _ Hwf) as [e He].
  pose proof (WF_capacity_pos _ Hwf) as Hpos. unfold INIT_CAPACITY in Hpos.
  assert (capacity s ≠ 0) as Hne by lia.
  assert (hasher k mod capacity s < capacity s) as Hlt by (by apply N.mod_lt).
  assert (∀ p, p ∈ chain (heap s) (nodes_sequence s) (hasher k mod capacity s) ↔
               p ∈ nodes_sequence s ∧
               ∃ n, heap s !! p = Some n ∧
                    hasher (key n) mod capacity s = hasher k mod capacity s) as Hchain.
  { intros p. unfold chain. rewrite list_elem_of_filter. unfold index_of. split.
    - intros [Hi Hp]. split; [done|].
      destruct (wf_nodes _ Hwf p Hp) as (n & Hn & _ & Hb). exists n. split; [done|].
      rewrite Hn in Hi. simpl in Hi. congruence.
    - intros [Hp (n & Hn & Hh)]. split; [|done].
      destruct (wf_nodes _ Hwf p Hp) as (n' & Hn' & _ & Hb).
      rewrite Hn'. simpl. f_equal. rewrite Hb. congruence. }
  exists e, (hasher k mod capacity s), hasher,
         (chain (heap s) (nodes_sequence s) (hasher k mod capacity s)), (position_of s k).
  split; [done|]. split; [apply Hwf|]. split; [done|].
  split; [by apply get_hash_eq|]. split; [done|]. split; [done|].
  split; [by apply bucket_at_eq|]. split; [done|].
  split; [by apply find_eq|].
  intros p Hp. destruct (position_of_Pos _ _ _ Hwf Hp) as (Hin & n & Hn & Hkey & _).
  apply Hchain. split; [done|]. exists n. split; [done|]. by rewrite Hkey.
Qed.

(** X10.  The two fields a node caches are current between calls: for every
    node of the order sequence, [bucket_index] is what [get_hash] returns for
    its key now, the chain at that index exists and holds the node, and
    [sequence_pos] is the node's own cell of the sequence, which is what
    [find] returns for its key and dereferences to its pair. *)
Theorem node_caches_are_current s p :
  reachable s → p ∈ nodes_sequence s →
  ∃ n b,
    heap s !! p = Some n ∧
    get_hash (key n) s = Ret (bucket_index n, s) ∧
    bucket_at (bucket_index n) s = Ret (b, s) ∧ p ∈ b ∧
    sequence_pos n = Pos p ∧
    find (key n) s = Ret (sequence_pos n, s) ∧
    iterator_deref (sequence_pos n) s = Ret (map_pair n, s).
Proof.
  intros Hs Hp. pose proof (inv_wf _ (reachable_Inv _ Hs)) as Hwf.
  destruct (wf_nodes _ Hwf p Hp) as (n & Hn & Hpos & Hb).
  pose proof (WF_capacity_pos _ Hwf) as Hc. unfold INIT_CAPACITY in Hc.
  assert (capacity s ≠ 0) as Hne by lia.
  assert (bucket_index n < capacity s) as Hlt by (rewrite Hb; by apply N.mod_lt).
  exists n, (chain (heap s) (nodes_sequence s) (bucket_index n)).
  split; [done|]. split; [rewrite Hb; by apply get_hash_eq|].
  split; [by apply bucket_at_eq|]. split.
  { unfold chain. apply list_elem_of_filter. split; [|done]. unfold index_of. by rewrite Hn. }
  split; [done|]. rewrite Hpos. split.
  - rewrite find_eq by done. by destruct (position_of_node s p n Hwf Hp Hn) as [-> _].
  - by apply iterator_deref_eq.
Qed.


(** ** Round trips *)

Lemma iterate_reachable s :
  reachable s →
  iterate (S (length (nodes_sequence s))) s = Ret (Some (entries s), s).
Proof. intros Hs. apply iterate_eq; [apply inv_wf, reachable_Inv, Hs|lia]. Qed.

(** X11.  [insert] of an absent key followed by [erase] of that key restores
    what the map holds: the loop from [begin()] to [end()] yields the same
    pairs in the same order, [size()] is the same and [find] returns [end()]
    for the key again.  The capacity is the one the [insert] left, which is
    the old one or its double: the [erase] never shrinks what the [insert]
    has just grown. *)
Theorem insert_then_erase_restores s k v :
  reachable s → find k s = Ret (PastEnd, s) →
  ∃ s1 s2 (es : list MapPair) (m : N),
    insert (k, v) s = Ret (tt, s1) ∧
    erase k s1 = Ret (tt, s2) ∧
    iterate (S (length (nodes_sequence s))) s = Ret (Some es, s) ∧
    iterate (S (length (nodes_sequence s2))) s2 = Ret (Some es, s2) ∧
    size s = Ret (m, s) ∧ size s2 = Ret (m, s2) ∧
    find k s2 = Ret (PastEnd, s2) ∧
    capacity s2 = capacity s1 ∧
    (capacity s1 = capacity s ∨ capacity s1 = capacity s * 2).
Proof.
  intros Hs Hfind. destruct (reachable_Inv _ Hs) as [Hwf Hsz Hhi Hlo].
  assert (Inv s) as Hinv by done.
  assert (position_of s k = PastEnd) as Hpos
    by (rewrite find_eq in Hfind by done; by injection Hfind).
  assert (assoc k (entries s) = None) as Hk by (by apply find_end_iff).
  destruct (wp_elim _ _ _ (insert_absent s (k, v) Hinv Hpos))
    as ([] & s1 & Hins & Hinv1 & Hent1 & Hcap1 & Hseq1).
  assert (reachable s1) as Hs1 by (by apply (reachable_step s s1 (Insert (k, v)))).
  pose proof (inv_wf _ Hinv1) as Hwf1.
  assert (sz s1 = sz s + 1) as Hsz1.
  { rewrite (Inv_sz_entries s1), (Inv_sz_entries s), Hent1 by done. simpl. lia. }
  assert (position_of s1 k = Pos (next_loc s)) as Hpos1.
  { destruct (position_of s1 k) as [q|] eqn:Hq.
    - unfold position_of in Hq. rewrite Hseq1 in Hq. simpl in Hq.
      destruct (WF_is_Some s1 (next_loc s) Hwf1) as [n0 Hn0]; [rewrite Hseq1; set_solver|].
      rewrite Hn0 in Hq.
      unfold entries in Hent1. rewrite Hseq1 in Hent1. csimpl in Hent1.
      rewrite Hn0 in Hent1. simpl in Hent1. injection Hent1 as Hmp _.
      rewrite decide_True in Hq by (unfold key; by rewrite Hmp). by injection Hq as <-.
    - apply position_of_PastEnd in Hq; [|done]. rewrite Hent1 in Hq. simpl in Hq.
      by rewrite decide_True in Hq. }
  destruct (wp_elim _ _ _ (erase_present s1 k _ Hinv1 Hpos1))
    as ([] & s2 & Her & Hinv2 & Hent2 & Hcap2 & _).
  assert (reachable s2) as Hs2 by (by apply (reachable_step s1 s2 (Erase k))).
  assert (entries s2 = entries s) as Hent.
  { rewrite Hent2, Hent1. rewrite filter_cons_False by (simpl; by intros []).
    by apply filter_key_absent. }
  destruct (policy_insert_lo (sz s) (capacity s) (wf_capacity _ Hwf) Hhi Hlo)
    as [Hstep Hlo1].
  destruct (policy_insert_load (sz s) (capacity s) (wf_capacity _ Hwf) Hhi Hlo)
    as [Hhi1 _].
  rewrite <-Hcap1 in Hstep, Hlo1, Hhi1.
  exists s1, s2, (entries s), (sz s).
  split; [done|]. split; [done|].
  split; [by apply iterate_reachable|].
  split; [rewrite <-Hent; by apply iterate_reachable|].
  split; [done|]. split.
  { unfold size, gets. by rewrite (Inv_sz_entries s2), Hent, <-(Inv_sz_entries s). }
  split; [apply find_end_iff; [apply Hinv2|by rewrite Hent]|].
  split; [|done].
  rewrite Hcap2, Hsz1. replace (N.pred (sz s + 1)) with (sz s) by lia.
  apply policy_fixed; [apply Hwf1|lia|done].
Qed.

(** X12.  [erase] of a present key followed by [insert] of the key with the
    value it had leaves [at] returning for every key what it returned before
    and [size()] as it was; the capacity is the one the [erase] left, which
    is the old one or its half: the [insert] never grows what the [erase]
    has just shrunk. *)
Theorem erase_then_insert_rebinds s k v :
  reachable s → at_ k s = Ret (v, s) →
  ∃ s1 s2 (m : N),
    erase k s = Ret (tt, s1) ∧
    insert (k, v) s1 = Ret (tt, s2) ∧
    (∀ k' v', at_ k' s2 = Ret (v', s2) ↔ at_ k' s = Ret (v', s)) ∧
    size s = Ret (m, s) ∧ size s2 = Ret (m, s2) ∧
    capacity s2 = capacity s1 ∧
    (capacity s1 = capacity s ∨ capacity s1 = capacity s / 2).
Proof.
  intros Hs Hat. destruct (reachable_Inv _ Hs) as [Hwf Hsz Hhi Hlo].
  assert (Inv s) as Hinv by done.
  apply at_Ret_iff in Hat; [|done].
  destruct (position_of s k) as [p|] eqn:Hpos;
    [|apply position_of_PastEnd in Hpos; [congruence|done]].
  destruct (wp_elim _ _ _ (erase_present s k p Hinv Hpos))
    as ([] & s1 & Her & Hinv1 & Hent1 & Hcap1 & _).
  assert (reachable s1) as Hs1 by (by apply (reachable_step s s1 (Erase k))).
  pose proof (inv_wf _ Hinv1) as Hwf1.
  assert (S (length (entries s1)) = length (entries s)) as Hlen.
  { rewrite Hent1. apply length_filter_key; [apply Hwf|by eapply assoc_elem_of]. }
  assert (sz s = sz s1 + 1) as Hsz1.
  { rewrite (Inv_sz_entries s1), (Inv_sz_entries s) by done. lia. }
  assert (position_of s1 k = PastEnd) as Hpos1.
  { apply position_of_PastEnd; [done|]. rewrite Hent1. apply assoc_filter_ne. }
  destruct (wp_elim _ _ _ (insert_absent s1 (k, v) Hinv1 Hpos1))
    as ([] & s2 & Hins & Hinv2 & Hent2 & Hcap2 & _).
  pose proof (inv_wf _ Hinv2) as Hwf2.
  rewrite Hsz1 in Hhi, Hlo.
  destruct (policy_erase_hi (sz s1) (capacity s) (wf_capacity _ Hwf) Hhi Hlo)
    as [Hstep Hhi1].
  destruct (policy_erase_load (sz s1) (capacity s) (wf_capacity _ Hwf) Hhi Hlo)
    as [_ Hlo1].
  replace (N.pred (sz s)) with (sz s1) in Hcap1 by lia.
  rewrite <-Hcap1 in Hstep, Hlo1, Hhi1.
  exists s1, s2, (sz s).
  split; [done|]. split; [done|]. split.
  { intros k' v'. rewrite !at_Ret_iff, Hent2, Hent1 by done. simpl.
    destruct (decide (k = k')) as [<-|Hne].
    - rewrite Hat. split; congruence.
    - by rewrite assoc_filter_other. }
  split; [done|]. split.
  { unfold size, gets. do 2 f_equal.
    rewrite (Inv_sz_entries s2), Hent2, Hsz1, (Inv_sz_entries s1) by done. simpl. lia. }
  split; [|done].
  rewrite Hcap2. apply policy_fixed; [apply Hwf1|done|].
  destruct Hlo1 as [Hc|Hlo1]; [by left|right]. lia.
Qed.

(** ** The empty map *)

(** X13.  A map that [empty()] reports empty is in the state of a freshly
    constructed one, whatever calls came before: the capacity is back at the
    initial 16 and every chain is empty.  On it [clear()] and [erase] change
    nothing, [begin()] is [end()], and [at] throws for every key. *)
Theorem empty_map_is_initial s :
  reachable s → empty s = Ret (true, s) →
  capacity s = INIT_CAPACITY ∧
  buckets s = replicate 16 [] ∧
  nodes_sequence s = [] ∧
  clear s = Ret (tt, s) ∧
  begin s = Ret (PastEnd, s) ∧
  ∀ k, erase k s = Ret (tt, s) ∧
       find k s = Ret (PastEnd, s) ∧
       at_ k s = Throw (out_of_range "no such key").
Proof.
  intros Hs Hempty. destruct (reachable_Inv _ Hs) as [Hwf Hsz Hhi Hlo].
  assert (Inv s) as Hinv by done.
  unfold empty, bind, gets, ret in Hempty. injection Hempty as Hz.
  apply N.eqb_eq in Hz.
  assert (nodes_sequence s = []) as Hseq.
  { rewrite Hz in Hsz. destruct (nodes_sequence s); [done|simpl in Hsz; lia]. }
  assert (capacity s = INIT_CAPACITY) as Hcap.
  { destruct Hlo as [Hc|Hlo]; [done|]. rewrite Hz in Hlo. lia. }
  assert (buckets s = replicate 16 []) as Hb.
  { rewrite (buckets_eq_chains s Hwf), Hseq, Hcap.
    change (N.to_nat INIT_CAPACITY) with 16%nat. done. }
  assert (∀ k, position_of s k = PastEnd) as Hpos.
  { intros k. unfold position_of. by rewrite Hseq. }
  split; [done|]. split; [done|]. split; [done|]. split.
  { destruct (wp_elim _ _ _ (clear_spec s Hinv)) as ([] & s' & Hclear & ->).
    rewrite Hclear. do 2 f_equal. destruct s; simpl in *. by subst. }
  split; [unfold begin, bind, gets; by rewrite Hseq|].
  intros k. split; [by apply erase_absent|].
  split; [by rewrite find_eq, Hpos|].
  rewrite at_eq by done. unfold entries. by rewrite Hseq.
Qed.


(** ** The range and the initializer-list constructors *)

Lemma spec_inserts_assoc (l : list MapPair) : ∀ (st : list MapPair * N) k,
  assoc k (spec_run (Insert <$> l) st).1 =
  match assoc k st.1 with Some v => Some v | None => assoc k l end.
Proof.
  induction l as [|[k0 v0] l IH]; intros st k; csimpl.
  { by destruct (assoc k st.1). }
  rewrite IH. unfold spec_insert. simpl.
  destruct (assoc k0 st.1) as [v1|] eqn:Hk0; simpl.
  - destruct (assoc k st.1) eqn:Hk; [done|].
    rewrite decide_False; [done|]. intros ->. congruence.
  - destruct (decide (k0 = k)) as [->|Hne]; [by rewrite Hk0|done].
Qed.

Lemma spec_inserts_distinct (l : list MapPair) : ∀ (st : list MapPair * N),
  NoDup l.*1 → (∀ k, k ∈ l.*1 → assoc k st.1 = None) →
  (spec_run (Insert <$> l) st).1 = reverse l ++ st.1.
Proof.
  induction l as [|[k0 v0] l IH]; intros st Hnd Hfresh; csimpl; [done|].
  apply NoDup_cons in Hnd as [Hk0 Hnd].
  rewrite spec_insert_absent by (apply Hfresh; set_solver).
  rewrite IH; [by rewrite reverse_cons, <-app_assoc| done |].
  intros k Hk. simpl. rewrite decide_False by (intros ->; done).
  apply Hfresh. set_solver.
Qed.

(** X14.  The range constructor and the initializer-list constructor return
    normally for every list of pairs, with the same object.  Of the pairs
    with equal keys the first one wins: [at(k)] returns the value of the
    first pair of the list with key [k] and throws when there is none;
    [size()] is the number of distinct keys of the list; and when the keys of
    the list are distinct the loop from [begin()] to [end()] yields the list
    in reverse. *)
Theorem range_constructor_first_wins (l : list MapPair) :
  ∃ s,
    new_from_range l = Ret (tt, s) ∧
    new_from_initializer_list l = Ret (tt, s) ∧
    reachable s ∧
    (∀ k, at_ k s = match assoc k l with
                    | Some v => Ret (v, s)
                    | None => Throw (out_of_range "no such key")
                    end) ∧
    size s = Ret (N.of_nat (length (remove_dups l.*1)), s) ∧
    (NoDup l.*1 → iterate (S (length l)) s = Ret (Some (reverse l), s)).
Proof.
  destruct (wp_elim _ _ _ (run_ops_refines (Insert <$> l) new reachable_new))
    as ([] & s & Hrun & Hs & Habs).
  pose proof (reachable_Inv _ Hs) as Hinv. pose proof (inv_wf _ Hinv) as Hwf.
  assert (entries s = (spec_run (Insert <$> l) ([], INIT_CAPACITY)).1) as Hent.
  { change (entries s) with (abs s).1. by rewrite Habs. }
  assert (∀ k, assoc k (entries s) = assoc k l) as Hassoc.
  { intros k. by rewrite Hent, spec_inserts_assoc. }
  exists s. unfold new_from_initializer_list. rewrite new_from_range_eq.
  split; [done|]. split; [done|]. split; [done|]. split; [|split].
  - intros k. by rewrite at_eq, Hassoc.
  - rewrite size_eq by done. do 3 f_equal.
    rewrite <-(length_fmap fst). apply Permutation_length, NoDup_Permutation.
    + apply Hwf.
    + apply NoDup_remove_dups.
    + intros k. rewrite elem_of_remove_dups.
      split.
      * intros Hk. destruct (assoc k l) as [v|] eqn:Hal.
        { by eapply assoc_elem_of. }
        apply assoc_None in Hk; [done|]. by rewrite Hassoc.
      * intros Hk. destruct (assoc k (entries s)) as [v|] eqn:Hae.
        { by eapply assoc_elem_of. }
        rewrite Hassoc in Hae. by apply assoc_None in Hae.
  - intros Hnd.
    assert (entries s = reverse l) as Hrev.
    { rewrite Hent, spec_inserts_distinct by done. by rewrite app_nil_r. }
    rewrite <-Hrev. apply iterate_eq; [done|].
    rewrite <-(length_entries s), Hrev, length_reverse by done. lia.
Qed.


(** ** What a rehash and an erasure do to iterators and references *)



Lemma next_pos_None p l : p ∉ l → next_pos p l = None.
Proof.
  induction l as [|q l IH]; intros Hp; simpl; [done|].
  rewrite decide_False by set_solver. apply IH. set_solver.
Qed.

(** X16.  [erase(k)] invalidates the iterators to the entry of [k] and no
    others: the cell an iterator from [find(k)] refers to is no longer in
    the order sequence, so that dereferencing or incrementing it is
    undefined, while an iterator that [find] returned for another key is
    still what [find] returns for that key and dereferences to the same
    pair. *)
Theorem erase_invalidates_only_its_iterator s k p :
  reachable s → find k s = Ret (Pos p, s) →
  ∃ s',
    erase k s = Ret (tt, s') ∧
    iterator_deref (Pos p) s' = Undefined ∧
    iterator_incr (Pos p) s' = Undefined ∧
    ∀ k' p', k' ≠ k → find k' s = Ret (Pos p', s) →
      find k' s' = Ret (Pos p', s') ∧
      ∃ mp, iterator_deref (Pos p') s = Ret (mp, s) ∧
            iterator_deref (Pos p') s' = Ret (mp, s').
Proof.
  intros Hs Hfind. pose proof (reachable_Inv _ Hs) as Hinv.
  pose proof (inv_wf _ Hinv) as Hwf.
  rewrite find_eq in Hfind by done. injection Hfind as Hpos.
  destruct (wp_elim _ _ _ (erase_present s k p Hinv Hpos))
    as ([] & s' & Her & Hinv' & Hent & _ & _ & l1 & l2 & Hseq & Hseq').
  pose proof (inv_wf _ Hinv') as Hwf'.
  pose proof (wf_nodup _ Hwf) as Hnd. rewrite Hseq in Hnd.
  apply NoDup_app in Hnd as (_ & Hdisj & Hnd2).
  apply NoDup_cons in Hnd2 as [Hp2 _].
  assert (p ∉ nodes_sequence s') as Hp.
  { rewrite Hseq'. intros [Hin|Hin]%elem_of_app; [|done]. apply (Hdisj p Hin). set_solver. }
  exists s'. split; [done|]. split.
  { unfold iterator_deref, bind, gets. by rewrite decide_False. }
  split.
  { unfold iterator_incr, bind, gets. by rewrite next_pos_None. }
  intros k' p' Hne Hfind'. rewrite find_eq in Hfind' by done. injection Hfind' as Hpos'.
  assert (position_of s' k' = Pos p') as Hpos''.
  { apply (position_after_unlink s s' l1 l2 p k); done. }
  split; [by rewrite find_eq, Hpos''|].
  destruct (position_of_Pos _ _ _ Hwf Hpos') as (Hin & n & Hn & Hkey & Ha).
  destruct (position_of_Pos _ _ _ Hwf' Hpos'') as (Hin' & n' & Hn' & Hkey' & Ha').
  exists (map_pair n). split; [by apply iterator_deref_eq|].
  rewrite (iterator_deref_eq _ _ _ Hin' Hn'). do 2 f_equal.
  assert (value n' = value n) as Hv.
  { rewrite Hent, assoc_filter_other in Ha' by done. congruence. }
  unfold key, value in *. destruct (map_pair n), (map_pair n'). simpl in *. congruence.
Qed.

(** X17.  A reference obtained from [m[k]] stays usable across calls: after
    any sequence of [insert], [operator[]], assignments and [erase] of other
    keys, whatever rehashes they trigger, [m[k]] returns the same reference
    without inserting, reading through the reference obtained before the
    calls gives what [at(k)] returns now, and a value written through it is
    what [at(k)] returns afterwards. *)
Theorem reference_stays_valid s k r s1 (os : list op) w :
  reachable s → operator_index k s = Ret (r, s1) →
  forallb (survives k) os = true →
  ∃ s2 s3 v,
    run_ops os s1 = Ret (tt, s2) ∧
    operator_index k s2 = Ret (r, s2) ∧
    read_ref r s2 = Ret (v, s2) ∧
    at_ k s2 = Ret (v, s2) ∧
    write_ref r w s2 = Ret (tt, s3) ∧
    at_ k s3 = Ret (w, s3).
Proof.
  intros Hs Hop Hall. pose proof (reachable_Inv _ Hs) as Hinv.
  destruct (wp_elim _ _ _ (operator_index_refines s k Hinv))
    as (r' & s1' & Hop' & Hinv1 & _ & Hr & n & Hn & Hkey).
  rewrite Hop in Hop'. injection Hop' as <- <-.
  pose proof (inv_wf _ Hinv1) as Hwf1.
  assert (reachable s1) as Hs1.
  { apply (reachable_step s s1 (Index k)); [done|].
    simpl. unfold bind at 1. rewrite Hop. unfold bind. by rewrite (read_ref_eq _ _ _ Hn). }
  destruct (position_of_node s1 r n Hwf1 Hr Hn) as [Hpos _]. rewrite Hkey in Hpos.
  destruct (wp_elim _ _ _ (survives_run os s1 k r Hs1 Hpos Hall))
    as ([] & s2 & Hrun & Hs2 & Hpos2).
  pose proof (reachable_Inv _ Hs2) as Hinv2. pose proof (inv_wf _ Hinv2) as Hwf2.
  destruct (position_of_Pos _ _ _ Hwf2 Hpos2) as (Hr2 & n2 & Hn2 & Hkey2 & Ha2).
  destruct (wp_elim _ _ _ (write_ref_spec s2 r w n2 Hinv2 Hr2 Hn2))
    as ([] & s3 & Hwr & Hinv3 & Hent3 & _).
  exists s2, s3, (value n2).
  split; [done|]. split; [by apply operator_index_present|].
  split; [by apply read_ref_eq|]. split; [by apply at_Ret_iff|].
  split; [done|].
  apply at_Ret_iff; [apply Hinv3|]. by rewrite Hent3, Hkey2, assoc_assign_eq, Ha2.
Qed.

End Proofs.

(** * The claims on the concrete instance *)

Import Example.

(** C3.  After any sequence of [insert], [erase], [operator[]] (and [clear])
    calls on a freshly constructed map, the loop from [begin()] to [end()]
    terminates and yields the entries of the specification's order sequence,
    in which every newly inserted entry is put in front of the older ones and
    an erased entry is taken out; the pairs it yields are exactly the
    bindings that [at] returns.  Call by call, on every reachable object: the
    loop after an [insert] of an absent key yields the new pair followed by
    what it yielded before, and the loop after an [erase] yields what it
    yielded before without the pair of the erased key.  In particular, after
    inserting [(1, "a")], [(2, "b")], [(3, "c")] in this order the loop
    yields [(3, "c")], [(2, "b")], [(1, "a")]. *)
Theorem iteration_most_recent_first :
  (∀ (KeyType : Type) (EqDec : EqDecision KeyType) (H : Hash KeyType)
     (ValueType : Type) (D : DefaultConstructible ValueType)
     (os : list (op KeyType ValueType)),
     ∃ s, run_ops os new = Ret (tt, s) ∧
          (∀ extra : nat,
             iterate (S (length (nodes_sequence s)) + extra) s =
             Ret (Some (spec_run os ([], INIT_CAPACITY)).1, s)) ∧
          (∀ k v, (k, v) ∈ (spec_run os ([], INIT_CAPACITY)).1 ↔
                  at_ k s = Ret (v, s))) ∧
  (∀ (KeyType : Type) (EqDec : EqDecision KeyType) (H : Hash KeyType)
     (ValueType : Type) (D : DefaultConstructible ValueType)
     (s : t KeyType ValueType) (k : KeyType) (v : ValueType),
     reachable s →
     ∃ l s1 s2,
       iterate (S (length (nodes_sequence s))) s = Ret (Some l, s) ∧
       erase k s = Ret (tt, s1) ∧
       iterate (S (length (nodes_sequence s1))) s1 =
         Ret (Some (filter (λ kv, kv.1 ≠ k) l), s1) ∧
       insert (k, v) s1 = Ret (tt, s2) ∧
       iterate (S (length (nodes_sequence s2))) s2 =
         Ret (Some ((k, v) :: filter (λ kv, kv.1 ≠ k) l), s2)) ∧
  (∃ s : t N string,
     run_ops abc new = Ret (tt, s) ∧
     iterate 4 s = Ret (Some [(3, "c"); (2, "b"); (1, "a")], s)).
Proof.
  split; [|split].
  - intros KeyType EqDec H ValueType D os.
    destruct (iteration_refines_spec os) as (s & Hrun & Hit & Hat).
    exists s. split; [done|]. split; [|done].
    intros extra. apply Hit. lia.
  - intros KeyType EqDec H ValueType D s k v Hs.
    destruct (entries_after_erase s k Hs) as (s1 & Her & Hs1 & Hent1).
    assert (find k s1 = Ret (PastEnd, s1)) as Hfind.
    { apply find_end_iff; [apply inv_wf, reachable_Inv, Hs1|].
      rewrite Hent1. apply assoc_filter_ne. }
    destruct (entries_after_insert s1 k v Hs1 Hfind) as (s2 & Hins & Hs2 & Hent2).
    exists (entries s), s1, s2.
    pose proof (iterate_entries s 0 Hs) as Hit.
    pose proof (iterate_entries s1 0 Hs1) as Hit1.
    pose proof (iterate_entries s2 0 Hs2) as Hit2.
    rewrite Nat.add_0_r in Hit, Hit1, Hit2.
    split; [done|]. split; [done|]. split; [by rewrite <-Hent1|].
    split; [done|]. by rewrite <-Hent1, <-Hent2.
  - eexists. split; vm_compute; reflexivity.
Qed.

Lemma iteration_most_recent_first_witness :
  ∃ s : t N string,
    run_ops [Insert (1, "a"); Insert (2, "b"); Erase 1; Index 7] new = Ret (tt, s) ∧
    iterate (S (length (nodes_sequence s)) + 0) s = Ret (Some [(7, ""); (2, "b")], s).
Proof.
  destruct (proj1 iteration_most_recent_first N _ _ string _
              [Insert (1, "a"); Insert (2, "b"); Erase 1; Index 7])
    as (s & Hrun & Hit & _).
  exists s. split; [exact Hrun|]. exact (Hit O).
Defined.

Lemma reachable_after (os : list (op N string)) s :
  run_ops os new = Ret (tt, s) → reachable s.
Proof. apply reachable_run_ops, reachable_new. Qed.


Lemma reachable_structure_witness :
  reachable (after twelve) ∧
  size (after twelve) = Ret (12, after twelve) ∧
  length (nodes_sequence (after twelve)) = sum_list_with length (buckets (after twelve)).
Proof.
  assert (reachable (after twelve)) as Hs
    by (apply (reachable_after twelve); vm_compute; reflexivity).
  split; [exact Hs|].
  destruct (reachable_structure (after twelve) Hs) as (Hsize & Hsum & _).
  split; [exact Hsize|exact Hsum].
Defined.

Lemma grows_at_twelfth_insert_witness :
  NoDup twelve_pairs.*1 ∧ length twelve_pairs = 12%nat ∧ (12 ≤ 12)%nat ∧
  ∃ s, run_ops (Insert <$> take 12 twelve_pairs) new = Ret (tt, s) ∧
       size s = Ret (12, s) ∧
       capacity s = 32 ∧
       ∀ k v, (k, v) ∈ take 12 twelve_pairs → at_ k s = Ret (v, s).
Proof.
  assert (NoDup twelve_pairs.*1) as Hnd
    by (apply (bool_decide_unpack _); vm_compute; exact I).
  split; [exact Hnd|]. split; [vm_compute; reflexivity|]. split; [lia|].
  apply (grows_at_twelfth_insert twelve_pairs 12 Hnd); [vm_compute; reflexivity|lia].
Defined.

Lemma shrinks_at_five_entries_witness :
  reachable (after twelve) ∧
  size (after twelve) = Ret (12, after twelve) ∧
  capacity (after twelve) = 32 ∧
  NoDup [1; 2; 3; 4; 5; 6; 7] ∧
  Forall (λ k, find k (after twelve) ≠ Ret (PastEnd, after twelve)) [1; 2; 3; 4; 5; 6; 7] ∧
  ∃ s', run_ops (Erase <$> take 7 [1; 2; 3; 4; 5; 6; 7]) (after twelve) = Ret (tt, s') ∧
        size s' = Ret (12 - 7, s') ∧
        capacity s' = 16 ∧
        ∀ k v, k ∉ take 7 [1; 2; 3; 4; 5; 6; 7] →
               at_ k (after twelve) = Ret (v, after twelve) → at_ k s' = Ret (v, s').
Proof.
  assert (reachable (after twelve)) as Hs
    by (apply (reachable_after twelve); vm_compute; reflexivity).
  assert (NoDup [1; 2; 3; 4; 5; 6; 7]) as Hnd
    by (apply (bool_decide_unpack _); vm_compute; exact I).
  assert (Forall (λ k, find k (after twelve) ≠ Ret (PastEnd, after twelve))
                 [1; 2; 3; 4; 5; 6; 7]) as Hpres
    by (repeat constructor; vm_compute; discriminate).
  split; [exact Hs|]. split; [vm_compute; reflexivity|]. split; [vm_compute; reflexivity|].
  split; [exact Hnd|]. split; [exact Hpres|].
  apply (shrinks_at_five_entries (after twelve) [1; 2; 3; 4; 5; 6; 7] 7 Hs);
    [vm_compute; reflexivity|vm_compute; reflexivity|exact Hnd|vm_compute; reflexivity|exact Hpres|lia].
Defined.

Lemma insert_twice_noop_witness :
  reachable (after abc) ∧
  ∃ s1, insert (4, "d") (after abc) = Ret (tt, s1) ∧
        insert (4, "e") s1 = Ret (tt, s1) ∧
        (find 4 (after abc) = Ret (PastEnd, after abc) → at_ 4 s1 = Ret ("d", s1)) ∧
        (find 4 (after abc) ≠ Ret (PastEnd, after abc) → s1 = after abc).
Proof.
  assert (reachable (after abc)) as Hs by (apply (reachable_after abc); vm_compute; reflexivity).
  split; [exact Hs|]. apply (insert_twice_noop (after abc) 4 "d" "e" Hs).
Defined.

Lemma only_at_signals_witness :
  reachable (after abc) ∧
  (at_ 2 (after abc) = Throw (out_of_range "no such key") ↔
   find 2 (after abc) = Ret (PastEnd, after abc)) ∧
  ∃ s', erase 2 (after abc) = Ret (tt, s') ∧
        find 2 s' = Ret (PastEnd, s') ∧
        at_ 2 s' = Throw (out_of_range "no such key").
Proof.
  assert (reachable (after abc)) as Hs by (apply (reachable_after abc); vm_compute; reflexivity).
  split; [exact Hs|].
  destruct (only_at_signals (after abc) 2 Hs) as (_ & _ & Hat & _ & _ & Herase).
  split; [exact Hat|exact Herase].
Defined.

Lemma clear_resets_witness :
  reachable (after twelve) ∧
  ∃ s', clear (after twelve) = Ret (tt, s') ∧
        nodes_sequence s' = [] ∧
        size s' = Ret (0, s') ∧
        capacity s' = 16.
Proof.
  assert (reachable (after twelve)) as Hs
    by (apply (reachable_after twelve); vm_compute; reflexivity).
  split; [exact Hs|].
  destruct (clear_resets (after twelve) Hs) as (s' & Hclear & Hseq & Hsize & _ & Hcap & _).
  exists s'. split; [exact Hclear|]. split; [exact Hseq|]. split; [exact Hsize|exact Hcap].
Defined.

Lemma chains_follow_sequence_witness :
  reachable (after twelve) ∧
  ∀ (j : nat) b, buckets (after twelve) !! j = Some b →
    b = filter (λ p, index_of (heap (after twelve)) p = Some (N.of_nat j))
               (nodes_sequence (after twelve)) ∧
    (b `sublist_of` nodes_sequence (after twelve)).
Proof.
  assert (reachable (after twelve)) as Hs
    by (apply (reachable_after twelve); vm_compute; reflexivity).
  split; [exact Hs|]. exact (proj1 (chains_follow_sequence (after twelve) Hs)).
Defined.

Lemma rehash_moves_node_to_tail_witness :
  WF (with_sz (λ n, n + 1) (after eleven)) ∧
  (∃ e : N, 32 = INIT_CAPACITY * 2 ^ e) ∧
  nodes_sequence (with_sz (λ n, n + 1) (after eleven)) =
    [10; 9; 8; 7; 6; 5; 4; 3; 2; 1]%nat ++ 0%nat :: [] ∧
  ∃ n s1 s2,
    heap (with_sz (λ n, n + 1) (after eleven)) !! 0%nat = Some n ∧
    bind (modify (with_buckets (list.resize (N.to_nat 32) [])))
         (λ _, for_each [10; 9; 8; 7; 6; 5; 4; 3; 2; 1]%nat rehash_body)
         (with_capacity (λ _, 32) (with_sz (λ n, n + 1) (after eleven))) = Ret (tt, s1) ∧
    rehash_body 0%nat s1 = Ret (tt, s2) ∧
    ∃ b, buckets s2 !! N.to_nat (hasher (key n) mod 32) = Some (b ++ [0%nat]).
Proof.
  assert (WF (with_sz (λ n, n + 1) (after eleven))) as Hwf.
  { apply WF_with_sz, inv_wf, reachable_Inv, (reachable_after eleven).
    vm_compute. reflexivity. }
  assert (∃ e : N, 32 = INIT_CAPACITY * 2 ^ e) as Hpow by (exists 1; reflexivity).
  assert (nodes_sequence (with_sz (λ n, n + 1) (after eleven)) =
          [10; 9; 8; 7; 6; 5; 4; 3; 2; 1]%nat ++ 0%nat :: []) as Hseq
    by (vm_compute; reflexivity).
  split; [exact Hwf|]. split; [exact Hpow|]. split; [exact Hseq|].
  destruct (rehash_moves_node_to_tail (with_sz (λ n, n + 1) (after eleven)) 32
              [10; 9; 8; 7; 6; 5; 4; 3; 2; 1]%nat [] 0%nat Hwf Hpow Hseq)
    as (n & s1 & s2 & s' & Hn & Hrun1 & _ & _ & Hrun2 & _ & Htail & _).
  exists n, s1, s2. split; [exact Hn|]. split; [exact Hrun1|]. split; [exact Hrun2|].
  exact Htail.
Defined.

(** C8 as the specification words it fails: when the twelfth insert rehashes
    the colliding keys 0 and 32 to capacity 32, the node of key 0 (pointer 0),
    visited after the node of key 32 (pointer 1), ends behind it in chain 0;
    it is not at the head of its new chain. *)
Lemma rehash_not_at_head :
  ∃ s1 s2,
    bind (modify (with_buckets (list.resize (N.to_nat 32) [])))
         (λ _, for_each [10; 9; 8; 7; 6; 5; 4; 3; 2; 1]%nat rehash_body)
         before_rehash = Ret (tt, s1) ∧
    rehash_body 0%nat s1 = Ret (tt, s2) ∧
    buckets s2 !! 0%nat = Some [1; 0]%nat ∧
    ¬ inserted_at_head 0%nat s2.
Proof.
  eexists _, _. split; [vm_compute; reflexivity|]. split; [vm_compute; reflexivity|].
  split; [vm_compute; reflexivity|].
  intros (n & b & Hn & Hb). vm_compute in Hn. injection Hn as <-.
  vm_compute in Hb. discriminate Hb.
Qed.

(** * The further properties on the concrete instance *)

Lemma insert_adds_one_binding_witness :
  reachable (after abc) ∧
  find 5 (after abc) = Ret (PastEnd, after abc) ∧
  ∃ (m : N) s',
    size (after abc) = Ret (m, after abc) ∧
    insert (5, "e") (after abc) = Ret (tt, s') ∧
    size s' = Ret (m + 1, s') ∧
    empty s' = Ret (false, s') ∧
    at_ 5 s' = Ret ("e", s').
Proof.
  assert (reachable (after abc)) as Hs
    by (apply (reachable_after abc); vm_compute; reflexivity).
  assert (find 5 (after abc) = Ret (PastEnd, after abc)) as Hfind
    by (vm_compute; reflexivity).
  split; [exact Hs|]. split; [exact Hfind|].
  destruct (insert_adds_one_binding (after abc) 5 "e" Hs Hfind)
    as (m & s' & Hsize & Hins & Hsize' & Hempty & Hat & _).
  exists m, s'. exact (conj Hsize (conj Hins (conj Hsize' (conj Hempty Hat)))).
Defined.

Lemma erase_removes_one_binding_witness :
  reachable (after abc) ∧
  find 2 (after abc) ≠ Ret (PastEnd, after abc) ∧
  ∃ (m : N) s',
    size (after abc) = Ret (m, after abc) ∧ 0 < m ∧
    erase 2 (after abc) = Ret (tt, s') ∧
    size s' = Ret (m - 1, s').
Proof.
  assert (reachable (after abc)) as Hs
    by (apply (reachable_after abc); vm_compute; reflexivity).
  assert (find 2 (after abc) ≠ Ret (PastEnd, after abc)) as Hfind
    by (vm_compute; discriminate).
  split; [exact Hs|]. split; [exact Hfind|].
  destruct (erase_removes_one_binding (after abc) 2 Hs Hfind)
    as (m & s' & Hsize & Hpos & Her & Hsize' & _).
  exists m, s'. exact (conj Hsize (conj Hpos (conj Her Hsize'))).
Defined.

Lemma operator_index_is_find_or_insert_witness :
  reachable (after abc) ∧
  ∃ r s' v,
    operator_index 7 (after abc) = Ret (r, s') ∧
    insert (7, ValueType_default) (after abc) = Ret (tt, s') ∧
    read_ref r s' = Ret (v, s') ∧
    at_ 7 s' = Ret (v, s').
Proof.
  assert (reachable (after abc)) as Hs
    by (apply (reachable_after abc); vm_compute; reflexivity).
  split; [exact Hs|].
  destruct (operator_index_is_find_or_insert (after abc) 7 Hs)
    as (r & s' & v & Hop & Hins & Hread & Hat & _).
  exists r, s', v. exact (conj Hop (conj Hins (conj Hread Hat))).
Defined.

Lemma assignment_through_index_witness :
  reachable (after abc) ∧
  ∃ r s1 s',
    operator_index 2 (after abc) = Ret (r, s1) ∧
    write_ref r "z" s1 = Ret (tt, s') ∧
    read_ref r s' = Ret ("z", s') ∧
    at_ 2 s' = Ret ("z", s').
Proof.
  assert (reachable (after abc)) as Hs
    by (apply (reachable_after abc); vm_compute; reflexivity).
  split; [exact Hs|].
  destruct (assignment_through_index (after abc) 2 "z" Hs)
    as (r & s1 & s' & es & m & Hop & Hwr & Hread & Hat & _).
  exists r, s1, s'. exact (conj Hop (conj Hwr (conj Hread Hat))).
Defined.

Lemma iterator_stays_valid_witness :
  reachable (after eleven) ∧
  find 5 (after eleven) = Ret (Pos 6%nat, after eleven) ∧
  forallb (survives 5) [Insert (10, "ten"); Erase 0; Assign 5 "z"; Index 40] = true ∧
  ∃ s' v,
    run_ops [Insert (10, "ten"); Erase 0; Assign 5 "z"; Index 40] (after eleven) =
      Ret (tt, s') ∧
    find 5 s' = Ret (Pos 6%nat, s') ∧
    iterator_deref (Pos 6%nat) s' = Ret ((5, v), s') ∧
    at_ 5 s' = Ret (v, s').
Proof.
  assert (reachable (after eleven)) as Hs
    by (apply (reachable_after eleven); vm_compute; reflexivity).
  split; [exact Hs|]. split; [vm_compute; reflexivity|]. split; [vm_compute; reflexivity|].
  apply (iterator_stays_valid (after eleven) 5 6%nat
           [Insert (10, "ten"); Erase 0; Assign 5 "z"; Index 40] Hs);
    vm_compute; reflexivity.
Defined.

Lemma iterator_steps_through_entries_witness :
  reachable (after abc) ∧
  iterate 4 (after abc) = Ret (Some ([(3, "c")] ++ (2, "b") :: [(1, "a")]), after abc) ∧
  ∃ it it',
    find 2 (after abc) = Ret (it, after abc) ∧
    iterator_deref it (after abc) = Ret ((2, "b"), after abc) ∧
    iterator_incr it (after abc) = Ret (it', after abc) ∧
    iterator_post_incr it (after abc) = Ret ((it, it'), after abc) ∧
    iterator_ne it PastEnd = true ∧
    find 1 (after abc) = Ret (it', after abc) ∧ iterator_ne it' PastEnd = true.
Proof.
  assert (reachable (after abc)) as Hs
    by (apply (reachable_after abc); vm_compute; reflexivity).
  split; [exact Hs|]. split; [vm_compute; reflexivity|].
  apply (iterator_steps_through_entries (after abc) 4 [(3, "c")] [(1, "a")] 2 "b"
           (after abc) Hs).
  vm_compute; reflexivity.
Defined.

Lemma begin_is_end_iff_empty_witness :
  reachable (after abc) ∧
  ∃ b e,
    begin (after abc) = Ret (b, after abc) ∧ end_ (after abc) = Ret (e, after abc) ∧
    (iterator_eq b e = true ↔ empty (after abc) = Ret (true, after abc)).
Proof.
  assert (reachable (after abc)) as Hs
    by (apply (reachable_after abc); vm_compute; reflexivity).
  split; [exact Hs|].
  destruct (begin_is_end_iff_empty (after abc) Hs) as (b & e & Hb & He & Hiff & _).
  exists b, e. exact (conj Hb (conj He Hiff)).
Defined.

Lemma load_factor_at_rest_witness :
  reachable (after twelve) ∧
  load_factor_ge_max (sz (after twelve)) (capacity (after twelve)) = false ∧
  10 * sz (after twelve) < 7 * capacity (after twelve) ∧
  check_load_factor (after twelve) = Ret (tt, after twelve).
Proof.
  assert (reachable (after twelve)) as Hs
    by (apply (reachable_after twelve); vm_compute; reflexivity).
  split; [exact Hs|].
  destruct (load_factor_at_rest (after twelve) Hs) as (Hge & Hlt & _ & Hcheck).
  exact (conj Hge (conj Hlt Hcheck)).
Defined.

Lemma bucket_index_in_range_witness :
  reachable (after twelve) ∧
  ∃ (e h : N) (b : list loc),
    capacity (after twelve) = 16 * 2 ^ e ∧
    get_hash 32 (after twelve) = Ret (h, after twelve) ∧ h < capacity (after twelve) ∧
    bucket_at h (after twelve) = Ret (b, after twelve).
Proof.
  assert (reachable (after twelve)) as Hs
    by (apply (reachable_after twelve); vm_compute; reflexivity).
  split; [exact Hs|].
  destruct (bucket_index_in_range (after twelve) 32 Hs)
    as (e & h & f & b & it & Hcap & _ & _ & Hh & _ & Hlt & Hb & _).
  exists e, h, b. exact (conj Hcap (conj Hh (conj Hlt Hb))).
Defined.

Lemma node_caches_are_current_witness :
  reachable (after twelve) ∧ 1%nat ∈ nodes_sequence (after twelve) ∧
  ∃ n b,
    heap (after twelve) !! 1%nat = Some n ∧
    get_hash (key n) (after twelve) = Ret (bucket_index n, after twelve) ∧
    bucket_at (bucket_index n) (after twelve) = Ret (b, after twelve) ∧ 1%nat ∈ b ∧
    sequence_pos n = Pos 1%nat.
Proof.
  assert (reachable (after twelve)) as Hs
    by (apply (reachable_after twelve); vm_compute; reflexivity).
  assert (1%nat ∈ nodes_sequence (after twelve)) as Hin
    by (apply (bool_decide_unpack _); vm_compute; exact I).
  split; [exact Hs|]. split; [exact Hin|].
  destruct (node_caches_are_current (after twelve) 1%nat Hs Hin)
    as (n & b & Hn & Hh & Hb & Hp & Hpos & _).
  exists n, b. exact (conj Hn (conj Hh (conj Hb (conj Hp Hpos)))).
Defined.

Lemma insert_then_erase_restores_witness :
  reachable (after eleven) ∧
  find 10 (after eleven) = Ret (PastEnd, after eleven) ∧
  ∃ s1 s2 (es : list (N * string)),
    insert (10, "ten") (after eleven) = Ret (tt, s1) ∧
    erase 10 s1 = Ret (tt, s2) ∧
    iterate (S (length (nodes_sequence (after eleven)))) (after eleven) =
      Ret (Some es, after eleven) ∧
    iterate (S (length (nodes_sequence s2))) s2 = Ret (Some es, s2) ∧
    capacity s2 = capacity s1.
Proof.
  assert (reachable (after eleven)) as Hs
    by (apply (reachable_after eleven); vm_compute; reflexivity).
  assert (find 10 (after eleven) = Ret (PastEnd, after eleven)) as Hfind
    by (vm_compute; reflexivity).
  split; [exact Hs|]. split; [exact Hfind|].
  destruct (insert_then_erase_restores (after eleven) 10 "ten" Hs Hfind)
    as (s1 & s2 & es & m & Hins & Her & Hit & Hit2 & _ & _ & _ & Hcap & _).
  exists s1, s2, es. exact (conj Hins (conj Her (conj Hit (conj Hit2 Hcap)))).
Defined.

Lemma erase_then_insert_rebinds_witness :
  reachable (after abc) ∧
  at_ 2 (after abc) = Ret ("b", after abc) ∧
  ∃ s1 s2 (m : N),
    erase 2 (after abc) = Ret (tt, s1) ∧
    insert (2, "b") s1 = Ret (tt, s2) ∧
    size (after abc) = Ret (m, after abc) ∧ size s2 = Ret (m, s2) ∧
    capacity s2 = capacity s1.
Proof.
  assert (reachable (after abc)) as Hs
    by (apply (reachable_after abc); vm_compute; reflexivity).
  assert (at_ 2 (after abc) = Ret ("b", after abc)) as Hat
    by (vm_compute; reflexivity).
  split; [exact Hs|]. split; [exact Hat|].
  destruct (erase_then_insert_rebinds (after abc) 2 "b" Hs Hat)
    as (s1 & s2 & m & Her & Hins & _ & Hsize & Hsize2 & Hcap & _).
  exists s1, s2, m. exact (conj Her (conj Hins (conj Hsize (conj Hsize2 Hcap)))).
Defined.

Lemma empty_map_is_initial_witness :
  reachable (after [Insert (1, "a"); Erase 1]) ∧
  empty (after [Insert (1, "a"); Erase 1]) = Ret (true, after [Insert (1, "a"); Erase 1]) ∧
  capacity (after [Insert (1, "a"); Erase 1]) = INIT_CAPACITY ∧
  clear (after [Insert (1, "a"); Erase 1]) = Ret (tt, after [Insert (1, "a"); Erase 1]).
Proof.
  assert (reachable (after [Insert (1, "a"); Erase 1])) as Hs
    by (apply (reachable_after [Insert (1, "a"); Erase 1]); vm_compute; reflexivity).
  assert (empty (after [Insert (1, "a"); Erase 1]) =
          Ret (true, after [Insert (1, "a"); Erase 1])) as Hempty
    by (vm_compute; reflexivity).
  split; [exact Hs|]. split; [exact Hempty|].
  destruct (empty_map_is_initial (after [Insert (1, "a"); Erase 1]) Hs Hempty)
    as (Hcap & _ & _ & Hclear & _).
  exact (conj Hcap Hclear).
Defined.


Lemma erase_invalidates_only_its_iterator_witness :
  reachable (after abc) ∧
  find 2 (after abc) = Ret (Pos 1%nat, after abc) ∧
  ∃ s',
    erase 2 (after abc) = Ret (tt, s') ∧
    iterator_deref (Pos 1%nat) s' = Undefined ∧
    iterator_incr (Pos 1%nat) s' = Undefined.
Proof.
  assert (reachable (after abc)) as Hs
    by (apply (reachable_after abc); vm_compute; reflexivity).
  assert (find 2 (after abc) = Ret (Pos 1%nat, after abc)) as Hfind
    by (vm_compute; reflexivity).
  split; [exact Hs|]. split; [exact Hfind|].
  destruct (erase_invalidates_only_its_iterator (after abc) 2 1%nat Hs Hfind)
    as (s' & Her & Hderef & Hincr & _).
  exists s'. exact (conj Her (conj Hderef Hincr)).
Defined.

Lemma reference_stays_valid_witness :
  reachable (after abc) ∧
  operator_index 7 (after abc) = Ret (3%nat, after (abc ++ [Index 7])) ∧
  forallb (survives 7) [Insert (8, "h"); Erase 2; Assign 3 "z"] = true ∧
  ∃ s2 s3 v,
    run_ops [Insert (8, "h"); Erase 2; Assign 3 "z"] (after (abc ++ [Index 7])) =
      Ret (tt, s2) ∧
    operator_index 7 s2 = Ret (3%nat, s2) ∧
    read_ref 3%nat s2 = Ret (v, s2) ∧
    at_ 7 s2 = Ret (v, s2) ∧
    write_ref 3%nat "w" s2 = Ret (tt, s3) ∧
    at_ 7 s3 = Ret ("w", s3).
Proof.
  assert (reachable (after abc)) as Hs
    by (apply (reachable_after abc); vm_compute; reflexivity).
  split; [exact Hs|]. split; [vm_compute; reflexivity|]. split; [vm_compute; reflexivity|].
  apply (reference_stays_valid (after abc) 7 3%nat (after (abc ++ [Index 7]))
           [Insert (8, "h"); Erase 2; Assign 3 "z"] "w" Hs);
    vm_compute; reflexivity.
Defined.

Lemma range_constructor_first_wins_witness :
  NoDup [(1, "a"); (2, "b"); (3, "c")].*1 ∧
  ∃ s : t N string,
    new_from_initializer_list [(1, "a"); (2, "b"); (3, "c")] = Ret (tt, s) ∧
    iterate (S (length [(1, "a"); (2, "b"); (3, "c")])) s =
      Ret (Some (reverse [(1, "a"); (2, "b"); (3, "c")]), s).
Proof.
  assert (NoDup [(1, "a"); (2, "b"); (3, "c")].*1) as Hnd
    by (apply (bool_decide_unpack _); vm_compute; exact I).
  split; [exact Hnd|].
  destruct (range_constructor_first_wins [(1, "a"); (2, "b"); (3, "c")])
    as (s & _ & Hinit & _ & _ & _ & Hit).
  exists s. exact (conj Hinit (Hit Hnd)).
Defined.

End HashMap.
